(** * hedge: the CUDA execution-plan search and the compiled vector expressions

    A shallow embedding of
      - [hedge/backends/cuda/plan.py]: [optimize_plan], [ExecutionPlan],
        [PlanGivenData], [SegmentedMatrixLocalOpExecutionPlan],
        [make_diff_plan] and [make_element_local_plan];
      - [hedge/backends/vector_expr.py]: [DefaultingSubstitutionMapper],
        [CompiledVectorExpressionBase.__init__] and [get_kernel].

    Conventions.  Integers are [Z].  A Python float is the rational number
    [Q] it stands for; comparisons of floats are exact, and the product and
    the difference that [optimize_plan] computes on floats are rounded to the
    nearest double, as [float] below does (infinities and NaN are left out).
    The quotients of integers that the microblock and the segments are sized
    with are taken exactly.
    A Python exception is a value of [exn] and a computation that may raise
    returns [except].  The caller-supplied benchmark is stateful (it compiles
    and times a kernel), so it threads a state of the caller's choosing and
    every invocation is recorded.  What goes to the terminal or to sqlite is
    left out; what Python evaluates on the way there is not. *)

From Stdlib Require Import ZArith QArith Qround Qabs Qpower Lqa List String Ascii Lia
  DecimalString DecimalNat DecimalFacts.
From stdpp Require Import base option list strings gmap.

Open Scope string_scope.
Open Scope list_scope.

#[local] Set Warnings "-register-all,-clear-no-such-hyp".

(** ** Exceptions *)

Inductive exn : Type :=
| RuntimeError (msg : string)
| ValueError (msg : string)
| AssertionError (msg : string)
| IndexError (msg : string)
| TypeError (msg : string)
| NameError (name : string)
| ZeroDivisionError (msg : string).

Inductive except (A : Type) : Type :=
| Ok (a : A)
| Raise (e : exn).

Arguments Ok {A} a.
Arguments Raise {A} e.

#[global] Instance except_ret : MRet except := fun A a => Ok a.

#[global] Instance except_bind : MBind except := fun A B k m =>
  match m with
  | Ok a => k a
  | Raise e => Raise e
  end.

#[global] Instance except_fmap : FMap except := fun A B f m =>
  match m with
  | Ok a => Ok (f a)
  | Raise e => Raise e
  end.

(** ** Comparisons on rationals, as booleans *)

(** [x < y] as the code tests it ([item < current_min], [item > current_max]). *)
Definition Qlt_bool (x y : Q) : bool := negb (Qle_bool y x).

(** ** Floats *)

(** The nearest integer, a tie going to the even one. *)
Definition round_half_even (q : Q) : Z :=
  let f := Qfloor q in
  match Qcompare (q - inject_Z f) (1 # 2) with
  | Lt => f
  | Gt => (f + 1)%Z
  | Eq => if Z.even f then f else (f + 1)%Z
  end.

(** The largest [e] with [2 ^ e <= q], for a positive [q]. *)
Definition Qlog2 (q : Q) : Z :=
  let e := (Z.log2 (Qnum q) - Z.log2 (Zpos (Qden q)))%Z in
  if Qle_bool (2 ^ e) q then e else (e - 1)%Z.

(** The double nearest to a positive [a]: 53 significant bits, and no bit
    below [2 ^ -1074]. *)
Definition float_pos (a : Q) : Q :=
  let ulp := (2 ^ (Z.max (Qlog2 a) (-1022) - 52))%Q in
  (inject_Z (round_half_even (a / ulp)) * ulp)%Q.

(** The double that the result of an arithmetic operation on floats is:
    the one nearest to the exact result, a tie going to the even
    significand. *)
Definition float (x : Q) : Q :=
  let q := Qred x in
  match Qnum q with
  | Z0 => 0%Q
  | Zpos _ => Qred (float_pos q)
  | Zneg _ => Qred (- float_pos (- q))
  end.

(** * pytools *)

Module pytools.

(** Modelled from the spec: [pytools.argmax2] and [pytools.argmin2] are
    imported by [optimize_plan] from a library whose source is not at hand.
    The spec calls them a stable argmax/argmin over [(argument, value)]
    pairs, ties broken by first-encountered order; the scan below keeps the
    current extremum and replaces it only by a strictly better item, and an
    empty iterable is a [ValueError]. *)
Fixpoint argmax2_from {A : Type} (it : list (A * Q))
    (current_argmax : A) (current_max : Q) : A :=
  match it with
  | [] => current_argmax
  | (arg, item) :: it' =>
      if Qlt_bool current_max item
      then argmax2_from it' arg item
      else argmax2_from it' current_argmax current_max
  end.

Definition argmax2 {A : Type} (iterable : list (A * Q)) : except A :=
  match iterable with
  | [] => Raise (ValueError "argmax of empty iterable")
  | (arg, item) :: it => Ok (argmax2_from it arg item)
  end.

Fixpoint argmin2_from {A : Type} (it : list (A * Q))
    (current_argmin : A) (current_min : Q) : A :=
  match it with
  | [] => current_argmin
  | (arg, item) :: it' =>
      if Qlt_bool item current_min
      then argmin2_from it' arg item
      else argmin2_from it' current_argmin current_min
  end.

Definition argmin2 {A : Type} (iterable : list (A * Q)) : except A :=
  match iterable with
  | [] => Raise (ValueError "argmin of empty iterable")
  | (arg, item) :: it => Ok (argmin2_from it arg item)
  end.

(** Modelled from the spec: the source of [pytools.single_valued] is not
    at hand.  [optimize_plan] applies it to the feature columns of the valid
    plans, which "must share an identical feature-column schema; this is a
    precondition": it gives the one value of an iterable all of whose values
    are equal, and otherwise the violation may "surface as a generic logging
    error". *)
Definition single_valued {A : Type} `{EqDecision A} (iterable : list A)
    : except A :=
  match iterable with
  | [] => Raise (ValueError "empty iterable passed to 'single_valued()'")
  | first_item :: others =>
      if forallb (fun other_item => bool_decide (other_item = first_item)) others
      then Ok first_item
      else Raise (ValueError "non-single-valued iterable passed to 'single_valued()'")
  end.

End pytools.

(** What "stable argmax" means: position [k] of [l] holds [(a, v)], no value
    in [l] is larger than [v], and every value before position [k] is
    strictly smaller. *)
Definition first_max {A : Type} (l : list (A * Q)) (k : nat) (a : A) (v : Q)
    : Prop :=
  l !! k = Some (a, v) /\
  (forall j b u, l !! j = Some (b, u) -> (u <= v)%Q) /\
  (forall j b u, (j < k)%nat -> l !! j = Some (b, u) -> (u < v)%Q).

Definition first_min {A : Type} (l : list (A * Q)) (k : nat) (a : A) (v : Q)
    : Prop :=
  l !! k = Some (a, v) /\
  (forall j b u, l !! j = Some (b, u) -> (v <= u)%Q) /\
  (forall j b u, (j < k)%nat -> l !! j = Some (b, u) -> (v < u)%Q).

(** Python's built-in [max] over a generator of numbers. *)
Definition py_max (l : list Q) : except Q :=
  match l with
  | [] => Raise (ValueError "max() arg is an empty sequence")
  | x :: l' => Ok (fold_left (fun m y => if Qlt_bool m y then y else m) l' x)
  end.

(** * hedge.backends.cuda.plan *)

(** What [optimize_plan] and [max_registers] call on a plan and the base
    class [ExecutionPlan] leaves to its subclasses: [threads],
    [shared_mem_use] and [registers] for the occupancy, and, for the log,
    [feature_columns] (a list of "name type" strings) and [features], which
    takes the extra information of a benchmark result and may raise. *)
Class ExecutionPlan (plan : Type) : Type := {
  threads : plan -> Z;
  shared_mem_use : plan -> Z;
  registers : plan -> Z;
  feature_columns : plan -> list string;
  features : plan -> list Q -> except (list Q)
}.

(** What [target_func(p)] returns: [None], a number, or a tuple whose first
    element is the value ([None] or a number) and whose rest is extra
    information for the log. *)
Inductive bench_result : Type :=
| BNone
| BScalar (value : Q)
| BTuple (value0 : option Q) (extra_info : list Q).

(** Lines 118-122 of [optimize_plan]: the value that is kept. *)
Definition bench_value (r : bench_result) : option Q :=
  match r with
  | BNone => None
  | BScalar v => Some v
  | BTuple v0 _ => v0
  end.

(** [s.split()[0]]: the first of the words of [s], which white space
    separates. *)
Definition is_space (c : ascii) : bool :=
  match nat_of_ascii c with
  | 9 | 10 | 11 | 12 | 13 | 32 => true
  | _ => false
  end%nat.

Fixpoint skip_spaces (s : string) : string :=
  match s with
  | EmptyString => EmptyString
  | String c s' => if is_space c then skip_spaces s' else s
  end.

Fixpoint take_word (s : string) : string :=
  match s with
  | EmptyString => EmptyString
  | String c s' => if is_space c then EmptyString else String c (take_word s')
  end.

Definition first_word (s : string) : except string :=
  match skip_spaces s with
  | EmptyString => Raise (IndexError "list index out of range")
  | w => Ok (take_word w)
  end.

Section OptimizePlan.

Context {plan : Type} `{ExecutionPlan plan}.

(** [pycuda.tools.OccupancyRecord(devdata, threads, shared_mem, registers)]
    for the device at hand: either a [ValueError] with its message or a
    record, of which only [.occupancy] is read. *)
Variable OccupancyRecord : Z -> Z -> Z -> string + Q.

(** The state the benchmark reads and writes. *)
Context {World : Type}.

Definition occupancy_record (p : plan) : string + Q :=
  OccupancyRecord (threads p) (shared_mem_use p) (registers p).

Definition invalid_reason (p : plan) : option string :=
  match occupancy_record p with
  | inr _ => None
  | inl ve => Some ve
  end.

(** [p.occupancy_record().occupancy] *)
Definition occupancy (p : plan) : except Q :=
  match occupancy_record p with
  | inr occ => Ok occ
  | inl ve => Raise (ValueError ve)
  end.

(** Line 63: the plans that survive the validity filter. *)
Definition valid_plans (plan_generator : unit -> list plan) : list plan :=
  filter (fun p => invalid_reason p = None) (plan_generator tt).

(** Lines 68-69: the log is written only with the flag [cuda_plan_log]. *)
Definition log_file (debug_flags : gset string) (log_filename : option string)
    : option string :=
  if bool_decide ("cuda_plan_log" ∈ debug_flags) then log_filename else None.

(** Lines 82-102: the set-up of the log, which gives the names of the
    feature columns.  Connecting to the database and creating the table are
    sqlite's. *)
Definition open_log (log_filename : option string) (plans : list plan)
    : except (option (list string)) :=
  match log_filename with
  | None => Ok None
  | Some _ =>
      columns ← pytools.single_valued (map feature_columns plans);
      feature_names ← mapM first_word columns;
      Ok (Some feature_names)
  end.

(** Lines 129-134: the row that goes to the log, [p.features( *extra_info)]
    with the value at its end.  When the benchmark gave a number and not a
    tuple, [extra_info] is [None], which cannot be passed with a star. *)
Definition log_row (p : plan) (r : bench_result) (value : Q) : except (list Q) :=
  match r with
  | BTuple _ extra_info => row ← features p extra_info; Ok (row ++ [value])
  | _ =>
      Raise (TypeError
        "features() argument after * must be a sequence, not NoneType")
  end.

(** One invocation of the benchmark: the plan and what came back. *)
Definition call : Type := plan * bench_result.

Record scan_state : Type := {
  world : World;
  calls : list call;
  plan_values : list ((nat * plan) * Q)
}.

(** Line 80 and the threshold of line 113, both computed on floats. *)
Definition desired_occupancy (occupancy_slack max_occup : Q) : Q :=
  float (occupancy_slack * max_occup).

Definition threshold (desired_occup : Q) : Q :=
  float (desired_occup - float 1e-10).

(** The body of [for p in plans] (lines 109-134); [logging] says whether
    there is a log. *)
Definition scan_step (target_func : plan -> World -> bench_result * World)
    (logging : bool) (desired_occup : Q) (p : plan) (st : scan_state)
    : except unit * scan_state :=
  match occupancy p with
  | Raise e => (Raise e, st)
  | Ok occ =>
      if Qle_bool (threshold desired_occup) occ then
        let '(r, w) := target_func p (world st) in
        match bench_value r with
        | Some value =>
            (if logging then _ ← log_row p r value; Ok tt else Ok tt,
             {| world := w;
                calls := calls st ++ [(p, r)];
                plan_values :=
                  plan_values st ++ [((length (plan_values st), p), value)] |})
        | None =>
            (Ok tt,
             {| world := w;
                calls := calls st ++ [(p, r)];
                plan_values := plan_values st |})
        end
      else (Ok tt, st)
  end.

Fixpoint scan (target_func : plan -> World -> bench_result * World)
    (logging : bool) (desired_occup : Q) (plans : list plan) (st : scan_state)
    : except unit * scan_state :=
  match plans with
  | [] => (Ok tt, st)
  | p :: plans' =>
      match scan_step target_func logging desired_occup p st with
      | (Ok _, st') => scan target_func logging desired_occup plans' st'
      | (Raise e, st') => (Raise e, st')
      end
  end.

(** Lines 144-156 for a given [argmax2] or [argmin2]: the helper picks
    [(num_plan, plan)] and the value is looked up again at [num_plan]. *)
Definition select_with
    (arg_extremum : list ((nat * plan) * Q) -> except (nat * plan))
    (plan_values : list ((nat * plan) * Q)) : except (plan * Q) :=
  '(num_plan, p) ← arg_extremum plan_values;
  match plan_values !! num_plan with
  | Some (_, plan_value) => Ok (p, plan_value)
  | None => Raise (IndexError "list index out of range")
  end.

(** Lines 142-156. *)
Definition select (maximize : bool) (plan_values : list ((nat * plan) * Q))
    : except (plan * Q) :=
  select_with (if maximize then pytools.argmax2 else pytools.argmin2)
    plan_values.

(** [set(["cuda_no_plan", "cuda_no_plan_"+opt_name]) & debug_flags] *)
Definition no_plan (opt_name : string) (debug_flags : gset string) : bool :=
  bool_decide
    (({[ "cuda_no_plan"; "cuda_no_plan_" +:+ opt_name ]} : gset string)
       ∩ debug_flags ≠ ∅).

(** The outcome of a run: what is returned or raised, the final state of the
    benchmark and the benchmark invocations, in order. *)
Record run : Type := {
  result : except (plan * Q);
  final : World;
  trace : list call
}.

(** [optimize_plan].  The progress bar and the debug prints write to the
    terminal and the rows of the log go to sqlite; these are left out. *)
Definition optimize_plan (opt_name : string) (plan_generator : unit -> list plan)
    (target_func : plan -> World -> bench_result * World) (maximize : bool)
    (debug_flags : gset string) (occupancy_slack : Q)
    (log_filename : option string) (w : World) : run :=
  let plans := valid_plans plan_generator in
  let log_filename := log_file debug_flags log_filename in
  match plans with
  | [] => {| result := Raise (RuntimeError "no valid CUDA execution plans found");
             final := w; trace := [] |}
  | _ :: _ =>
      if no_plan opt_name debug_flags then
        {| result :=
             occs ← mapM (fun p => occ ← occupancy p; Ok (p, occ)) plans;
             p ← pytools.argmax2 occs;
             Ok (p, 0%Q);
           final := w; trace := [] |}
      else
        match mapM occupancy plans with
        | Raise e => {| result := Raise e; final := w; trace := [] |}
        | Ok occs =>
            match py_max occs with
            | Raise e => {| result := Raise e; final := w; trace := [] |}
            | Ok max_occup =>
                let desired_occup :=
                  desired_occupancy occupancy_slack max_occup in
                match open_log log_filename plans with
                | Raise e => {| result := Raise e; final := w; trace := [] |}
                | Ok feature_names =>
                    let '(r, st) :=
                      scan target_func (bool_decide (is_Some feature_names))
                        desired_occup plans
                        {| world := w; calls := []; plan_values := [] |} in
                    {| result := (_ ← r; select maximize (plan_values st));
                       final := world st; trace := calls st |}
                end
            end
        end
  end.

(** *** Vocabulary for the statements about [optimize_plan] *)

(** The occupancy of a valid plan. *)
Definition occupancy_of (p : plan) : Q :=
  match occupancy_record p with
  | inr occ => occ
  | inl _ => 0%Q
  end.

(** [m] is the maximum occupancy over [plans]. *)
Definition is_max_occupancy (m : Q) (plans : list plan) : Prop :=
  (exists p, p ∈ plans /\ (occupancy_of p == m)%Q) /\
  (forall p, p ∈ plans -> (occupancy_of p <= m)%Q).

(** Invoking the benchmark on [plans] one after the other from the state
    [w]: the invocations and the state that is left. *)
Fixpoint benchmark_all (target_func : plan -> World -> bench_result * World)
    (plans : list plan) (w : World) : list call * World :=
  match plans with
  | [] => ([], w)
  | p :: plans' =>
      let '(r, w') := target_func p w in
      let '(cs, w'') := benchmark_all target_func plans' w' in
      ((p, r) :: cs, w'')
  end.

(** The [(plan, cost)] pairs a sequence of benchmark invocations records:
    those whose value is not [None], in order. *)
Definition recorded (cs : list call) : list (plan * Q) :=
  omap (fun c : call => v ← bench_value c.2; Some (c.1, v)) cs.

(** The list [plan_values] that line 127 builds from such pairs: each pair
    carries its own position. *)
Definition numbered (pairs : list (plan * Q)) : list ((nat * plan) * Q) :=
  imap (fun i pc => ((i, pc.1), pc.2)) pairs.

(** The list of line 127 and the recorded pairs are in step. *)
Definition consistent (st : scan_state) : Prop :=
  plan_values st = numbered (recorded (calls st)).

(** The test of line 113, as the code computes it. *)
Definition within_slack (desired_occup : Q) (p : plan) : bool :=
  Qle_bool (threshold desired_occup) (occupancy_of p).


End OptimizePlan.

(** ** [PlanGivenData] and its microblock *)

Record MicroblockInfo : Type := {
  align_size : Z;
  elements : Z;
  aligned_floats : Z
}.

(** Modelled from the spec: the source of
    [hedge.backends.cuda.tools.int_ceiling] is not at hand.  It rounds
    [value] up to a multiple of [multiple_of] ("just aligned"): the ceiling
    of the quotient, times [multiple_of]. *)
Definition int_ceiling (value multiple_of : Z) : except Z :=
  if (multiple_of =? 0)%Z then Raise (ZeroDivisionError "division by zero")
  else Ok (- ((- value) / multiple_of) * multiple_of)%Z.

(** The body of [for mb_align_chunks in range(1, 256)], and the [assert False]
    after the loop.  [//] is floor division and [/] is true division
    ([from __future__ import division]); [0.05] is the rational 1/20. *)
Fixpoint microblock_scan (align_size dofs_per_el : Z) (chunks : list Z)
    : except MicroblockInfo :=
  match chunks with
  | [] => Raise (AssertionError "a valid microblock size was not found")
  | mb_align_chunks :: chunks' =>
      let mb_aligned_floats := (align_size * mb_align_chunks)%Z in
      if (dofs_per_el =? 0)%Z
      then Raise (ZeroDivisionError "integer division or modulo by zero")
      else
        let mb_elements := (mb_aligned_floats / dofs_per_el)%Z in
        let mb_floats := (dofs_per_el * mb_elements)%Z in
        if (mb_aligned_floats =? 0)%Z
        then Raise (ZeroDivisionError "division by zero")
        else
          let overhead :=
            (inject_Z (mb_aligned_floats - mb_floats)
               / inject_Z mb_aligned_floats)%Q in
          if Qle_bool overhead 0.05
          then Ok {| align_size := align_size;
                     elements := mb_elements;
                     aligned_floats := mb_aligned_floats |}
          else microblock_scan align_size dofs_per_el chunks'
  end.

(** [PlanGivenData._find_microblock_size]; [align_size] is
    [self.devdata.align_words(self.float_size())] and [dofs_per_el] is
    [self.ldis.node_count()]. *)
Definition _find_microblock_size (align_size dofs_per_el : Z)
    (allow_microblocking : bool) : except MicroblockInfo :=
  if negb allow_microblocking then
    aligned ← int_ceiling dofs_per_el align_size;
    Ok {| align_size := align_size; elements := 1; aligned_floats := aligned |}
  else microblock_scan align_size dofs_per_el (seqZ 1 255).

(** The floats of a block of [chunks] alignment units that no whole element
    uses, and the bound "padding overhead at most 5%" on them. *)
Definition padding (align_size dofs_per_el chunks : Z) : Z :=
  (align_size * chunks - dofs_per_el * (align_size * chunks / dofs_per_el))%Z.

Definition overhead_within_5_percent (align_size dofs_per_el chunks : Z) : Prop :=
  (100 * padding align_size dofs_per_el chunks <= 5 * (align_size * chunks))%Z.

#[global] Instance overhead_within_5_percent_dec (align_size dofs_per_el chunks : Z)
  : Decision (overhead_within_5_percent align_size dofs_per_el chunks).
Proof. unfold overhead_within_5_percent. apply _. Defined.

Record PlanGivenData : Type := {
  float_size : Z;
  dofs_per_el : Z;
  max_face_dofs : Z;
  microblock : MicroblockInfo
}.

(** [PlanGivenData.__init__]: [align_words] stands for the device data and
    [node_count] for the local discretisation. *)
Definition PlanGivenData_init (align_words : Z -> Z) (node_count : Z)
    (allow_microblocking : bool) (float_size max_face_dofs : Z)
    : except PlanGivenData :=
  mb ← _find_microblock_size (align_words float_size) node_count
          allow_microblocking;
  Ok {| float_size := float_size; dofs_per_el := node_count;
        max_face_dofs := max_face_dofs; microblock := mb |}.

(** * hedge.backends.vector_expr *)

(** ** Symbolic expressions *)

(** Modelled from the spec: the source of the expression trees
    ([pymbolic.primitives]) is not at hand; the spec treats them as a black
    box that supports dependency collection, substitution and C
    stringification.  The nodes
    below are the ones the three visitors used by [vector_expr.py] tell
    apart: leaves, arithmetic, subscripts and attribute lookups, calls,
    marked common sub-expressions, and [Foreign], an expression of a class
    for which a mapper has no [map_...] method. *)
Inductive expr : Type :=
| Var (name : string)
| Constant (value : Z)
| Sum (children : list expr)
| Product (children : list expr)
| Quotient (numerator denominator : expr)
| Power (base exponent : expr)
| Subscript (aggregate index : expr)
| Lookup (aggregate : expr) (name : string)
| Call (function : expr) (parameters : list expr)
| CommonSubexpression (child : expr)
| Foreign (cls : string).

(** Structural equality, which is what [==] and [hash] of these trees use. *)
#[global] Instance expr_eq_dec : EqDecision expr.
Proof.
  refine (fix go (e1 e2 : expr) : Decision (e1 = e2) :=
    let _ : EqDecision expr := @go in
    match e1, e2 with
    | Var n1, Var n2 => cast_if (decide (n1 = n2))
    | Constant c1, Constant c2 => cast_if (decide (c1 = c2))
    | Sum l1, Sum l2 => cast_if (decide (l1 = l2))
    | Product l1, Product l2 => cast_if (decide (l1 = l2))
    | Quotient a1 b1, Quotient a2 b2 =>
        cast_if_and (decide (a1 = a2)) (decide (b1 = b2))
    | Power a1 b1, Power a2 b2 =>
        cast_if_and (decide (a1 = a2)) (decide (b1 = b2))
    | Subscript a1 b1, Subscript a2 b2 =>
        cast_if_and (decide (a1 = a2)) (decide (b1 = b2))
    | Lookup a1 n1, Lookup a2 n2 =>
        cast_if_and (decide (a1 = a2)) (decide (n1 = n2))
    | Call f1 l1, Call f2 l2 =>
        cast_if_and (decide (f1 = f2)) (decide (l1 = l2))
    | CommonSubexpression c1, CommonSubexpression c2 =>
        cast_if (decide (c1 = c2))
    | Foreign k1, Foreign k2 => cast_if (decide (k1 = k2))
    | _, _ => right _
    end); abstract congruence.
Defined.

(** The sub-expressions of [t], itself included, parents first. *)
Fixpoint subexprs (t : expr) : list expr :=
  t ::
  match t with
  | Sum cs | Product cs => flat_map subexprs cs
  | Quotient a b | Power a b | Subscript a b => subexprs a ++ subexprs b
  | Lookup a _ => subexprs a
  | Call f ps => subexprs f ++ flat_map subexprs ps
  | CommonSubexpression c => subexprs c
  | Var _ | Constant _ | Foreign _ => []
  end.

(** The kinds of node that can be a dependency, and hence a key of the
    substitution map. *)
Definition dependency_kind (e : expr) : Prop :=
  match e with
  | Var _ | Subscript _ _ | Lookup _ _ | Foreign _ => True
  | _ => False
  end.

Definition is_foreign (e : expr) : Prop :=
  match e with
  | Foreign _ => True
  | _ => False
  end.

#[global] Instance is_foreign_dec (e : expr) : Decision (is_foreign e).
Proof. destruct e; simpl; apply _. Defined.

(** ** Python containers keyed by expressions *)

(** A [dict] built from a list of pairs, as that list: a later pair
    overrides an earlier one with an equal key. *)
Definition dict_get {V : Type} (d : list (expr * V)) (k : expr) : option V :=
  fold_left (fun found kv => if decide (kv.1 = k) then Some kv.2 else found)
    d None.

(** [enumerate] *)
Definition enumerate {A : Type} (l : list A) : list (nat * A) :=
  imap (fun i a => (i, a)) l.

(** [sep.join(l)] *)
Fixpoint str_join (sep : string) (l : list string) : string :=
  match l with
  | [] => ""
  | [s] => s
  | s :: l' => s +:+ sep +:+ str_join sep l'
  end.

Definition newline : string := String (Ascii.ascii_of_nat 10) "".

(** ["%d" % i] *)
Definition fmt_d (i : nat) : string :=
  NilEmpty.string_of_uint (Nat.to_uint i).

Definition repr_Z (z : Z) : string :=
  NilEmpty.string_of_int (Z.to_int z).

(** ** Visitors *)

(** Modelled from the spec: the source of
    [pymbolic.mapper.Mapper.handle_unsupported_expression] is not at hand; it
    is the fallback of a mapper that meets an expression class it has no
    method for, and reports it as an error. *)
Definition Mapper_handle_unsupported_expression {A : Type} (mapper : string)
    (e : expr) : except A :=
  Raise (ValueError (mapper +:+ " cannot handle expressions of this type")).

(** [DefaultingSubstitutionMapper.handle_unsupported_expression] (lines
    36-42).  The [else] branch calls the handler of the base class and has no
    [return]: the base class raises, and were it to come back the method
    would give [None], not the expression. *)
Definition handle_unsupported_expression (subst_func : expr -> option expr)
    (e : expr) : except expr :=
  match subst_func e with
  | Some result => Ok result
  | None =>
      Mapper_handle_unsupported_expression "DefaultingSubstitutionMapper" e
  end.

(** Modelled from the spec: the traversal of
    [DefaultingSubstitutionMapper(subst_func)(e)] is inherited from
    [pymbolic.mapper.substitutor.SubstitutionMapper] and
    [hedge.optemplate.IdentityMapperMixin], whose sources are not at hand;
    only the last case is the class's own.  A variable,
    subscript or lookup is replaced when [subst_func] knows it; every other
    supported node, and an unknown one of these three, is rebuilt from its
    rewritten children ("left unchanged"). *)
Fixpoint DefaultingSubstitutionMapper (subst_func : expr -> option expr)
    (e : expr) : except expr :=
  let rec := DefaultingSubstitutionMapper subst_func in
  match e with
  | Var _ =>
      match subst_func e with
      | Some result => Ok result
      | None => Ok e
      end
  | Subscript a i =>
      match subst_func e with
      | Some result => Ok result
      | None => a' ← rec a; i' ← rec i; Ok (Subscript a' i')
      end
  | Lookup a n =>
      match subst_func e with
      | Some result => Ok result
      | None => a' ← rec a; Ok (Lookup a' n)
      end
  | Constant _ => Ok e
  | Sum cs => cs' ← mapM rec cs; Ok (Sum cs')
  | Product cs => cs' ← mapM rec cs; Ok (Product cs')
  | Quotient a b => a' ← rec a; b' ← rec b; Ok (Quotient a' b')
  | Power a b => a' ← rec a; b' ← rec b; Ok (Power a' b')
  | Call f ps => f' ← rec f; ps' ← mapM rec ps; Ok (Call f' ps')
  | CommonSubexpression c => c' ← rec c; Ok (CommonSubexpression c')
  | Foreign _ => handle_unsupported_expression subst_func e
  end.

Section Builder.

(** The order in which Python iterates over the built-in [set] obtained by
    inserting the given elements one after the other.  It depends on the
    hash values of the elements and on the layout of the hash table, so it
    is a parameter here.  The facts below assume of it only what the
    language guarantees: the elements are those inserted, each once. *)
Variable set_iter : list expr -> list expr.

(** A [set] is represented by its elements in iteration order. *)
Definition set_or (a b : list expr) : list expr := set_iter (a ++ b).

(** [DependencyMapper.combine]: [reduce(operator.or_, values, set())] *)
Definition combine (values : list (list expr)) : list expr :=
  fold_left set_or values [].

(** Modelled from the spec: the source of [hedge.optemplate.DependencyMapper]
    is not at hand.  With [include_subscripts], [include_lookups] and
    [include_calls="descend_args"] it collects "the set of algebraic
    leaf/indexable sub-expressions each target expression depends on
    (descending into call arguments), deduplicated by structural equality". *)
Fixpoint dep_mapper (e : expr) : list expr :=
  match e with
  | Var _ | Subscript _ _ | Lookup _ _ | Foreign _ => [e]
  | Constant _ => []
  | Sum cs | Product cs => combine (map dep_mapper cs)
  | Quotient a b | Power a b => combine [dep_mapper a; dep_mapper b]
  | Call _ ps => combine (map dep_mapper ps)
  | CommonSubexpression c => dep_mapper c
  end.

(** [reduce(or_, sets)], which has no initial value. *)
Definition reduce_or (sets : list (list expr)) : except (list expr) :=
  match sets with
  | [] => Raise (TypeError "reduce() of empty sequence with no initial value")
  | s :: sets' => Ok (fold_left set_or sets' s)
  end.

(** Line 78: [deps]. *)
Definition dependencies (vec_exprs : list expr) : except (list expr) :=
  reduce_or (map dep_mapper vec_exprs).

Definition dtype : Type := string.

Record CompiledVectorExpressionBase : Type := {
  vec_exprs : list expr;
  is_vector_func : expr -> bool;
  result_dtype_getter :
    list (expr * dtype) -> list (expr * dtype) -> except dtype;
  vector_exprs : list expr;
  scalar_exprs : list expr;
  vector_names : list string;
  scalar_names : list string;
  exprs : list expr
}.

Definition var_i : expr := Var "i".

(** Lines 92-96. *)
Definition make_subst_map (vector_exprs scalar_exprs : list expr)
    (vector_names scalar_names : list string) : list (expr * expr) :=
  zip vector_exprs (map (fun vecname => Subscript (Var vecname) var_i) vector_names)
  ++ zip scalar_exprs (map (fun scaname => Var scaname) scalar_names).

(** Lines 98-102. *)
Definition subst_func (subst_map : list (expr * expr)) (e : expr) : option expr :=
  dict_get subst_map e.

(** The substitution that [__init__] sets up for a builder. *)
Definition builder_subst_func (vector_exprs scalar_exprs : list expr)
    : expr -> option expr :=
  subst_func
    (make_subst_map vector_exprs scalar_exprs
       (map (fun i => "v" +:+ fmt_d i) (seq 0 (length vector_exprs)))
       (map (fun i => "s" +:+ fmt_d i) (seq 0 (length scalar_exprs)))).

(** [CompiledVectorExpressionBase.__init__].  The constants gathered for
    [constant_dtypes] only feed [result_dtype_getter] and are taken to be
    part of it. *)
Definition CompiledVectorExpressionBase_init (vec_exprs : list expr) (is_vector_func : expr -> bool)
    (result_dtype_getter :
       list (expr * dtype) -> list (expr * dtype) -> except dtype)
    : except CompiledVectorExpressionBase :=
  deps ← dependencies vec_exprs;
  let vector_exprs := filter (fun dep => is_vector_func dep) deps in
  let scalar_exprs := filter (fun dep => ¬ is_vector_func dep) deps in
  let vector_names := map (fun i => "v" +:+ fmt_d i) (seq 0 (length vector_exprs)) in
  let scalar_names := map (fun i => "s" +:+ fmt_d i) (seq 0 (length scalar_exprs)) in
  let subst_map :=
    make_subst_map vector_exprs scalar_exprs vector_names scalar_names in
  exprs ← mapM (DefaultingSubstitutionMapper (subst_func subst_map)) vec_exprs;
  Ok {| vec_exprs := vec_exprs;
        is_vector_func := is_vector_func;
        result_dtype_getter := result_dtype_getter;
        vector_exprs := vector_exprs;
        scalar_exprs := scalar_exprs;
        vector_names := vector_names;
        scalar_names := scalar_names;
        exprs := exprs |}.

(** ** Code generation *)

(** Modelled from the spec: the source of [pymbolic.mapper.c_code.CCodeMapper]
    is not at hand.  [get_kernel] reads two attributes of it: [cse_prefix]
    and [cses],
    the list of the code strings of the common sub-expressions met so far,
    the one at position [i] being bound to the name [cse_prefix + str(i)].
    A marked common sub-expression is stringified once, when first met, and
    every occurrence is rendered as a reference to its binding; other nodes
    are rendered as C expressions, with parentheses by precedence. *)
Record CCodeMapper : Type := {
  cse_prefix : string;
  cses : list string;
  cse_to_index : list (expr * nat)
}.

Definition new_CCodeMapper : CCodeMapper :=
  {| cse_prefix := "_cse"; cses := []; cse_to_index := [] |}.

Definition PREC_CALL : nat := 15.
Definition PREC_POWER : nat := 14.
Definition PREC_PRODUCT : nat := 12.
Definition PREC_SUM : nat := 11.
Definition PREC_NONE : nat := 0.

Definition parenthesize_if_needed (s : string) (enclosing_prec my_prec : nat)
    : string :=
  if (my_prec <? enclosing_prec)%nat then "(" +:+ s +:+ ")" else s.

Fixpoint code_rec (e : expr) (enclosing_prec : nat) (cm : CCodeMapper)
    : except (string * CCodeMapper) :=
  let fix rec_all (es : list expr) (prec : nat) (cm : CCodeMapper)
      : except (list string * CCodeMapper) :=
    match es with
    | [] => Ok ([], cm)
    | e :: es' =>
        '(s, cm) ← code_rec e prec cm;
        '(ss, cm) ← rec_all es' prec cm;
        Ok (s :: ss, cm)
    end in
  match e with
  | Var name => Ok (name, cm)
  | Constant value => Ok (repr_Z value, cm)
  | Sum cs =>
      '(ss, cm) ← rec_all cs PREC_SUM cm;
      Ok (parenthesize_if_needed (str_join " + " ss) enclosing_prec PREC_SUM, cm)
  | Product cs =>
      '(ss, cm) ← rec_all cs PREC_PRODUCT cm;
      Ok (parenthesize_if_needed (str_join "*" ss) enclosing_prec PREC_PRODUCT, cm)
  | Quotient a b =>
      '(sa, cm) ← code_rec a PREC_PRODUCT cm;
      '(sb, cm) ← code_rec b PREC_POWER cm;
      Ok (parenthesize_if_needed (sa +:+ " / " +:+ sb) enclosing_prec PREC_PRODUCT, cm)
  | Power a b =>
      '(sa, cm) ← code_rec a PREC_NONE cm;
      '(sb, cm) ← code_rec b PREC_NONE cm;
      Ok ("pow(" +:+ sa +:+ ", " +:+ sb +:+ ")", cm)
  | Subscript a i =>
      '(sa, cm) ← code_rec a PREC_CALL cm;
      '(si, cm) ← code_rec i PREC_NONE cm;
      Ok (parenthesize_if_needed (sa +:+ "[" +:+ si +:+ "]") enclosing_prec PREC_CALL, cm)
  | Lookup a name =>
      '(sa, cm) ← code_rec a PREC_CALL cm;
      Ok (parenthesize_if_needed (sa +:+ "." +:+ name) enclosing_prec PREC_CALL, cm)
  | Call f ps =>
      '(sf, cm) ← code_rec f PREC_CALL cm;
      '(ss, cm) ← rec_all ps PREC_NONE cm;
      Ok (sf +:+ "(" +:+ str_join ", " ss +:+ ")", cm)
  | CommonSubexpression c =>
      match dict_get (cse_to_index cm) e with
      | Some cse_index => Ok (cse_prefix cm +:+ fmt_d cse_index, cm)
      | None =>
          '(my_cse_str, cm) ← code_rec c PREC_NONE cm;
          let cse_index := length (cses cm) in
          Ok (cse_prefix cm +:+ fmt_d cse_index,
              {| cse_prefix := cse_prefix cm;
                 cses := cses cm ++ [my_cse_str];
                 cse_to_index := cse_to_index cm ++ [(e, cse_index)] |})
      end
  | Foreign _ => Mapper_handle_unsupported_expression "CCodeMapper" e
  end.

(** [[code_mapper(e, PREC_NONE) for e in self.exprs]] on one mapper. *)
Fixpoint code_all (es : list expr) (cm : CCodeMapper)
    : except (list string * CCodeMapper) :=
  match es with
  | [] => Ok ([], cm)
  | e :: es' =>
      '(s, cm) ← code_rec e PREC_NONE cm;
      '(ss, cm) ← code_all es' cm;
      Ok (s :: ss, cm)
  end.

(** [get_c_declarator] is called on line 128, but [vector_expr.py] neither
    defines nor imports that name: evaluating the call raises. *)
Definition get_c_declarator (name : string) (is_pointer : bool)
    (d : dtype) : except string :=
  Raise (NameError "get_c_declarator").

(** An argument of the generated kernel. *)
Inductive kernel_arg : Type :=
| VectorArg (d : dtype) (name : string)
| ScalarArg (d : dtype) (name : string).

(** [KernelRecord]; [kernel] is what [make_kernel_internal] is given. *)
Record KernelRecord : Type := {
  kernel : list kernel_arg * string;
  result_dtype : dtype
}.

(** [CompiledVectorExpressionBase.get_kernel]. *)
Definition get_kernel (self : CompiledVectorExpressionBase)
    (vector_dtypes scalar_dtypes : list dtype) : except KernelRecord :=
  result_dtype ←
    result_dtype_getter self
      (zip (vector_exprs self) vector_dtypes)
      (zip (scalar_exprs self) scalar_dtypes);
  let args :=
    map (fun i => VectorArg result_dtype ("_result" +:+ fmt_d i))
      (seq 0 (length (exprs self))) in
  '(expr_codes, code_mapper) ← code_all (exprs self) new_CCodeMapper;
  cse_lines ←
    mapM (M := except) (fun '(i, cse) =>
            decl ← get_c_declarator (cse_prefix code_mapper +:+ fmt_d i)
                     false result_dtype;
            Ok (decl +:+ " = " +:+ cse +:+ ";"))
      (enumerate (cses code_mapper));
  let code_lines :=
    cse_lines
    ++ map (fun '(i, ec) => "_result" +:+ fmt_d i +:+ "[i] = " +:+ ec +:+ ";")
         (enumerate expr_codes) in
  let args :=
    args
    ++ map (fun '(d, name) => VectorArg d name)
         (zip vector_dtypes (vector_names self))
    ++ map (fun '(d, name) => ScalarArg d name)
         (zip scalar_dtypes (scalar_names self)) in
  Ok {| kernel := (args, str_join newline code_lines);
        result_dtype := result_dtype |}.

End Builder.

(** The name an argument of the kernel is declared with. *)
Definition arg_name (arg : kernel_arg) : string :=
  match arg with
  | VectorArg _ name | ScalarArg _ name => name
  end.

(** The loop over the children of a node in [code_rec], by itself: the
    children are stringified one after the other on the one mapper. *)
Fixpoint code_children (es : list expr) (prec : nat) (cm : CCodeMapper)
    : except (list string * CCodeMapper) :=
  match es with
  | [] => Ok ([], cm)
  | e :: es' =>
      '(s, cm) ← code_rec e prec cm;
      '(ss, cm) ← code_children es' prec cm;
      Ok (s :: ss, cm)
  end.

(** ** The rewrite step, in the words of the spec *)

(** The position of [e] in [l], when it is there. *)
Definition index_of (e : expr) (l : list expr) : option nat :=
  fst <$> list_find (fun x => x = e) l.

(** Following the spec: "each vector dependency with an indexed reference
    [v_k[lane_index]] (a single shared per-kernel loop index) and each scalar
    dependency with a plain reference [s_k]". *)
Definition spec_reference (vector scalar : list expr) (e : expr)
    : option expr :=
  match index_of e vector with
  | Some k => Some (Subscript (Var ("v" +:+ fmt_d k)) (Var "i"))
  | None =>
      match index_of e scalar with
      | Some k => Some (Var ("s" +:+ fmt_d k))
      | None => None
      end
  end.

(** Following the spec: "substitute, in every target expression, each ...
    dependency with [its] reference; any sub-expression not covered by the
    substitution map is left unchanged".  A node that is not a dependency
    stays, over its children treated likewise. *)
Fixpoint spec_substituted (vector scalar : list expr) (e : expr) : expr :=
  match spec_reference vector scalar e with
  | Some r => r
  | None =>
      match e with
      | Sum cs => Sum (map (spec_substituted vector scalar) cs)
      | Product cs => Product (map (spec_substituted vector scalar) cs)
      | Quotient a b =>
          Quotient (spec_substituted vector scalar a)
            (spec_substituted vector scalar b)
      | Power a b =>
          Power (spec_substituted vector scalar a)
            (spec_substituted vector scalar b)
      | Subscript a i =>
          Subscript (spec_substituted vector scalar a)
            (spec_substituted vector scalar i)
      | Lookup a name => Lookup (spec_substituted vector scalar a) name
      | Call f ps =>
          Call (spec_substituted vector scalar f)
            (map (spec_substituted vector scalar) ps)
      | CommonSubexpression c =>
          CommonSubexpression (spec_substituted vector scalar c)
      | Var _ | Constant _ | Foreign _ => e
      end
  end.

(** The sub-expressions of [e] that do not lie below a dependency, itself
    included, parents first: the nodes a substitution of the dependencies
    [deps] comes across. *)
Fixpoint uncovered (deps : list expr) (e : expr) : list expr :=
  e ::
  if decide (e ∈ deps) then []
  else
    match e with
    | Sum cs | Product cs => flat_map (uncovered deps) cs
    | Quotient a b | Power a b | Subscript a b =>
        uncovered deps a ++ uncovered deps b
    | Lookup a _ => uncovered deps a
    | Call f ps => uncovered deps f ++ flat_map (uncovered deps) ps
    | CommonSubexpression c => uncovered deps c
    | Var _ | Constant _ | Foreign _ => []
    end.

(** The nodes of a target that are not in the substitution map and are of a
    class the substitutor has no method for. *)
Definition unmapped_unsupported (deps : list expr) (e : expr) : list expr :=
  filter (fun s => is_foreign s /\ s ∉ deps) (uncovered deps e).

(** What the language guarantees of the iteration over a [set]: the elements
    are those inserted, each once. *)
Definition lawful_iteration (set_iter : list expr -> list expr) : Prop :=
  (forall l x, x ∈ set_iter l <-> x ∈ l) /\ (forall l, NoDup (set_iter l)).

(** * The rest of hedge.backends.cuda.plan *)

(** ** [Parallelism] *)

Record Parallelism : Type := {
  parallel : Z;
  inline : Z;
  serial : Z
}.

(** [Parallelism.total] *)
Definition Parallelism_total (self : Parallelism) : Z :=
  (parallel self * inline self * serial self)%Z.

(** ** [ExecutionPlan.max_registers] *)

Section MaxRegisters.

Context {plan : Type} `{ExecutionPlan plan}.
Variable OccupancyRecord : Z -> Z -> Z -> string + Q.

(** The [while True] loop of lines 183-191, for at most [fuel] turns; [None]
    says that the loop is still running when the fuel is spent. *)
Fixpoint max_registers_loop (fuel : nat) (p : plan) (regs : Z) : option Z :=
  match fuel with
  | O => None
  | Datatypes.S fuel' =>
      match OccupancyRecord (threads p) (shared_mem_use p) (regs + 1)%Z with
      | inl _ => Some regs
      | inr _ => max_registers_loop fuel' p (regs + 1)%Z
      end
  end.

Definition max_registers (fuel : nat) (p : plan) : option Z :=
  max_registers_loop fuel p (registers p).

End MaxRegisters.

(** ** [PlanGivenData] after decomposition *)

(** The descriptor once [post_decomposition] has attached the block counts;
    the methods below it in the class are "available after decomposition
    has posted". *)
Record Decomposed : Type := {
  given : PlanGivenData;
  block_count : Z;
  microblocks_per_block : Z
}.

Definition post_decomposition (self : PlanGivenData)
    (block_count microblocks_per_block : Z) : Decomposed :=
  {| given := self; block_count := block_count;
     microblocks_per_block := microblocks_per_block |}.

(** [matmul_preimage_shape]; of [matmul_plan] it reads
    [aligned_preimage_dofs_per_microblock] and
    [preimage_dofs_per_macroblock()], and it returns a one-element tuple. *)
Definition matmul_preimage_shape (self : Decomposed)
    (aligned_preimage_dofs_per_microblock preimage_dofs_per_macroblock : Z)
    : except Z :=
  let fof_dofs :=
    (block_count self * microblocks_per_block self
     * aligned_preimage_dofs_per_microblock)%Z in
  int_ceiling fof_dofs preimage_dofs_per_macroblock.

Definition elements_per_block (self : Decomposed) : Z :=
  (microblocks_per_block self * elements (microblock (given self)))%Z.

Definition dofs_per_block (self : Decomposed) : Z :=
  (aligned_floats (microblock (given self)) * microblocks_per_block self)%Z.

Definition total_dofs (self : Decomposed) : Z :=
  (block_count self * dofs_per_block self)%Z.

(** ** [SegmentedMatrixLocalOpExecutionPlan] *)

(** Modelled from the spec: [int_ceiling] with its default [multiple_of=1],
    applied to the quotient of a true division: the ceiling of the
    quotient. *)
Definition int_ceiling_quotient (numerator denominator : Z) : except Z :=
  if (denominator =? 0)%Z then Raise (ZeroDivisionError "division by zero")
  else Ok (Qceiling (inject_Z numerator / inject_Z denominator)).

Record SegmentedMatrixLocalOpExecutionPlan : Type := {
  seg_given : PlanGivenData;
  parallelism : Parallelism;
  segment_size : Z;
  max_unroll : Z
}.

Definition segments_per_microblock (self : SegmentedMatrixLocalOpExecutionPlan)
    : except Z :=
  int_ceiling_quotient (aligned_floats (microblock (seg_given self)))
    (segment_size self).

Definition dofs_per_macroblock (self : SegmentedMatrixLocalOpExecutionPlan) : Z :=
  (Parallelism_total (parallelism self)
   * aligned_floats (microblock (seg_given self)))%Z.

(** [aligned_preimage_dofs_per_microblock] is an attribute that the
    subclasses set. *)
Definition preimage_dofs_per_macroblock
    (self : SegmentedMatrixLocalOpExecutionPlan)
    (aligned_preimage_dofs_per_microblock : Z) : Z :=
  (Parallelism_total (parallelism self)
   * aligned_preimage_dofs_per_microblock)%Z.

Definition max_elements_touched_by_segment
    (self : SegmentedMatrixLocalOpExecutionPlan) : except Z :=
  if (segment_size self <? dofs_per_el (seg_given self))%Z then Ok 2%Z
  else
    n ← int_ceiling_quotient (segment_size self) (dofs_per_el (seg_given self));
    Ok (n + 1)%Z.

(** [columns()] and [fetch_buffer_segments()] are left to the subclasses. *)
Definition seg_shared_mem_use (self : SegmentedMatrixLocalOpExecutionPlan)
    (columns fetch_buffer_segments : Z) : Z :=
  (128
   + float_size (seg_given self)
     * (segment_size self * columns
        + parallel (parallelism self) * inline (parallelism self)
          * segment_size self * fetch_buffer_segments))%Z.

Definition seg_threads (self : SegmentedMatrixLocalOpExecutionPlan) : Z :=
  (parallel (parallelism self) * segment_size self)%Z.

(** The elements that the DOFs [offset, offset + segment_size) of a
    microblock fall into, elements being [dofs_per_el] consecutive DOFs. *)
Definition elements_touched (dofs_per_el segment_size offset : Z) : Z :=
  ((offset + segment_size - 1) / dofs_per_el - offset / dofs_per_el + 1)%Z.

(** ** The plan generators of [make_diff_plan] and [make_element_local_plan] *)

Definition MAX_INLINE : Z := 6.

(** [range(start, stop, step)] *)
Definition py_range (start stop step : Z) : except (list Z) :=
  if (step =? 0)%Z then Raise (ValueError "range() step argument must not be zero")
  else if (0 <? step)%Z
  then Ok (map (fun i => start + step * i)%Z
             (seqZ 0 ((stop - start + step - 1) / step)))
  else Ok (map (fun i => start + step * i)%Z
             (seqZ 0 ((start - stop - step - 1) / (- step)))).

(** [range(start, stop)] *)
Definition py_range2 (start stop : Z) : list Z := seqZ start (stop - start).

(** The values that the guards of the generators compare: a number, or the
    method object that [given.dofs_per_el] without a call is. *)
Inductive pyobj : Type :=
| PyInt (value : Z)
| PyBoundMethod (class_name method_name : string).

#[global] Instance pyobj_eq_dec : EqDecision pyobj.
Proof. solve_decision. Defined.

(** [==] on these: a number is equal to a number of the same value and to no
    method object. *)
Definition py_eq (x y : pyobj) : bool := bool_decide (x = y).

(** The plans of [diff_shared_segmat] and [diff_shared_fld], as the
    arguments they are constructed with ([given] apart). *)
Inductive diff_plan : Type :=
| DiffSSegPlan (par : Parallelism) (segment_size max_unroll : Z)
| DiffSFieldPlan (par : Parallelism)
    (aligned_preimage_dofs_per_microblock preimage_dofs_per_el
     aligned_image_dofs_per_microblock image_dofs_per_el : Z).

(** [generate_plans] of [make_diff_plan] (lines 354-380), run to its end. *)
Definition diff_generate_plans (debug : gset string) (given : PlanGivenData)
    (aligned_preimage_dofs_per_microblock preimage_dofs_per_el
     aligned_image_dofs_per_microblock image_dofs_per_el : Z)
    : except (list diff_plan) :=
  segment_sizes ←
    py_range (align_size (microblock given))
      (elements (microblock given) * dofs_per_el given + 1)
      (align_size (microblock given));
  let segmented : list diff_plan :=
    if bool_decide ("cuda_no_smem_matrix" ∉ debug)
       && py_eq (PyInt image_dofs_per_el)
            (PyBoundMethod "PlanGivenData" "dofs_per_el")
       && bool_decide (aligned_image_dofs_per_microblock
                       = aligned_floats (microblock given))
    then
      pe ← py_range2 1 (32 + 1);
      inl ← py_range2 1 (MAX_INLINE + 1);
      seq ← py_range2 1 4;
      segment_size ← segment_sizes;
      [DiffSSegPlan {| parallel := pe; inline := inl; serial := seq |}
         segment_size (dofs_per_el given)]
    else [] in
  let shared_field : list diff_plan :=
    pe ← py_range2 1 (32 + 1);
    inl ← py_range2 1 (MAX_INLINE + 1);
    [DiffSFieldPlan {| parallel := pe; inline := inl; serial := 1 |}
       aligned_preimage_dofs_per_microblock preimage_dofs_per_el
       aligned_image_dofs_per_microblock image_dofs_per_el] in
  Ok (segmented ++ shared_field).

(** The plans of [el_local_shared_segmat] and [el_local_shared_fld]. *)
Inductive el_local_plan : Type :=
| ElSSegPlan (par : Parallelism) (segment_size max_unroll : Z)
    (use_prefetch_branch : bool) (debug_name : string)
    (aligned_preimage_dofs_per_microblock preimage_dofs_per_el : Z)
| ElSFieldPlan (par : Parallelism) (debug_name : string)
    (aligned_preimage_dofs_per_microblock preimage_dofs_per_el
     aligned_image_dofs_per_microblock image_dofs_per_el
     elements_per_microblock microblock_count : Z).

(** [generate_plans] of [make_element_local_plan] (lines 392-437). *)
Definition el_local_generate_plans (debug : gset string) (given : PlanGivenData)
    (aligned_preimage_dofs_per_microblock preimage_dofs_per_el
     aligned_image_dofs_per_microblock image_dofs_per_el
     elements_per_microblock microblock_count : Z) (op_name : string)
    : except (list el_local_plan) :=
  segmented ←
    (if bool_decide ("cuda_no_smem_matrix" ∉ debug)
        && py_eq (PyInt image_dofs_per_el)
             (PyBoundMethod "PlanGivenData" "dofs_per_el")
        && bool_decide (aligned_image_dofs_per_microblock
                        = aligned_floats (microblock given))
        && bool_decide (elements_per_microblock = elements (microblock given))
     then
       segment_sizes ←
         py_range (align_size (microblock given))
           (elements_per_microblock * dofs_per_el given + 1)
           (align_size (microblock given));
       Ok (pe ← py_range2 1 (32 + 1);
           inl ← py_range2 1 (MAX_INLINE + 1);
           seq ← py_range2 1 (4 + 1);
           segment_size ← segment_sizes;
           [ElSSegPlan {| parallel := pe; inline := inl; serial := seq |}
              segment_size preimage_dofs_per_el true ("cuda_" +:+ op_name)
              aligned_preimage_dofs_per_microblock preimage_dofs_per_el])
     else Ok []);
  let shared_field : list el_local_plan :=
    pe ← py_range2 1 (32 + 1);
    inl ← py_range2 1 MAX_INLINE;
    [ElSFieldPlan {| parallel := pe; inline := inl; serial := 1 |}
       ("cuda_" +:+ op_name)
       aligned_preimage_dofs_per_microblock preimage_dofs_per_el
       aligned_image_dofs_per_microblock image_dofs_per_el
       elements_per_microblock microblock_count] in
  Ok (segmented ++ shared_field).

Section MakePlans.

Variable OccupancyRecord : Z -> Z -> Z -> string + Q.
Context {World : Type}.

(** [make_diff_plan]: the search over these plans for the least benchmark
    value, with the default slack.  [debug] is [discr.debug], [target_func]
    is [plan.make_kernel(discr).benchmark()] and [order] is [given.order()],
    which the descriptor reads off the local discretisation. *)
Definition make_diff_plan `{ExecutionPlan diff_plan} (debug : gset string)
    (given : PlanGivenData) (order : Z)
    (aligned_preimage_dofs_per_microblock preimage_dofs_per_el
     aligned_image_dofs_per_microblock image_dofs_per_el : Z)
    (target_func : diff_plan -> World -> bench_result * World) (w : World)
    : run :=
  match diff_generate_plans debug given aligned_preimage_dofs_per_microblock
          preimage_dofs_per_el aligned_image_dofs_per_microblock
          image_dofs_per_el with
  | Raise e => {| result := Raise e; final := w; trace := [] |}
  | Ok plans =>
      optimize_plan OccupancyRecord "diff" (fun _ => plans) target_func false
        debug 0.5 (Some ("diff-" +:+ repr_Z order)) w
  end.

(** [make_element_local_plan] *)
Definition make_element_local_plan `{ExecutionPlan el_local_plan}
    (debug : gset string) (given : PlanGivenData) (order : Z)
    (aligned_preimage_dofs_per_microblock preimage_dofs_per_el
     aligned_image_dofs_per_microblock image_dofs_per_el
     elements_per_microblock microblock_count : Z) (op_name : string)
    (target_func : el_local_plan -> World -> bench_result * World) (w : World)
    : run :=
  match el_local_generate_plans debug given
          aligned_preimage_dofs_per_microblock preimage_dofs_per_el
          aligned_image_dofs_per_microblock image_dofs_per_el
          elements_per_microblock microblock_count op_name with
  | Raise e => {| result := Raise e; final := w; trace := [] |}
  | Ok plans =>
      optimize_plan OccupancyRecord op_name (fun _ => plans) target_func false
        debug 0.5 (Some (op_name +:+ "-" +:+ repr_Z order)) w
  end.

End MakePlans.

(** ** A small device and three kinds of plan, to run the definitions on *)

Module Fixture.

(** A plan is its resource request. *)
Record toy_plan : Type := Toy { toy_threads : Z; toy_smem : Z; toy_regs : Z }.

#[global] Instance toy_plan_eq_dec : EqDecision toy_plan.
Proof. solve_decision. Defined.

(** For the log a plan gives its three numbers, and whatever extra
    information the benchmark came back with. *)
#[global] Instance toy_execution_plan : ExecutionPlan toy_plan :=
  {| threads := toy_threads; shared_mem_use := toy_smem; registers := toy_regs;
     feature_columns := fun _ =>
       ["threads integer"; "smem integer"; "regs integer"];
     features := fun p extra_info =>
       Ok ([inject_Z (toy_threads p); inject_Z (toy_smem p);
            inject_Z (toy_regs p)] ++ extra_info) |}.

(** A device with ten thread slots: more threads than that is refused, and
    the occupancy is the fraction of the slots in use, a float. *)
Definition toy_occupancy (threads smem regs : Z) : string + Q :=
  if (10 <? threads)%Z then inl "too many threads per block"
  else inr (float (inject_Z threads / 10)).

(** A device with two thread slots, and a slack just above a half: the
    double [281474976766951 / 2^49], which prints as 0.5000000001. *)
Definition two_slots (threads smem regs : Z) : string + Q :=
  if (2 <? threads)%Z then inl "too many threads per block"
  else inr (float (inject_Z threads / 2)).

Definition both_slots : toy_plan := Toy 2 0 8.
Definition one_slot : toy_plan := Toy 1 0 8.
Definition two_plans (_ : unit) : list toy_plan := [both_slots; one_slot].
Definition slack_above_half : Q := 281474976766951 # 562949953421312.

Definition full : toy_plan := Toy 10 0 8.
Definition nine : toy_plan := Toy 9 0 8.
Definition one : toy_plan := Toy 1 0 8.
Definition oversized : toy_plan := Toy 11 0 8.

Definition all_plans (_ : unit) : list toy_plan := [full; nine; one; oversized].

(** Costs 3, 7 (as the head of a tuple) and 5. *)
Definition three_costs (p : toy_plan) : bench_result :=
  if decide (p = full) then BScalar 3
  else if decide (p = nine) then BTuple (Some 7%Q) [42%Q]
  else BScalar 5.


Definition declines (p : toy_plan) : bench_result := BNone.

(** The benchmark counts its invocations in its state. *)
Definition timed (cost : toy_plan -> bench_result)
    (p : toy_plan) (n : nat) : bench_result * nat :=
  (cost p, Datatypes.S n).

(** Two targets over the vectors [a], [b], [c] and the scalar [dt]; in
    [marked_targets] the product they share is a marked common
    sub-expression. *)
Definition a : expr := Var "a".
Definition b : expr := Var "b".
Definition c : expr := Var "c".
Definition dt : expr := Var "dt".

Definition is_vector (e : expr) : bool := bool_decide (e <> dt).

Definition plain_targets : list expr :=
  [Sum [Product [a; b]; Product [dt; c]];
   Sum [Product [a; b]; Product [Constant (-1); c]]].

Definition marked_targets : list expr :=
  [Sum [CommonSubexpression (Product [a; b]); Product [dt; c]];
   Sum [CommonSubexpression (Product [a; b]); Product [Constant (-1); c]]].

Definition float64_getter (vector_dtypes scalar_dtypes : list (expr * dtype))
    : except dtype :=
  Ok "float64".

(** One possible iteration order of a set: that of first insertion. *)
Definition insertion_order (l : list expr) : list expr :=
  reverse (remove_dups (reverse l)).


(** A target that calls a function of an unsupported class. *)
Definition flux_of_a : expr := Call (Foreign "flux") [a].

End Fixture.

(** ** A descriptor, a segmented plan and generated plans, to run the rest on *)

Module PlanFixture.

(** Alignment 16 and 20 DOFs per element, with the microblock that is found
    for them. *)
Definition descriptor : PlanGivenData :=
  {| float_size := 4; dofs_per_el := 20; max_face_dofs := 6;
     microblock := {| align_size := 16; elements := 4; aligned_floats := 80 |} |}.

Definition segmented : SegmentedMatrixLocalOpExecutionPlan :=
  {| seg_given := descriptor;
     parallelism := {| parallel := 2; inline := 2; serial := 1 |};
     segment_size := 32; max_unroll := 20 |}.

(** A device that refuses more than 16 registers per thread. *)
Definition register_file (threads smem regs : Z) : string + Q :=
  if (16 <? regs)%Z then inl "too many registers" else inr 1%Q.

(** Generated plans on the device of [Fixture]: a plan asks for as many
    threads as its [parallel] says, and costs as much as its [inline]. *)
Definition diff_parallelism (p : diff_plan) : Parallelism :=
  match p with
  | DiffSSegPlan par _ _ | DiffSFieldPlan par _ _ _ _ => par
  end.

Definition diff_execution_plan : ExecutionPlan diff_plan :=
  {| threads := fun p => parallel (diff_parallelism p);
     shared_mem_use := fun _ => 0%Z; registers := fun _ => 8%Z;
     feature_columns := fun _ => ["parallel integer"; "inline integer"];
     features := fun p extra_info =>
       Ok ([inject_Z (parallel (diff_parallelism p));
            inject_Z (inline (diff_parallelism p))] ++ extra_info) |}.

Definition diff_cost (p : diff_plan) (n : nat) : bench_result * nat :=
  (BScalar (inject_Z (inline (diff_parallelism p))), Datatypes.S n).

Definition el_local_parallelism (p : el_local_plan) : Parallelism :=
  match p with
  | ElSSegPlan par _ _ _ _ _ _ | ElSFieldPlan par _ _ _ _ _ _ _ => par
  end.

Definition el_local_execution_plan : ExecutionPlan el_local_plan :=
  {| threads := fun p => parallel (el_local_parallelism p);
     shared_mem_use := fun _ => 0%Z; registers := fun _ => 8%Z;
     feature_columns := fun _ => ["parallel integer"; "inline integer"];
     features := fun p extra_info =>
       Ok ([inject_Z (parallel (el_local_parallelism p));
            inject_Z (inline (el_local_parallelism p))] ++ extra_info) |}.

Definition el_local_cost (p : el_local_plan) (n : nat) : bench_result * nat :=
  (BScalar (inject_Z (inline (el_local_parallelism p))), Datatypes.S n).

End PlanFixture.

(** * Facts about the search *)

(** ** Comparisons *)

Lemma Qlt_bool_iff (x y : Q) : Qlt_bool x y = true <-> (x < y)%Q.
Proof.
  unfold Qlt_bool. rewrite negb_true_iff, <- not_true_iff_false, Qle_bool_iff.
  split; [apply Qnot_le_lt | apply Qlt_not_le].
Qed.

Lemma Qlt_bool_false_iff (x y : Q) : Qlt_bool x y = false <-> (y <= x)%Q.
Proof.
  unfold Qlt_bool. rewrite negb_false_iff. apply Qle_bool_iff.
Qed.

(** ** The stable extremum *)

Section Extremum.

Context {A : Type}.
Implicit Types (l it : list (A * Q)) (a : A) (v : Q).

(** Appending an item to a list whose first maximum is known. *)
Lemma first_max_snoc_keep l k a v b u :
  first_max l k a v -> (u <= v)%Q -> first_max (l ++ [(b, u)]) k a v.
Proof.
  intros (Hk & Hall & Hbefore) Hu. split_and!.
  - rewrite lookup_app_l; [done | by eapply lookup_lt_Some].
  - intros j c w [[_ Hj] | [_ [=<- <-]]]%lookup_snoc_Some; eauto.
  - intros j c w Hjk [[_ Hj] | [-> _]]%lookup_snoc_Some; [eauto |].
    apply lookup_lt_Some in Hk. lia.
Qed.

Lemma first_max_snoc_new l k a v b u :
  first_max l k a v -> (v < u)%Q -> first_max (l ++ [(b, u)]) (length l) b u.
Proof.
  intros (Hk & Hall & Hbefore) Hu. split_and!.
  - by rewrite list_lookup_middle.
  - intros j c w [[_ Hj] | [_ [=<- <-]]]%lookup_snoc_Some.
    + apply Qlt_le_weak. eapply Qle_lt_trans; eauto.
    + apply Qle_refl.
  - intros j c w Hjk [[_ Hj] | [-> _]]%lookup_snoc_Some; [| lia].
    eapply Qle_lt_trans; eauto.
Qed.

Lemma argmax2_from_spec it : forall l k a v,
  first_max l k a v ->
  exists k' v', first_max (l ++ it) k' (pytools.argmax2_from it a v) v'.
Proof.
  induction it as [| [b u] it IH]; intros l k a v Hmax; simpl.
  - rewrite app_nil_r. eauto.
  - replace (l ++ (b, u) :: it) with ((l ++ [(b, u)]) ++ it)
      by (by rewrite <- app_assoc).
    destruct (Qlt_bool v u) eqn:Hcmp.
    + apply Qlt_bool_iff in Hcmp. eapply IH, first_max_snoc_new; eauto.
    + apply Qlt_bool_false_iff in Hcmp. eapply IH, first_max_snoc_keep; eauto.
Qed.

Lemma argmax2_spec l :
  l <> [] -> exists k a v, pytools.argmax2 l = Ok a /\ first_max l k a v.
Proof.
  destruct l as [| [a v] it]; [done | intros _].
  destruct (argmax2_from_spec it [(a, v)] 0 a v) as (k & v' & Hmax).
  - split_and!; [done | |].
    + intros [| j] b u; [intros [= <- <-]; apply Qle_refl | done].
    + intros j b u Hj. lia.
  - exists k, (pytools.argmax2_from it a v), v'. done.
Qed.

Lemma first_min_snoc_keep l k a v b u :
  first_min l k a v -> (v <= u)%Q -> first_min (l ++ [(b, u)]) k a v.
Proof.
  intros (Hk & Hall & Hbefore) Hu. split_and!.
  - rewrite lookup_app_l; [done | by eapply lookup_lt_Some].
  - intros j c w [[_ Hj] | [_ [=<- <-]]]%lookup_snoc_Some; eauto.
  - intros j c w Hjk [[_ Hj] | [-> _]]%lookup_snoc_Some; [eauto |].
    apply lookup_lt_Some in Hk. lia.
Qed.

Lemma first_min_snoc_new l k a v b u :
  first_min l k a v -> (u < v)%Q -> first_min (l ++ [(b, u)]) (length l) b u.
Proof.
  intros (Hk & Hall & Hbefore) Hu. split_and!.
  - by rewrite list_lookup_middle.
  - intros j c w [[_ Hj] | [_ [=<- <-]]]%lookup_snoc_Some.
    + apply Qlt_le_weak. eapply Qlt_le_trans; eauto.
    + apply Qle_refl.
  - intros j c w Hjk [[_ Hj] | [-> _]]%lookup_snoc_Some; [| lia].
    eapply Qlt_le_trans; eauto.
Qed.

Lemma argmin2_from_spec it : forall l k a v,
  first_min l k a v ->
  exists k' v', first_min (l ++ it) k' (pytools.argmin2_from it a v) v'.
Proof.
  induction it as [| [b u] it IH]; intros l k a v Hmin; simpl.
  - rewrite app_nil_r. eauto.
  - replace (l ++ (b, u) :: it) with ((l ++ [(b, u)]) ++ it)
      by (by rewrite <- app_assoc).
    destruct (Qlt_bool u v) eqn:Hcmp.
    + apply Qlt_bool_iff in Hcmp. eapply IH, first_min_snoc_new; eauto.
    + apply Qlt_bool_false_iff in Hcmp. eapply IH, first_min_snoc_keep; eauto.
Qed.

Lemma argmin2_spec l :
  l <> [] -> exists k a v, pytools.argmin2 l = Ok a /\ first_min l k a v.
Proof.
  destruct l as [| [a v] it]; [done | intros _].
  destruct (argmin2_from_spec it [(a, v)] 0 a v) as (k & v' & Hmin).
  - split_and!; [done | |].
    + intros [| j] b u; [intros [= <- <-]; apply Qle_refl | done].
    + intros j b u Hj. lia.
  - exists k, (pytools.argmin2_from it a v), v'. done.
Qed.

End Extremum.

(** ** The benchmarking scan *)

(** * Facts about floats *)

Section FloatFacts.

Local Open Scope Q_scope.

Lemma round_half_even_bounds (x : Q) :
  (Qfloor x <= round_half_even x <= Qfloor x + 1)%Z.
Proof.
  unfold round_half_even.
  destruct (Qcompare (x - inject_Z (Qfloor x)) (1 # 2));
    [destruct (Z.even (Qfloor x)) | |]; lia.
Qed.

Lemma round_half_even_le (x y : Q) :
  x <= y -> (round_half_even x <= round_half_even y)%Z.
Proof.
  intros Hxy.
  pose proof (Qfloor_resp_le x y Hxy) as Hfloor.
  pose proof (round_half_even_bounds x) as Hx.
  pose proof (round_half_even_bounds y) as Hy.
  destruct (Z.eq_dec (Qfloor x) (Qfloor y)) as [Heq | Hne]; [| lia].
  unfold round_half_even in *. rewrite <- Heq in *.
  destruct (Qcompare_spec (x - inject_Z (Qfloor x)) (1 # 2)) as [Hcx | Hcx | Hcx];
    destruct (Qcompare_spec (y - inject_Z (Qfloor x)) (1 # 2)) as [Hcy | Hcy | Hcy];
    try (destruct (Z.even (Qfloor x))); try lia; exfalso; lra.
Qed.

Lemma round_half_even_ge (x : Q) (n : Z) :
  inject_Z n <= x -> (n <= round_half_even x)%Z.
Proof.
  intros Hn. pose proof (round_half_even_bounds x) as Hx.
  pose proof (Qfloor_resp_le _ _ Hn) as Hfloor. rewrite Qfloor_Z in Hfloor. lia.
Qed.

Lemma round_half_even_lt (x : Q) (n : Z) :
  x < inject_Z n -> (round_half_even x <= n)%Z.
Proof.
  intros Hn. pose proof (round_half_even_bounds x) as Hx.
  assert (Qfloor x < n)%Z; [| lia].
  rewrite Zlt_Qlt. eapply Qle_lt_trans; [apply Qfloor_le | done].
Qed.

Lemma two_power_pos (z : Z) : 0 < 2 ^ z.
Proof. by apply Qpower_0_lt. Qed.

Lemma two_power_succ (z : Z) : 2 ^ (z + 1) == 2 * 2 ^ z.
Proof. rewrite Qpower_plus by done. rewrite Qpower_1_r. ring. Qed.

Lemma Qdiv_le_div (x y u v : Q) :
  0 < y -> 0 < v -> x * v <= u * y -> x / y <= u / v.
Proof.
  intros Hy Hv Hle. apply Qle_shift_div_l; [done |].
  assert (x / y * v == x * v / y) as -> by (field; lra).
  by apply Qle_shift_div_r.
Qed.

Lemma Qdiv_lt_div (x y u v : Q) :
  0 < y -> 0 < v -> x * v < u * y -> x / y < u / v.
Proof.
  intros Hy Hv Hlt. apply Qlt_shift_div_l; [done |].
  assert (x / y * v == x * v / y) as -> by (field; lra).
  by apply Qlt_shift_div_r.
Qed.

Lemma Qlog2_spec (q : Q) :
  0 < q -> 2 ^ Qlog2 q <= q /\ q < 2 ^ (Qlog2 q + 1).
Proof.
  intros Hq. destruct q as [n d].
  assert (0 < n)%Z as Hn by (unfold Qlt in Hq; simpl in Hq; lia).
  pose proof (Z.log2_spec n Hn) as [Hna Hnb].
  pose proof (Z.log2_spec (Z.pos d) ltac:(lia)) as [Hda Hdb].
  pose proof (Z.log2_nonneg n) as Ha0.
  pose proof (Z.log2_nonneg (Z.pos d)) as Hb0.
  unfold Qlog2. cbn [Qnum Qden].
  set (a := Z.log2 n) in *. set (b := Z.log2 (Z.pos d)) in *.
  rewrite <- Z.add_1_r in Hnb, Hdb.
  rewrite Zle_Qle in Hna, Hda. rewrite Zlt_Qlt in Hnb, Hdb.
  rewrite Zpower_Qpower in Hna, Hnb, Hda, Hdb by lia.
  change (inject_Z 2) with 2 in *.
  rewrite two_power_succ in Hnb, Hdb.
  pose proof (two_power_pos a) as Hpa. pose proof (two_power_pos b) as Hpb.
  assert (n # d == inject_Z n / inject_Z (Z.pos d)) as Hdiv by apply Qmake_Qdiv.
  assert (0 < inject_Z (Z.pos d)) as Hdpos by (rewrite <- (Zlt_Qlt 0); lia).
  assert (2 ^ (a - b) == 2 ^ a / 2 ^ b) as Hpow by (by apply Qpower_minus).
  assert (2 ^ (a - b - 1) <= n # d) as Hlow.
  { assert (2 ^ (a - b - 1) == 2 ^ a / (2 * 2 ^ b)) as ->.
    { rewrite Qpower_minus by done. rewrite Hpow, Qpower_1_r. field. lra. }
    rewrite Hdiv. apply Qdiv_le_div; [lra | done | nra]. }
  assert (n # d < 2 ^ (a - b + 1)) as Hhigh.
  { assert (2 ^ (a - b + 1) == 2 * 2 ^ a / 2 ^ b) as ->.
    { rewrite two_power_succ, Hpow. field. lra. }
    rewrite Hdiv. apply Qdiv_lt_div; [done | done | nra]. }
  set (e := (a - b)%Z) in *.
  destruct (Qle_bool (2 ^ e) (n # d)) eqn:Htest.
  - apply Qle_bool_iff in Htest. split; [exact Htest | exact Hhigh].
  - split; [exact Hlow |].
    replace (e - 1 + 1)%Z with e by lia.
    apply Qnot_le_lt. intros Hle. apply Qle_bool_iff in Hle. congruence.
Qed.

Lemma float_pos_nonneg (a : Q) : 0 < a -> 0 <= float_pos a.
Proof.
  intros Ha. unfold float_pos.
  set (u := (Z.max (Qlog2 a) (-1022) - 52)%Z).
  pose proof (two_power_pos u) as Hu.
  apply Qmult_le_0_compat; [| lra].
  rewrite <- (Zle_Qle 0). apply round_half_even_ge.
  apply Qle_shift_div_l; [done |]. change (inject_Z 0) with 0. lra.
Qed.

Lemma float_pos_le (a b : Q) : 0 < a -> a <= b -> float_pos a <= float_pos b.
Proof.
  intros Ha Hab. assert (0 < b) as Hb by lra.
  destruct (Qlog2_spec a Ha) as [Hla Hua].
  destruct (Qlog2_spec b Hb) as [Hlb Hub].
  assert (Qlog2 a <= Qlog2 b)%Z as He.
  { assert (Qlog2 a < Qlog2 b + 1)%Z; [| lia].
    apply (Qpower_lt_compat_l_inv 2); [lra | done]. }
  unfold float_pos.
  set (ka := Z.max (Qlog2 a) (-1022)). set (kb := Z.max (Qlog2 b) (-1022)).
  pose proof (two_power_pos (ka - 52)) as Hpa.
  pose proof (two_power_pos (kb - 52)) as Hpb.
  destruct (Z.eq_dec ka kb) as [Heq | Hne].
  - rewrite Heq. apply Qmult_le_compat_r; [| lra].
    rewrite <- Zle_Qle. apply round_half_even_le.
    apply Qmult_le_compat_r; [done |]. apply Qlt_le_weak, Qinv_lt_0_compat. done.
  - assert (ka + 1 <= kb)%Z as Hk by lia.
    assert (kb = Qlog2 b) as Hkb by lia.
    apply Qle_trans with (2 ^ (ka + 1)).
    + assert (2 ^ (ka + 1) == inject_Z (2 ^ 53) * 2 ^ (ka - 52)) as ->.
      { rewrite Zpower_Qpower by lia. change (inject_Z 2) with 2.
        rewrite <- Qpower_plus by done. by replace (53 + (ka - 52))%Z with (ka + 1)%Z by lia. }
      apply Qmult_le_compat_r; [| lra].
      rewrite <- Zle_Qle. apply round_half_even_lt.
      apply Qlt_shift_div_r; [done |].
      rewrite Zpower_Qpower by lia. change (inject_Z 2) with 2.
      rewrite <- Qpower_plus by done.
      replace (53 + (ka - 52))%Z with (ka + 1)%Z by lia.
      eapply Qlt_le_trans; [exact Hua |].
      apply Qpower_le_compat_l; [lia | lra].
    + apply Qle_trans with (2 ^ kb); [apply Qpower_le_compat_l; [lia | lra] |].
      assert (2 ^ kb == inject_Z (2 ^ 52) * 2 ^ (kb - 52)) as ->.
      { rewrite Zpower_Qpower by lia. change (inject_Z 2) with 2.
        rewrite <- Qpower_plus by done. by replace (52 + (kb - 52))%Z with kb by lia. }
      apply Qmult_le_compat_r; [| lra].
      rewrite <- Zle_Qle. apply round_half_even_ge.
      apply Qle_shift_div_l; [done |].
      rewrite Zpower_Qpower by lia. change (inject_Z 2) with 2.
      rewrite <- Qpower_plus by done.
      replace (52 + (kb - 52))%Z with kb by lia. by rewrite Hkb.
Qed.

Lemma Qnum_sign (q : Q) :
  match Qnum q with
  | Z0 => q == 0
  | Zpos _ => 0 < q
  | Zneg _ => q < 0
  end.
Proof. destruct q as [[| n | n] d]; unfold Qeq, Qlt; simpl; lia. Qed.

(** The value of [float], by the sign of its argument. *)
Lemma float_cases (x : Q) :
  (x == 0 /\ float x == 0) \/
  (0 < x /\ float x == float_pos (Qred x)) \/
  (x < 0 /\ float x == - float_pos (- Qred x)).
Proof.
  unfold float. pose proof (Qnum_sign (Qred x)) as Hsign.
  pose proof (Qred_correct x) as Hred.
  destruct (Qnum (Qred x)).
  - left. split; [by rewrite <- Hred | done].
  - right. left. split; [by rewrite <- Hred | apply Qred_correct].
  - right. right. split; [by rewrite <- Hred | apply Qred_correct].
Qed.

(** Rounding keeps the order. *)
Lemma float_le (x y : Q) : x <= y -> float x <= float y.
Proof.
  intros Hxy.
  pose proof (Qred_correct x) as Hrx. pose proof (Qred_correct y) as Hry.
  destruct (float_cases x) as [[Hx ->] | [[Hx ->] | [Hx ->]]];
    destruct (float_cases y) as [[Hy ->] | [[Hy ->] | [Hy ->]]];
    try lra.
  - apply float_pos_nonneg. lra.
  - apply float_pos_le; lra.
  - assert (0 <= float_pos (- Qred x)) by (apply float_pos_nonneg; lra). lra.
  - assert (0 <= float_pos (- Qred x)) by (apply float_pos_nonneg; lra).
    assert (0 <= float_pos (Qred y)) by (apply float_pos_nonneg; lra). lra.
  - assert (float_pos (- Qred y) <= float_pos (- Qred x))
      by (apply float_pos_le; lra).
    lra.
Qed.

End FloatFacts.

(** Equal numbers have the same nearest double. *)
Lemma float_proper (x y : Q) : (x == y)%Q -> float x = float y.
Proof. intros Heq. unfold float. by rewrite (Qred_complete x y Heq). Qed.

Section OptimizePlanFacts.

Context {plan : Type} `{ExecutionPlan plan}.
Variable OccupancyRecord : Z -> Z -> Z -> string + Q.
Context {World : Type}.

Local Abbreviation valid p := (invalid_reason OccupancyRecord p = None).
Local Abbreviation occ := (occupancy_of OccupancyRecord).
Local Abbreviation rec_of := (recorded (plan := plan)).

Implicit Types (p : plan) (plans : list plan) (st : @scan_state plan World)
  (target_func : plan -> World -> bench_result * World).

Lemma valid_occupancy p :
  valid p -> occupancy OccupancyRecord p = Ok (occ p).
Proof.
  unfold invalid_reason, occupancy, occupancy_of.
  by destruct (occupancy_record OccupancyRecord p).
Qed.

Lemma valid_plans_valid plan_generator :
  Forall (fun p => valid p) (valid_plans OccupancyRecord plan_generator).
Proof. apply Forall_forall. intros p [Hp _]%list_elem_of_filter. done. Qed.

Lemma mapM_occupancy plans :
  Forall (fun p => valid p) plans ->
  mapM (occupancy OccupancyRecord) plans = Ok (map occ plans).
Proof.
  induction 1 as [| p plans Hp _ IH]; [done |].
  simpl. rewrite (valid_occupancy p Hp), IH. done.
Qed.

Lemma mapM_plan_occupancy plans :
  Forall (fun p => valid p) plans ->
  mapM (fun p => o ← occupancy OccupancyRecord p; Ok (p, o)) plans
  = Ok (map (fun p => (p, occ p)) plans).
Proof.
  induction 1 as [| p plans Hp _ IH]; [done |].
  simpl. rewrite (valid_occupancy p Hp), IH. done.
Qed.

(** [max] over the occupancies is a maximum. *)
Lemma fold_max_spec plans : forall (seen : list plan) (m : Q),
  is_max_occupancy OccupancyRecord m seen ->
  is_max_occupancy OccupancyRecord
    (fold_left (fun m y => if Qlt_bool m y then y else m) (map occ plans) m)
    (seen ++ plans).
Proof.
  induction plans as [| p plans IH]; intros seen m Hm; simpl.
  - by rewrite app_nil_r.
  - replace (seen ++ p :: plans) with ((seen ++ [p]) ++ plans)
      by (by rewrite <- app_assoc).
    apply IH. destruct Hm as [(q & Hq & Hqm) Hall].
    destruct (Qlt_bool m (occ p)) eqn:Hcmp.
    + apply Qlt_bool_iff in Hcmp. split.
      * exists p. split; [set_solver | reflexivity].
      * intros q' [Hq' | ->%list_elem_of_singleton]%elem_of_app.
        -- apply Qlt_le_weak. eapply Qle_lt_trans; eauto.
        -- apply Qle_refl.
    + apply Qlt_bool_false_iff in Hcmp. split.
      * exists q. split; [set_solver | done].
      * intros q' [Hq' | ->%list_elem_of_singleton]%elem_of_app; eauto.
Qed.

Lemma py_max_spec plans :
  plans <> [] ->
  exists m, py_max (map occ plans) = Ok m /\
            is_max_occupancy OccupancyRecord m plans.
Proof.
  destruct plans as [| p plans]; [done | intros _]. simpl. eexists. split; [done |].
  apply (fold_max_spec plans [p]). split.
  - exists p. split; [set_solver | reflexivity].
  - intros q ->%list_elem_of_singleton. apply Qle_refl.
Qed.

(** Two maxima of the same plans give the same threshold. *)
Lemma is_max_occupancy_unique (m m' : Q) plans :
  is_max_occupancy OccupancyRecord m plans ->
  is_max_occupancy OccupancyRecord m' plans -> (m == m')%Q.
Proof.
  intros [(p & Hp & Hpm) Hall] [(p' & Hp' & Hpm') Hall'].
  apply Qle_antisym.
  - rewrite <- Hpm. eauto.
  - rewrite <- Hpm'. eauto.
Qed.

Lemma desired_occupancy_max (slack m m' : Q) :
  (m == m')%Q -> desired_occupancy slack m = desired_occupancy slack m'.
Proof.
  intros Hm. unfold desired_occupancy. apply float_proper. by rewrite Hm.
Qed.

Lemma within_slack_iff (d : Q) p :
  within_slack OccupancyRecord d p <-> (threshold d <= occ p)%Q.
Proof. unfold within_slack. by rewrite Is_true_true, Qle_bool_iff. Qed.

Lemma recorded_snoc (cs : list (@call plan)) p (r : bench_result) :
  rec_of (cs ++ [(p, r)])
  = rec_of cs ++ match bench_value r with Some v => [(p, v)] | None => [] end.
Proof.
  unfold recorded. rewrite omap_app. f_equal. simpl.
  by destruct (bench_value r).
Qed.

Lemma numbered_snoc (pairs : list (plan * Q)) p (v : Q) :
  numbered (pairs ++ [(p, v)]) = numbered pairs ++ [((length pairs, p), v)].
Proof.
  unfold numbered. rewrite imap_app. simpl. by rewrite Nat.add_0_r.
Qed.

Lemma numbered_length (pairs : list (plan * Q)) :
  length (numbered pairs) = length pairs.
Proof. apply length_imap. Qed.

Lemma numbered_lookup (pairs : list (plan * Q)) (j : nat) :
  numbered pairs !! j = (fun pc => ((j, pc.1), pc.2)) <$> pairs !! j.
Proof. apply list_lookup_imap. Qed.

(** The plans of a sequence of invocations are the plans invoked. *)
Lemma benchmark_all_plans target_func plans : forall (w : World),
  (benchmark_all target_func plans w).1.*1 = plans.
Proof.
  induction plans as [| p plans IH]; intros w; [done |]. simpl.
  destruct (target_func p w) as [r w'].
  specialize (IH w'). destruct (benchmark_all target_func plans w') as [cs w''].
  simpl in *. by f_equal.
Qed.

Lemma benchmark_all_cons target_func p plans (w w' : World) (r : bench_result) :
  target_func p w = (r, w') ->
  benchmark_all target_func (p :: plans) w
  = ((p, r) :: (benchmark_all target_func plans w').1,
     (benchmark_all target_func plans w').2).
Proof.
  intros Hcall. simpl. rewrite Hcall.
  by destruct (benchmark_all target_func plans w').
Qed.

(** What the loop does: it invokes the benchmark, in order, on the valid
    plans that pass the test of line 113, and it stops early only on an
    error of the log. *)
Lemma scan_spec target_func (logging : bool) (d : Q) plans : forall st,
  Forall (fun p => valid p) plans ->
  exists r st' ran rest,
    scan OccupancyRecord target_func logging d plans st = (r, st') /\
    filter (fun p => within_slack OccupancyRecord d p) plans = ran ++ rest /\
    calls st' = calls st ++ (benchmark_all target_func ran (world st)).1 /\
    world st' = (benchmark_all target_func ran (world st)).2 /\
    (consistent st -> consistent st') /\
    (r = Ok tt -> rest = []) /\
    (logging = false -> r = Ok tt).
Proof.
  induction plans as [| p plans IH]; intros st Hvalid.
  - exists (Ok tt), st, [], []. simpl. by rewrite app_nil_r.
  - apply Forall_cons in Hvalid as [Hp Hvalid]. simpl.
    unfold scan_step. rewrite (valid_occupancy p Hp).
    fold (within_slack OccupancyRecord d p).
    destruct (within_slack OccupancyRecord d p) eqn:Hin.
    + rewrite filter_cons_True by (by rewrite Hin).
      destruct (target_func p (world st)) as [res w] eqn:Hcall.
      set (st1 := {| world := w; calls := calls st ++ [(p, res)];
                     plan_values :=
                       match bench_value res with
                       | Some value =>
                           plan_values st
                           ++ [((length (plan_values st), p), value)]
                       | None => plan_values st
                       end |}).
      assert (consistent st -> consistent st1) as Hcons1.
      { unfold consistent, st1. simpl. intros Hst.
        rewrite recorded_snoc. destruct (bench_value res) as [v |].
        - rewrite numbered_snoc, Hst, numbered_length. done.
        - by rewrite app_nil_r. }
      assert (forall r st' ran rest,
                scan OccupancyRecord target_func logging d plans st1 = (r, st') ->
                filter (fun p => within_slack OccupancyRecord d p) plans
                = ran ++ rest ->
                calls st' = calls st1
                            ++ (benchmark_all target_func ran (world st1)).1 ->
                world st' = (benchmark_all target_func ran (world st1)).2 ->
                p :: filter (fun p => within_slack OccupancyRecord d p) plans
                = (p :: ran) ++ rest /\
                calls st' = calls st
                            ++ (benchmark_all target_func (p :: ran) (world st)).1 /\
                world st' = (benchmark_all target_func (p :: ran) (world st)).2)
        as Hgo.
      { intros r st' ran rest _ Hfilter Hcalls Hworld.
        rewrite (benchmark_all_cons _ _ _ _ _ _ Hcall). simpl.
        rewrite Hfilter, Hcalls, Hworld. simpl.
        by rewrite <- app_assoc. }
      destruct (bench_value res) as [value |] eqn:Hvalue.
      * destruct logging.
        -- destruct (log_row p res value) as [row | e] eqn:Hrow; simpl.
           ++ destruct (IH st1 Hvalid)
                as (r & st' & ran & rest & Hscan & Hfilter & Hcalls & Hworld
                    & Hcons & Hok & Hoff).
              fold st1. rewrite Hscan.
              exists r, st', (p :: ran), rest.
              destruct (Hgo _ _ _ _ Hscan Hfilter Hcalls Hworld) as (? & ? & ?).
              split_and!; [done | done | done | done | by auto | done | done].
           ++ exists (Raise e), st1, [p], (filter (fun p => within_slack OccupancyRecord d p) plans).
              fold st1. rewrite (benchmark_all_cons _ _ [] _ _ _ Hcall).
              split_and!; [done | done | done | done | done | done | done].
        -- destruct (IH st1 Hvalid)
             as (r & st' & ran & rest & Hscan & Hfilter & Hcalls & Hworld
                 & Hcons & Hok & Hoff).
           fold st1. rewrite Hscan.
           exists r, st', (p :: ran), rest.
           destruct (Hgo _ _ _ _ Hscan Hfilter Hcalls Hworld) as (? & ? & ?).
           split_and!; [done | done | done | done | by auto | done | done].
      * destruct (IH st1 Hvalid)
          as (r & st' & ran & rest & Hscan & Hfilter & Hcalls & Hworld
              & Hcons & Hok & Hoff).
        fold st1. rewrite Hscan.
        exists r, st', (p :: ran), rest.
        destruct (Hgo _ _ _ _ Hscan Hfilter Hcalls Hworld) as (? & ? & ?).
        split_and!; [done | done | done | done | by auto | done | done].
    + rewrite filter_cons_False by (rewrite Hin; exact id).
      destruct (IH st Hvalid)
        as (r & st' & ran & rest & Hscan & Hfilter & Hcalls & Hworld
            & Hcons & Hok & Hoff).
      rewrite Hscan. exists r, st', ran, rest. done.
Qed.

Lemma log_file_off (debug_flags : gset string) (log_filename : option string) :
  "cuda_plan_log" ∉ debug_flags \/ log_filename = None ->
  log_file debug_flags log_filename = None.
Proof.
  unfold log_file. intros [Hflag | ->].
  - by rewrite bool_decide_eq_false_2.
  - by destruct (bool_decide _).
Qed.

(** What [optimize_plan] comes to when it searches: the benchmark is invoked
    on [ran], a first part of the plans within the slack; what is returned
    was selected from the pairs recorded on all of them; without a log
    nothing else can happen. *)
Lemma optimize_plan_search opt_name plan_generator target_func
    (maximize : bool) (debug_flags : gset string) (occupancy_slack : Q)
    (log_filename : option string) (w : World) :
  no_plan opt_name debug_flags = false ->
  valid_plans OccupancyRecord plan_generator <> [] ->
  let r := optimize_plan OccupancyRecord opt_name plan_generator target_func
             maximize debug_flags occupancy_slack log_filename w in
  exists (m : Q) ran rest,
    is_max_occupancy OccupancyRecord m
      (valid_plans OccupancyRecord plan_generator) /\
    filter (fun p => within_slack OccupancyRecord
                       (desired_occupancy occupancy_slack m) p)
      (valid_plans OccupancyRecord plan_generator) = ran ++ rest /\
    trace r = (benchmark_all target_func ran w).1 /\
    final r = (benchmark_all target_func ran w).2 /\
    (forall pc, result r = Ok pc ->
       rest = [] /\ select maximize (numbered (rec_of (trace r))) = Ok pc) /\
    (log_file debug_flags log_filename = None ->
       rest = [] /\ result r = select maximize (numbered (rec_of (trace r)))).
Proof.
  intros Hflag Hplans r. subst r. unfold optimize_plan. rewrite Hflag.
  pose proof (valid_plans_valid plan_generator) as Hvalid.
  destruct (valid_plans OccupancyRecord plan_generator) as [| p plans] eqn:Heq;
    [done |].
  rewrite (mapM_occupancy _ Hvalid).
  destruct (py_max_spec (p :: plans)) as (m & -> & Hm); [done |].
  exists m.
  destruct (open_log (log_file debug_flags log_filename) (p :: plans))
    as [feature_names | e] eqn:Hlog.
  - destruct (scan_spec target_func (bool_decide (is_Some feature_names))
                (desired_occupancy occupancy_slack m) (p :: plans)
                {| world := w; calls := []; plan_values := [] |} Hvalid)
      as (r & st & ran & rest & -> & Hfilter & Hcalls & Hworld & Hcons & Hok & Hoff).
    simpl in Hcalls, Hworld. exists ran, rest. simpl.
    assert (plan_values st = numbered (rec_of (calls st))) as Hpv
      by (by apply Hcons).
    split_and!; [done | done | done | done | |].
    + intros pc Hres. destruct r as [[] | e]; [| done]. simpl in Hres.
      rewrite <- Hpv. split; [by apply Hok | done].
    + intros Hnone. rewrite Hnone in Hlog. injection Hlog as <-.
      rewrite Hoff by done. simpl. rewrite <- Hpv. split; [by apply Hok; apply Hoff | done].
  - exists [], (filter (fun p0 => within_slack OccupancyRecord
                                   (desired_occupancy occupancy_slack m) p0)
                  (p :: plans)).
    simpl. split_and!; [done | done | done | done | done |].
    intros Hnone. by rewrite Hnone in Hlog.
Qed.

Lemma optimize_plan_nil opt_name plan_generator target_func
    (maximize : bool) (debug_flags : gset string) (occupancy_slack : Q)
    (log_filename : option string) (w : World) :
  valid_plans OccupancyRecord plan_generator = [] ->
  optimize_plan OccupancyRecord opt_name plan_generator target_func maximize
    debug_flags occupancy_slack log_filename w
  = {| result := Raise (RuntimeError "no valid CUDA execution plans found");
       final := w; trace := [] |}.
Proof. intros Hnil. unfold optimize_plan. by rewrite Hnil. Qed.

(** With a no-plan flag nothing is benchmarked. *)
Lemma optimize_plan_no_plan_trace opt_name plan_generator target_func
    (maximize : bool) (debug_flags : gset string) (occupancy_slack : Q)
    (log_filename : option string) (w : World) :
  no_plan opt_name debug_flags = true ->
  let r := optimize_plan OccupancyRecord opt_name plan_generator target_func
             maximize debug_flags occupancy_slack log_filename w in
  trace r = [] /\ final r = w.
Proof.
  intros Hflag. unfold optimize_plan. rewrite Hflag.
  by destruct (valid_plans OccupancyRecord plan_generator).
Qed.

Lemma elem_of_recorded (cs : list (@call plan)) p (c : Q) :
  (p, c) ∈ rec_of cs <-> exists res, (p, res) ∈ cs /\ bench_value res = Some c.
Proof.
  unfold recorded. rewrite list_elem_of_omap. split.
  - intros ([q res] & Hin & Hsome). simpl in Hsome.
    destruct (bench_value res) as [v |] eqn:Hv; [| done].
    simpl in Hsome. injection Hsome as -> ->. eauto.
  - intros (res & Hin & Hv). exists (p, res). split; [done |].
    simpl. by rewrite Hv.
Qed.

(** On an empty list lines 144-148 do not return, whatever the helper
    does: it raises, or the list has nothing at the index it gives. *)
Lemma select_with_empty
    (arg_extremum : list ((nat * plan) * Q) -> except (nat * plan)) :
  exists e, select_with arg_extremum [] = Raise e.
Proof.
  unfold select_with. destruct (arg_extremum []) as [[n p] | e]; simpl; eauto.
Qed.

(** The selection of lines 142-148 on a numbered list of pairs. *)
Lemma select_numbered (maximize : bool) (pairs : list (plan * Q)) :
  pairs <> [] ->
  exists k p c,
    select maximize (numbered pairs) = Ok (p, c) /\
    if maximize then first_max pairs k p c else first_min pairs k p c.
Proof.
  intros Hne.
  assert (numbered pairs <> []) as Hne'.
  { intros Hnil. apply (f_equal length) in Hnil.
    rewrite numbered_length in Hnil. by destruct pairs. }
  unfold select, select_with. destruct maximize.
  - destruct (argmax2_spec (numbered pairs) Hne')
      as (k & [n p] & v & -> & Hk & Hall & Hbefore).
    rewrite numbered_lookup in Hk.
    destruct (pairs !! k) as [[p' c] |] eqn:Hpk; [| done].
    simpl in Hk. injection Hk as <- -> ->.
    exists k, p, v. simpl. rewrite numbered_lookup, Hpk. simpl.
    split; [done |]. split_and!; [done | |].
    + intros j q d Hj. apply (Hall j (j, q) d).
      by rewrite numbered_lookup, Hj.
    + intros j q d Hjk Hj. apply (Hbefore j (j, q) d Hjk).
      by rewrite numbered_lookup, Hj.
  - destruct (argmin2_spec (numbered pairs) Hne')
      as (k & [n p] & v & -> & Hk & Hall & Hbefore).
    rewrite numbered_lookup in Hk.
    destruct (pairs !! k) as [[p' c] |] eqn:Hpk; [| done].
    simpl in Hk. injection Hk as <- -> ->.
    exists k, p, v. simpl. rewrite numbered_lookup, Hpk. simpl.
    split; [done |]. split_and!; [done | |].
    + intros j q d Hj. apply (Hall j (j, q) d).
      by rewrite numbered_lookup, Hj.
    + intros j q d Hjk Hj. apply (Hbefore j (j, q) d Hjk).
      by rewrite numbered_lookup, Hj.
Qed.

(** A selection that succeeds has picked the first extremum. *)
Lemma select_numbered_Ok (maximize : bool) (pairs : list (plan * Q)) p (c : Q) :
  select maximize (numbered pairs) = Ok (p, c) ->
  exists k, if maximize then first_max pairs k p c else first_min pairs k p c.
Proof.
  intros Hsel. destruct (decide (pairs = [])) as [-> | Hne].
  { by destruct maximize. }
  destruct (select_numbered maximize pairs Hne) as (k & p' & c' & Hsel' & Hext).
  rewrite Hsel in Hsel'. injection Hsel' as <- <-. eauto.
Qed.

(** ** The claims about [optimize_plan] *)

(** C4.  When every plan the generator produces has a reason to be invalid,
    or it produces none, [optimize_plan] raises the [RuntimeError] "no valid
    CUDA execution plans found": it returns no plan, whatever the debug
    flags and the log, and the benchmark is never invoked. *)
Theorem optimize_plan_no_valid_plan opt_name plan_generator target_func
    (maximize : bool) (debug_flags : gset string) (occupancy_slack : Q)
    (log_filename : option string) (w : World) :
  (forall p, p ∈ plan_generator tt -> invalid_reason OccupancyRecord p <> None) ->
  optimize_plan OccupancyRecord opt_name plan_generator target_func maximize
    debug_flags occupancy_slack log_filename w
  = {| result := Raise (RuntimeError "no valid CUDA execution plans found");
       final := w; trace := [] |}.
Proof.
  intros Hall. apply optimize_plan_nil. apply elem_of_nil_inv.
  intros p [Hp Hin]%list_elem_of_filter. by apply (Hall p).
Qed.

(** C3, amended.  Outside the no-plan short-circuit and without a log, the
    benchmark is invoked, in order and each time in the state that the
    invocation before it left, on exactly the valid plans whose occupancy
    is at least the threshold as line 113 computes it on floats,
    [float (float (occupancy_slack * max_occup) - float 1e-10)], [max_occup]
    being the maximum occupancy over the valid plans: no plan below that
    threshold is benchmarked and every valid plan at or above it is. *)
Theorem benchmark_only_within_slack opt_name plan_generator target_func
    (maximize : bool) (debug_flags : gset string) (occupancy_slack : Q)
    (log_filename : option string) (w : World) (max_occup : Q) :
  no_plan opt_name debug_flags = false ->
  "cuda_plan_log" ∉ debug_flags \/ log_filename = None ->
  is_max_occupancy OccupancyRecord max_occup
    (valid_plans OccupancyRecord plan_generator) ->
  let r := optimize_plan OccupancyRecord opt_name plan_generator target_func
             maximize debug_flags occupancy_slack log_filename w in
  let limit := float (float (occupancy_slack * max_occup) - float 1e-10) in
  (trace r, final r)
  = benchmark_all target_func
      (filter (fun p => Qle_bool limit (occ p))
         (valid_plans OccupancyRecord plan_generator)) w /\
  (forall p res, (p, res) ∈ trace r -> (limit <= occ p)%Q) /\
  (forall p, p ∈ valid_plans OccupancyRecord plan_generator ->
     (limit <= occ p)%Q -> exists res, (p, res) ∈ trace r).
Proof.
  intros Hflag Hlog%log_file_off Hmax r limit.
  assert (valid_plans OccupancyRecord plan_generator <> []) as Hne.
  { destruct Hmax as [(p & Hp & _) _]. intros Hnil. rewrite Hnil in Hp.
    by apply elem_of_nil in Hp. }
  destruct (optimize_plan_search opt_name plan_generator target_func maximize
              debug_flags occupancy_slack log_filename w Hflag Hne)
    as (m & ran & rest & Hm & Hfilter & Htrace & Hfinal & _ & Hoff).
  destruct (Hoff Hlog) as [-> _]. rewrite app_nil_r in Hfilter.
  rewrite (desired_occupancy_max occupancy_slack m max_occup
             (is_max_occupancy_unique _ _ _ Hm Hmax)) in Hfilter.
  fold r in Htrace, Hfinal.
  change (filter (fun p => Qle_bool limit (occ p))
            (valid_plans OccupancyRecord plan_generator) = ran) in Hfilter.
  assert ((trace r).*1 = ran) as Hplans
    by (rewrite Htrace; apply benchmark_all_plans).
  split_and!.
  - rewrite Hfilter, Htrace, Hfinal. by destruct (benchmark_all target_func ran w).
  - intros p res Hin. apply (list_elem_of_fmap_2 fst) in Hin.
    rewrite Hplans, <- Hfilter in Hin. apply list_elem_of_filter in Hin as [Hp _].
    by apply Is_true_true, Qle_bool_iff in Hp.
  - intros p Hp Hle.
    assert (p ∈ (trace r).*1) as Hin.
    { rewrite Hplans, <- Hfilter. apply list_elem_of_filter. split; [| done].
      by apply Is_true_true, Qle_bool_iff. }
    apply list_elem_of_fmap in Hin as ([q res] & -> & Hin). eauto.
Qed.


(** C10, amended.  Outside the no-plan short-circuit, when some plan is
    valid but every invocation of the benchmark gives [None] (or a tuple
    that starts with [None]), nothing is recorded and [optimize_plan] does
    not return; without a log it ends in the [ValueError] of the extremum
    of an empty sequence. *)
Theorem optimize_plan_all_declined opt_name plan_generator target_func
    (maximize : bool) (debug_flags : gset string) (occupancy_slack : Q)
    (log_filename : option string) (w : World) :
  no_plan opt_name debug_flags = false ->
  valid_plans OccupancyRecord plan_generator <> [] ->
  let r := optimize_plan OccupancyRecord opt_name plan_generator target_func
             maximize debug_flags occupancy_slack log_filename w in
  (forall c, c ∈ trace r -> bench_value c.2 = None) ->
  (forall pc, result r <> Ok pc) /\
  ("cuda_plan_log" ∉ debug_flags \/ log_filename = None ->
   result r
   = Raise (ValueError (if maximize then "argmax of empty iterable"
                        else "argmin of empty iterable"))).
Proof.
  intros Hflag Hplans r Hnone.
  destruct (optimize_plan_search opt_name plan_generator target_func maximize
              debug_flags occupancy_slack log_filename w Hflag Hplans)
    as (m & ran & rest & _ & _ & _ & _ & Hreturned & Hoff).
  fold r in Hreturned, Hoff.
  assert (rec_of (trace r) = []) as Hrec.
  { apply elem_of_nil_inv. intros [p c] (res & Hin & Hv)%elem_of_recorded.
    specialize (Hnone _ Hin). simpl in Hnone. congruence. }
  rewrite Hrec in Hreturned, Hoff. split.
  - intros pc [_ Hsel]%Hreturned. by destruct maximize.
  - intros [_ ->]%log_file_off%Hoff. by destruct maximize.
Qed.


End OptimizePlanFacts.

(** ** [optimize_plan] on the small devices *)



Lemma optimize_plan_no_valid_plan_witness :
  optimize_plan Fixture.toy_occupancy "diff" (fun _ => [Fixture.oversized])
    (Fixture.timed Fixture.three_costs) false ∅ 0.5 None 0%nat
  = {| result := Raise (RuntimeError "no valid CUDA execution plans found");
       final := 0%nat; trace := [] |}.
Proof.
  apply (optimize_plan_no_valid_plan Fixture.toy_occupancy "diff"
           (fun _ => [Fixture.oversized])).
  intros p Hp. apply list_elem_of_singleton in Hp. rewrite Hp. discriminate.
Defined.

Lemma toy_max_occupancy :
  is_max_occupancy Fixture.toy_occupancy 1
    (valid_plans Fixture.toy_occupancy Fixture.all_plans).
Proof.
  assert (valid_plans Fixture.toy_occupancy Fixture.all_plans
          = [Fixture.full; Fixture.nine; Fixture.one]) as -> by reflexivity.
  split.
  - exists Fixture.full. split; [set_solver | reflexivity].
  - intros p Hp. repeat (apply elem_of_cons in Hp as [-> | Hp]);
      [vm_compute; discriminate .. | by apply elem_of_nil in Hp].
Defined.

(** The fixture of the spec: occupancies 1.0, 0.9 and 0.1 with slack 0.5.
    The first two plans are benchmarked, one after the other. *)
Lemma benchmark_only_within_slack_witness :
  (trace (optimize_plan Fixture.toy_occupancy "diff" Fixture.all_plans
            (Fixture.timed Fixture.three_costs) true ∅ 0.5 None 0%nat),
   final (optimize_plan Fixture.toy_occupancy "diff" Fixture.all_plans
            (Fixture.timed Fixture.three_costs) true ∅ 0.5 None 0%nat))
  = ([(Fixture.full, BScalar 3); (Fixture.nine, BTuple (Some 7%Q) [42%Q])],
     2%nat).
Proof.
  destruct (benchmark_only_within_slack Fixture.toy_occupancy "diff"
              Fixture.all_plans (Fixture.timed Fixture.three_costs) true ∅ 0.5
              None 0%nat 1) as [Htrace _];
    [reflexivity | by right | exact toy_max_occupancy |].
  rewrite Htrace. reflexivity.
Defined.

(** C3 as stated fails.  First run: two valid plans of occupancies 1 and
    1/2 and a slack just above a half.  The exact threshold
    [slack * 1 - 1e-10] is above 1/2, but the difference computed on floats
    is 1/2, and the plan of occupancy 1/2 is benchmarked.  Second run: with
    the log on the [TypeError] ends the scan after the first plan, and the
    plan of occupancy 0.9, which is above the threshold, is not
    benchmarked. *)
Lemma benchmark_is_not_bounded_by_the_exact_threshold :
  (is_max_occupancy Fixture.two_slots 1
     (valid_plans Fixture.two_slots Fixture.two_plans) /\
   (occupancy_of Fixture.two_slots Fixture.one_slot
    < Fixture.slack_above_half * 1 - 1e-10)%Q /\
   (trace (optimize_plan Fixture.two_slots "diff" Fixture.two_plans
             (Fixture.timed Fixture.three_costs) false ∅
             Fixture.slack_above_half None 0%nat)).*1
   = [Fixture.both_slots; Fixture.one_slot]) /\
  ((0.5 * 1 - 1e-10 <= occupancy_of Fixture.toy_occupancy Fixture.nine)%Q /\
   (trace (optimize_plan Fixture.toy_occupancy "diff" Fixture.all_plans
             (Fixture.timed Fixture.three_costs) false {[ "cuda_plan_log" ]}
             0.5 (Some "diff-3") 0%nat)).*1
   = [Fixture.full]).
Proof.
  split_and!.
  - split.
    + exists Fixture.both_slots. split; [apply list_elem_of_here | reflexivity].
    + intros p Hp. vm_compute in Hp.
      repeat (apply elem_of_cons in Hp as [-> | Hp]);
        [vm_compute; discriminate .. | by apply elem_of_nil in Hp].
  - reflexivity.
  - reflexivity.
  - vm_compute. discriminate.
  - reflexivity.
Qed.



Lemma optimize_plan_all_declined_witness :
  result (optimize_plan Fixture.toy_occupancy "diff" Fixture.all_plans
            (Fixture.timed Fixture.declines) false ∅ 0.5 None 0%nat)
  = Raise (ValueError "argmin of empty iterable").
Proof.
  destruct (optimize_plan_all_declined Fixture.toy_occupancy "diff"
              Fixture.all_plans (Fixture.timed Fixture.declines) false ∅ 0.5
              None 0%nat) as [_ Hraises].
  - reflexivity.
  - vm_compute. discriminate.
  - intros c Hc. vm_compute in Hc.
    repeat (apply elem_of_cons in Hc as [-> | Hc]);
      [reflexivity .. | by apply elem_of_nil in Hc].
  - apply Hraises. by right.
Defined.

(** C10 as stated fails: with the flag [cuda_no_plan] there is a valid plan,
    the benchmark, which would give [None] for every plan, is never invoked,
    and [optimize_plan] returns the plan of maximal occupancy with cost 0. *)
Lemma optimize_plan_all_declined_may_return :
  let r := optimize_plan Fixture.toy_occupancy "diff" Fixture.all_plans
             (Fixture.timed Fixture.declines) false {[ "cuda_no_plan" ]} 0.5
             None 0%nat in
  valid_plans Fixture.toy_occupancy Fixture.all_plans <> [] /\
  (forall p n, bench_value (Fixture.timed Fixture.declines p n).1 = None) /\
  (forall c, c ∈ trace r -> bench_value c.2 = None) /\
  recorded (trace r) = [] /\
  result r = Ok (Fixture.full, 0%Q).
Proof.
  split_and!; [vm_compute; discriminate | done | | reflexivity | reflexivity].
  intros c Hc. vm_compute in Hc. by apply elem_of_nil in Hc.
Qed.

(** * Facts about the microblock *)

Section Microblock.

Variables align dofs : Z.
Hypothesis align_pos : (0 < align)%Z.
Hypothesis dofs_pos : (0 < dofs)%Z.

Local Abbreviation fits k := (overhead_within_5_percent align dofs k).

Local Abbreviation block k :=
  {| align_size := align;
     elements := (align * k / dofs)%Z;
     aligned_floats := (align * k)%Z |}.

(** The true division of line 253 against the integers. *)
Lemma overhead_test (n m : Z) :
  (0 < m)%Z ->
  Qle_bool (inject_Z n / inject_Z m) 0.05 = true <-> (100 * n <= 5 * m)%Z.
Proof.
  intros Hm. rewrite Qle_bool_iff.
  unfold Qle, Qdiv, Qmult, Qinv, inject_Z. simpl.
  destruct m as [| m | m]; try lia. simpl. lia.
Qed.

(** One turn of the loop. *)
Lemma microblock_scan_cons (k : Z) (chunks : list Z) :
  (0 < k)%Z ->
  microblock_scan align dofs (k :: chunks)
  = if decide (fits k) then Ok (block k)
    else microblock_scan align dofs chunks.
Proof.
  intros Hk. simpl.
  assert (0 < align * k)%Z as Hpos by lia.
  destruct (Z.eqb_spec dofs 0) as [| _]; [lia |].
  destruct (Z.eqb_spec (align * k) 0) as [| _]; [lia |].
  pose proof (overhead_test
    (align * k - dofs * (align * k / dofs))
    (align * k) Hpos) as Htest.
  unfold overhead_within_5_percent, padding.
  destruct (Qle_bool _ _); destruct (decide _) as [Hfit | Hfit]; try done.
  - exfalso. apply Hfit, Htest. done.
  - apply Htest in Hfit. done.
Qed.

Lemma microblock_scan_first_fit (k : Z) : forall (n : nat) (start : Z),
  (0 < start)%Z -> (start <= k < start + Z.of_nat n)%Z ->
  fits k -> (forall j, (start <= j < k)%Z -> ~ fits j) ->
  microblock_scan align dofs (seqZ start (Z.of_nat n))
  = Ok (block k).
Proof.
  induction n as [| n IH]; intros start Hstart Hk Hfit Hfirst; [lia |].
  rewrite seqZ_cons by lia. rewrite microblock_scan_cons by done.
  replace (Z.pred (Z.of_nat (S n))) with (Z.of_nat n) by lia.
  destruct (decide (fits start)) as [Hs | Hs].
  - destruct (decide (start = k)) as [-> | Hne]; [done |].
    exfalso. apply (Hfirst start); [lia | done].
  - apply IH; [lia | | done |].
    + destruct (decide (start = k)) as [-> | Hne]; [done | lia].
    + intros j Hj. apply Hfirst. lia.
Qed.

Lemma microblock_scan_none : forall (n : nat) (start : Z),
  (0 < start)%Z ->
  (forall j, (start <= j < start + Z.of_nat n)%Z -> ~ fits j) ->
  microblock_scan align dofs (seqZ start (Z.of_nat n))
  = Raise (AssertionError "a valid microblock size was not found").
Proof.
  induction n as [| n IH]; intros start Hstart Hnone; [done |].
  rewrite seqZ_cons by lia. rewrite microblock_scan_cons by done.
  replace (Z.pred (Z.of_nat (S n))) with (Z.of_nat n) by lia.
  rewrite decide_False by (apply Hnone; lia).
  apply IH; [lia |]. intros j Hj. apply Hnone. lia.
Qed.

(** Rounding up to a multiple of the alignment. *)
Lemma int_ceiling_spec :
  exists m, int_ceiling dofs align = Ok m /\
            (align | m)%Z /\ (dofs <= m < dofs + align)%Z.
Proof.
  unfold int_ceiling.
  destruct (Z.eqb_spec align 0) as [| _]; [lia |].
  eexists. split; [done |].
  pose proof (Z.div_mod (- dofs) align ltac:(lia)) as Hdiv.
  pose proof (Z.mod_pos_bound (- dofs) align align_pos) as Hmod.
  split.
  - exists (- (- dofs / align))%Z. done.
  - nia.
Qed.

Lemma find_microblock_size_cases :
  (forall k, (1 <= k < 256)%Z -> fits k ->
     (forall j, (1 <= j < k)%Z -> ~ fits j) ->
     _find_microblock_size align dofs true = Ok (block k)) /\
  ((forall k, (1 <= k < 256)%Z -> ~ fits k) ->
     _find_microblock_size align dofs true
     = Raise (AssertionError "a valid microblock size was not found")) /\
  (exists m,
     _find_microblock_size align dofs false
     = Ok {| align_size := align; elements := 1; aligned_floats := m |} /\
     (align | m)%Z /\ (dofs <= m < dofs + align)%Z).
Proof.
  unfold _find_microblock_size. simpl. split_and!.
  - intros k Hk Hfit Hfirst.
    apply (microblock_scan_first_fit k 255 1); [lia | lia | done | done].
  - intros Hnone. apply (microblock_scan_none 255 1); [lia |].
    intros j Hj. apply Hnone. lia.
  - destruct int_ceiling_spec as (m & -> & Hdiv & Hbound). eauto.
Qed.

End Microblock.

(** C6.  A given-data descriptor constructed with microblocking allowed gets
    the microblock of the first multiple [k] of the alignment size, [k]
    running from 1 to 255, whose padding overhead is at most 5%:
    [aligned_floats] is [align_size * k] and [elements] is that number
    integer-divided by the DOF count per element; when no [k] in that range
    meets the bound, construction raises an [AssertionError].  Constructed
    with microblocking disallowed, it gets a microblock of one element whose
    [aligned_floats] is the DOF count rounded up to a multiple of the
    alignment size. *)
Theorem PlanGivenData_microblock (align_words : Z -> Z)
    (node_count float_size max_face_dofs : Z) :
  (0 < align_words float_size)%Z -> (0 < node_count)%Z ->
  let align := align_words float_size in
  let fits k := overhead_within_5_percent align node_count k in
  let given mb :=
    {| float_size := float_size; dofs_per_el := node_count;
       max_face_dofs := max_face_dofs; microblock := mb |} in
  (forall k, (1 <= k < 256)%Z -> fits k ->
     (forall j, (1 <= j < k)%Z -> ~ fits j) ->
     PlanGivenData_init align_words node_count true float_size max_face_dofs
     = Ok (given {| align_size := align;
                    elements := (align * k / node_count)%Z;
                    aligned_floats := (align * k)%Z |})) /\
  ((forall k, (1 <= k < 256)%Z -> ~ fits k) ->
     PlanGivenData_init align_words node_count true float_size max_face_dofs
     = Raise (AssertionError "a valid microblock size was not found")) /\
  (exists m,
     PlanGivenData_init align_words node_count false float_size max_face_dofs
     = Ok (given {| align_size := align; elements := 1; aligned_floats := m |}) /\
     (align | m)%Z /\ (node_count <= m < node_count + align)%Z).
Proof.
  intros Halign Hdofs align fits given.
  destruct (find_microblock_size_cases align node_count Halign Hdofs)
    as (Hfirst & Hnone & (m & Hoff & Hm)).
  unfold PlanGivenData_init. split_and!.
  - intros k Hk Hfit Hleast. fold align. by rewrite (Hfirst k Hk Hfit Hleast).
  - intros Hno. fold align. by rewrite (Hnone Hno).
  - exists m. fold align. by rewrite Hoff.
Qed.

(** Alignment 16 and 20 DOFs per element: 80 floats hold 4 elements with no
    padding, and multiples 1 to 4 of the alignment waste too much. *)
Lemma PlanGivenData_microblock_witness :
  microblock <$> PlanGivenData_init (fun float_size => 64 / float_size)%Z 20 true 4 6
  = Ok {| align_size := 16; elements := 4; aligned_floats := 80 |} /\
  microblock <$> PlanGivenData_init (fun float_size => 64 / float_size)%Z 20 false 4 6
  = Ok {| align_size := 16; elements := 1; aligned_floats := 32 |}.
Proof.
  destruct (PlanGivenData_microblock (fun float_size => 64 / float_size)%Z
              20 4 6 ltac:(reflexivity) ltac:(reflexivity))
    as (Hfirst & _ & _).
  split.
  - rewrite (Hfirst 5%Z); [reflexivity | lia | vm_compute; discriminate |].
    intros j Hj Hfit.
    assert (j = 1 \/ j = 2 \/ j = 3 \/ j = 4)%Z as [-> | [-> | [-> | ->]]] by lia;
      vm_compute in Hfit; by apply Hfit.
  - reflexivity.
Defined.

(** * Facts about the compiled vector expressions *)

(** ** Induction on expressions, with the children of a node in hand *)

Section ExprInd.

Variable P : expr -> Prop.
Hypothesis HVar : forall name, P (Var name).
Hypothesis HConstant : forall value, P (Constant value).
Hypothesis HSum : forall cs, Forall P cs -> P (Sum cs).
Hypothesis HProduct : forall cs, Forall P cs -> P (Product cs).
Hypothesis HQuotient : forall a b, P a -> P b -> P (Quotient a b).
Hypothesis HPower : forall a b, P a -> P b -> P (Power a b).
Hypothesis HSubscript : forall a i, P a -> P i -> P (Subscript a i).
Hypothesis HLookup : forall a name, P a -> P (Lookup a name).
Hypothesis HCall : forall f ps, P f -> Forall P ps -> P (Call f ps).
Hypothesis HCse : forall c, P c -> P (CommonSubexpression c).
Hypothesis HForeign : forall cls, P (Foreign cls).

Fixpoint expr_children_ind (e : expr) : P e :=
  let all :=
    fix all (es : list expr) : Forall P es :=
      match es with
      | [] => Forall_nil_2 P
      | c :: es' => Forall_cons_2 P c es' (expr_children_ind c) (all es')
      end in
  match e with
  | Var name => HVar name
  | Constant value => HConstant value
  | Sum cs => HSum cs (all cs)
  | Product cs => HProduct cs (all cs)
  | Quotient a b => HQuotient a b (expr_children_ind a) (expr_children_ind b)
  | Power a b => HPower a b (expr_children_ind a) (expr_children_ind b)
  | Subscript a i => HSubscript a i (expr_children_ind a) (expr_children_ind i)
  | Lookup a name => HLookup a name (expr_children_ind a)
  | Call f ps => HCall f ps (expr_children_ind f) (all ps)
  | CommonSubexpression c => HCse c (expr_children_ind c)
  | Foreign cls => HForeign cls
  end.

End ExprInd.

(** ** Dictionaries *)

Section Dict.

Context {V : Type}.
Implicit Types (d : list (expr * V)) (k : expr) (v : V).

Lemma dict_get_snoc d k' v' k :
  dict_get (d ++ [(k', v')]) k
  = if decide (k' = k) then Some v' else dict_get d k.
Proof. unfold dict_get. by rewrite fold_left_app. Qed.

Lemma dict_get_None d k : k ∉ d.*1 -> dict_get d k = None.
Proof.
  induction d as [| [k' v'] d IH] using rev_ind; [done |].
  rewrite fmap_app, dict_get_snoc. simpl. intros [Hd Hk]%not_elem_of_app.
  rewrite decide_False; [by apply IH |].
  intros ->. apply Hk, list_elem_of_here.
Qed.

Lemma dict_get_Some d k v :
  NoDup d.*1 -> (k, v) ∈ d -> dict_get d k = Some v.
Proof.
  induction d as [| [k' v'] d IH] using rev_ind; [by intros _ ?%elem_of_nil |].
  rewrite fmap_app, dict_get_snoc. simpl.
  intros [Hd [Hfresh _]]%NoDup_app [Hin | Hin%list_elem_of_singleton]%elem_of_app.
  - rewrite decide_False; [by apply IH |].
    intros ->. apply (Hfresh k); [| set_solver].
    by apply (list_elem_of_fmap_2 fst) in Hin.
  - injection Hin as -> ->. by rewrite decide_True.
Qed.

End Dict.

(** ** The substitution mapper *)

Lemma mapM_unchanged (f : expr -> except expr) (es : list expr) :
  Forall (fun e => f e = Ok e) es -> mapM f es = Ok es.
Proof.
  induction 1 as [| e es He _ IH]; [done |]. simpl. by rewrite He, IH.
Qed.

Lemma elem_of_flat_map_subexprs (s : expr) (es : list expr) :
  s ∈ flat_map subexprs es <-> exists e, e ∈ es /\ s ∈ subexprs e.
Proof.
  rewrite list_elem_of_In, in_flat_map. by setoid_rewrite list_elem_of_In.
Qed.

Lemma subexprs_self (e : expr) : e ∈ subexprs e.
Proof. destruct e; apply list_elem_of_here. Qed.

(** A dependency that the map knows is replaced by its image. *)
Lemma mapper_mapped (sigma : expr -> option expr) (e r : expr) :
  dependency_kind e -> sigma e = Some r ->
  DefaultingSubstitutionMapper sigma e = Ok r.
Proof.
  intros Hkind Hr. destruct e; try done; simpl;
    unfold handle_unsupported_expression; by rewrite Hr.
Qed.

(** An expression of supported nodes only, none of them known to the map,
    comes back as it is. *)
Lemma mapper_unchanged (sigma : expr -> option expr) (e : expr) :
  (forall s, s ∈ subexprs e -> sigma s = None) ->
  (forall s, s ∈ subexprs e -> ~ is_foreign s) ->
  DefaultingSubstitutionMapper sigma e = Ok e.
Proof.
  induction e as [name | value | cs IH | cs IH | a b IHa IHb | a b IHa IHb
                 | a i IHa IHi | a name IHa | f ps IHf IHps | c IHc | cls]
    using expr_children_ind; intros Hnone Hsupp; simpl in *.
  - by rewrite (Hnone (Var name)) by set_solver.
  - done.
  - rewrite mapM_unchanged; [done |].
    apply Forall_forall. intros c Hc. rewrite Forall_forall in IH.
    apply IH; [done | |]; intros s Hs; [apply Hnone | apply Hsupp];
      apply elem_of_cons; right; apply elem_of_flat_map_subexprs; eauto.
  - rewrite mapM_unchanged; [done |].
    apply Forall_forall. intros c Hc. rewrite Forall_forall in IH.
    apply IH; [done | |]; intros s Hs; [apply Hnone | apply Hsupp];
      apply elem_of_cons; right; apply elem_of_flat_map_subexprs; eauto.
  - rewrite IHa, IHb; [done | | | |]; intros s Hs;
      try (apply Hnone; set_solver); apply Hsupp; set_solver.
  - rewrite IHa, IHb; [done | | | |]; intros s Hs;
      try (apply Hnone; set_solver); apply Hsupp; set_solver.
  - rewrite (Hnone (Subscript a i)) by set_solver.
    rewrite IHa, IHi; [done | | | |]; intros s Hs;
      try (apply Hnone; set_solver); apply Hsupp; set_solver.
  - rewrite (Hnone (Lookup a name)) by set_solver.
    rewrite IHa; [done | |]; intros s Hs;
      try (apply Hnone; set_solver); apply Hsupp; set_solver.
  - rewrite IHf; [| intros s Hs; apply Hnone; set_solver
                  | intros s Hs; apply Hsupp; set_solver].
    simpl. rewrite mapM_unchanged; [done |].
    apply Forall_forall. intros c Hc. rewrite Forall_forall in IHps.
    apply IHps; [done | |]; intros s Hs; [apply Hnone | apply Hsupp];
      apply elem_of_cons; right; apply elem_of_app; right;
      apply elem_of_flat_map_subexprs; eauto.
  - rewrite IHc; [done | |]; intros s Hs;
      try (apply Hnone; set_solver); apply Hsupp; set_solver.
  - exfalso. apply (Hsupp (Foreign cls)); [set_solver | done].
Qed.

(** An unknown node of an unsupported class is reported, not passed on. *)
Lemma mapper_unsupported (sigma : expr -> option expr) (cls : string) :
  sigma (Foreign cls) = None ->
  DefaultingSubstitutionMapper sigma (Foreign cls)
  = Raise (ValueError
      "DefaultingSubstitutionMapper cannot handle expressions of this type").
Proof.
  intros Hnone. simpl. unfold handle_unsupported_expression. by rewrite Hnone.
Qed.

(** ** Builder construction *)

Section BuilderFacts.

Variable set_iter : list expr -> list expr.
Hypothesis set_iter_elem : forall l x, x ∈ set_iter l <-> x ∈ l.
Hypothesis set_iter_NoDup : forall l, NoDup (set_iter l).

Local Abbreviation deps_of := (dep_mapper set_iter).

Lemma elem_of_set_or (a b : list expr) (x : expr) :
  x ∈ set_or set_iter a b <-> x ∈ a \/ x ∈ b.
Proof. unfold set_or. by rewrite set_iter_elem, elem_of_app. Qed.

Lemma elem_of_fold_set_or (sets : list (list expr)) : forall (s : list expr) x,
  x ∈ fold_left (set_or set_iter) sets s
  <-> x ∈ s \/ exists t, t ∈ sets /\ x ∈ t.
Proof.
  induction sets as [| t sets IH]; intros s x; simpl.
  - split; [by left | intros [? | (t & Ht & _)]; [done |]].
    by apply elem_of_nil in Ht.
  - rewrite IH, elem_of_set_or. split.
    + intros [[Hs | Ht] | (t' & Ht' & Hx)]; [by left | right | right].
      * exists t. split; [apply list_elem_of_here | done].
      * exists t'. split; [by apply list_elem_of_further | done].
    + intros [Hs | (t' & [-> | Ht']%elem_of_cons & Hx)]; eauto.
Qed.

Lemma NoDup_fold_set_or (sets : list (list expr)) : forall s,
  NoDup s -> NoDup (fold_left (set_or set_iter) sets s).
Proof.
  induction sets as [| t sets IH]; intros s Hs; simpl; [done |].
  apply IH, set_iter_NoDup.
Qed.

Lemma elem_of_combine (values : list (list expr)) (x : expr) :
  x ∈ combine set_iter values <-> exists t, t ∈ values /\ x ∈ t.
Proof.
  unfold combine. rewrite elem_of_fold_set_or. split; [| by right].
  intros [Hx | Hx]; [by apply elem_of_nil in Hx | done].
Qed.

Lemma NoDup_combine (values : list (list expr)) :
  NoDup (combine set_iter values).
Proof. apply NoDup_fold_set_or, NoDup_nil_2. Qed.

Lemma NoDup_dep_mapper (e : expr) : NoDup (deps_of e).
Proof.
  induction e using expr_children_ind; simpl;
    try apply NoDup_combine; try apply NoDup_singleton;
    try apply NoDup_nil_2; done.
Qed.

(** A dependency is a leaf, a subscript or a lookup of the expression. *)
Lemma dep_mapper_kind (e : expr) : forall dep,
  dep ∈ deps_of e -> dependency_kind dep /\ dep ∈ subexprs e.
Proof.
  induction e as [name | value | cs IH | cs IH | a b IHa IHb | a b IHa IHb
                 | a i IHa IHi | a name IHa | f ps IHf IHps | c IHc | cls]
    using expr_children_ind; intros dep; simpl.
  - intros ->%list_elem_of_singleton. split; [done | apply list_elem_of_here].
  - by intros ?%elem_of_nil.
  - intros (t & (c & -> & Hc)%list_elem_of_fmap & Hdep)%elem_of_combine.
    rewrite Forall_forall in IH. destruct (IH c Hc dep Hdep) as [Hk Hsub].
    split; [done |]. apply elem_of_cons. right.
    apply elem_of_flat_map_subexprs. eauto.
  - intros (t & (c & -> & Hc)%list_elem_of_fmap & Hdep)%elem_of_combine.
    rewrite Forall_forall in IH. destruct (IH c Hc dep Hdep) as [Hk Hsub].
    split; [done |]. apply elem_of_cons. right.
    apply elem_of_flat_map_subexprs. eauto.
  - intros (t & Ht & Hdep)%elem_of_combine.
    apply elem_of_cons in Ht as [-> | ->%list_elem_of_singleton].
    + destruct (IHa dep Hdep). split; [done | set_solver].
    + destruct (IHb dep Hdep). split; [done | set_solver].
  - intros (t & Ht & Hdep)%elem_of_combine.
    apply elem_of_cons in Ht as [-> | ->%list_elem_of_singleton].
    + destruct (IHa dep Hdep). split; [done | set_solver].
    + destruct (IHb dep Hdep). split; [done | set_solver].
  - intros ->%list_elem_of_singleton. split; [done | apply list_elem_of_here].
  - intros ->%list_elem_of_singleton. split; [done | apply list_elem_of_here].
  - intros (t & (c & -> & Hc)%list_elem_of_fmap & Hdep)%elem_of_combine.
    rewrite Forall_forall in IHps. destruct (IHps c Hc dep Hdep) as [Hk Hsub].
    split; [done |]. apply elem_of_cons. right. apply elem_of_app. right.
    apply elem_of_flat_map_subexprs. eauto.
  - intros Hdep. destruct (IHc dep Hdep). split; [done | set_solver].
  - intros ->%list_elem_of_singleton. split; [done | apply list_elem_of_here].
Qed.

(** Line 78 on a non-empty list of targets. *)
Lemma dependencies_spec (vec_exprs : list expr) :
  vec_exprs <> [] ->
  exists deps,
    dependencies set_iter vec_exprs = Ok deps /\ NoDup deps /\
    forall dep, dep ∈ deps <-> exists ve, ve ∈ vec_exprs /\ dep ∈ deps_of ve.
Proof.
  destruct vec_exprs as [| ve vec_exprs]; [done | intros _].
  unfold dependencies. simpl. eexists. split; [done |]. split.
  - apply NoDup_fold_set_or, NoDup_dep_mapper.
  - intros dep. rewrite elem_of_fold_set_or. split.
    + intros [Hdep | (t & (ve' & -> & Hve')%list_elem_of_fmap & Hdep)].
      * exists ve. split; [apply list_elem_of_here | done].
      * exists ve'. split; [by apply list_elem_of_further | done].
    + intros (ve' & [-> | Hve']%elem_of_cons & Hdep); [by left | right].
      exists (deps_of ve'). split; [| done]. by apply list_elem_of_fmap_2.
Qed.

(** What [__init__] leaves in a builder. *)
Lemma init_Ok (vec_exprs : list expr) (is_vector_func : expr -> bool)
    (getter : list (expr * dtype) -> list (expr * dtype) -> except dtype)
    (b : CompiledVectorExpressionBase) :
  CompiledVectorExpressionBase_init set_iter vec_exprs is_vector_func getter = Ok b ->
  exists deps,
    dependencies set_iter vec_exprs = Ok deps /\
    vector_exprs b = filter (fun dep => is_vector_func dep) deps /\
    scalar_exprs b = filter (fun dep => ¬ is_vector_func dep) deps /\
    vector_names b
    = map (fun i => "v" +:+ fmt_d i) (seq 0 (length (vector_exprs b))) /\
    scalar_names b
    = map (fun i => "s" +:+ fmt_d i) (seq 0 (length (scalar_exprs b))) /\
    mapM (DefaultingSubstitutionMapper
            (builder_subst_func (vector_exprs b) (scalar_exprs b))) vec_exprs
    = Ok (exprs b).
Proof.
  unfold CompiledVectorExpressionBase_init.
  destruct (dependencies set_iter vec_exprs) as [deps |]; [| done].
  simpl. fold (builder_subst_func (filter (fun dep => is_vector_func dep) deps)
                 (filter (fun dep => ¬ is_vector_func dep) deps)).
  destruct (mapM _ vec_exprs) as [es |] eqn:Hes; [| done].
  simpl. intros [= <-]. simpl. exists deps. by rewrite Hes.
Qed.

(** The keys of the substitution map are the dependencies, each once. *)
Lemma subst_map_keys (vs ss : list expr) :
  (make_subst_map vs ss
     (map (fun i => "v" +:+ fmt_d i) (seq 0 (length vs)))
     (map (fun i => "s" +:+ fmt_d i) (seq 0 (length ss)))).*1
  = vs ++ ss.
Proof.
  unfold make_subst_map. rewrite fmap_app.
  rewrite !fst_zip; [done | |]; by rewrite !length_map, length_seq.
Qed.

Lemma partition_NoDup (deps : list expr) (is_vector_func : expr -> bool) :
  NoDup deps ->
  NoDup (filter (fun dep => is_vector_func dep) deps
         ++ filter (fun dep => ¬ is_vector_func dep) deps).
Proof.
  intros Hdeps. apply NoDup_app. split_and!; [by apply NoDup_filter | |
                                              by apply NoDup_filter].
  intros dep [Hv _]%list_elem_of_filter [Hs _]%list_elem_of_filter. done.
Qed.

Lemma builder_subst_vector (vs ss : list expr) (k : nat) (dep : expr) :
  NoDup (vs ++ ss) -> vs !! k = Some dep ->
  builder_subst_func vs ss dep
  = Some (Subscript (Var ("v" +:+ fmt_d k)) (Var "i")).
Proof.
  intros Hnodup Hk. unfold builder_subst_func, subst_func.
  apply dict_get_Some; [by rewrite subst_map_keys |].
  unfold make_subst_map. apply elem_of_app. left.
  apply list_elem_of_lookup. exists k.
  rewrite lookup_zip_with, Hk. simpl.
  rewrite !list_lookup_fmap, lookup_seq_lt by (by eapply lookup_lt_Some).
  done.
Qed.

Lemma builder_subst_scalar (vs ss : list expr) (k : nat) (dep : expr) :
  NoDup (vs ++ ss) -> ss !! k = Some dep ->
  builder_subst_func vs ss dep = Some (Var ("s" +:+ fmt_d k)).
Proof.
  intros Hnodup Hk. unfold builder_subst_func, subst_func.
  apply dict_get_Some; [by rewrite subst_map_keys |].
  unfold make_subst_map. apply elem_of_app. right.
  apply list_elem_of_lookup. exists k.
  rewrite lookup_zip_with, Hk. simpl.
  rewrite !list_lookup_fmap, lookup_seq_lt by (by eapply lookup_lt_Some).
  done.
Qed.

Lemma builder_subst_other (vs ss : list expr) (e : expr) :
  e ∉ vs -> e ∉ ss -> builder_subst_func vs ss e = None.
Proof.
  intros Hv Hs. unfold builder_subst_func, subst_func.
  apply dict_get_None. rewrite subst_map_keys.
  by intros [? | ?]%elem_of_app.
Qed.

End BuilderFacts.

(** ** Code generation *)

(** With a common sub-expression on record, line 128 is reached and
    [get_kernel] raises. *)
Lemma get_kernel_with_cse (self : CompiledVectorExpressionBase)
    (vector_dtypes scalar_dtypes : list dtype) (d : dtype)
    (expr_codes : list string) (code_mapper : CCodeMapper) :
  result_dtype_getter self (zip (vector_exprs self) vector_dtypes)
    (zip (scalar_exprs self) scalar_dtypes) = Ok d ->
  code_all (exprs self) new_CCodeMapper = Ok (expr_codes, code_mapper) ->
  cses code_mapper <> [] ->
  get_kernel self vector_dtypes scalar_dtypes
  = Raise (NameError "get_c_declarator").
Proof.
  intros Hd Hcodes Hcses. unfold get_kernel. rewrite Hd. simpl.
  rewrite Hcodes. simpl. by destruct (cses code_mapper).
Qed.

(** With none, the body is one line per target, in order. *)
Lemma get_kernel_without_cse (self : CompiledVectorExpressionBase)
    (vector_dtypes scalar_dtypes : list dtype) (d : dtype)
    (expr_codes : list string) (code_mapper : CCodeMapper) :
  result_dtype_getter self (zip (vector_exprs self) vector_dtypes)
    (zip (scalar_exprs self) scalar_dtypes) = Ok d ->
  code_all (exprs self) new_CCodeMapper = Ok (expr_codes, code_mapper) ->
  cses code_mapper = [] ->
  exists args,
    get_kernel self vector_dtypes scalar_dtypes
    = Ok {| kernel :=
              (args,
               str_join newline
                 (map (fun '(i, ec) =>
                         "_result" +:+ fmt_d i +:+ "[i] = " +:+ ec +:+ ";")
                    (enumerate expr_codes)));
            result_dtype := d |}.
Proof.
  intros Hd Hcodes Hcses. unfold get_kernel. rewrite Hd. simpl.
  rewrite Hcodes. simpl. rewrite Hcses. simpl. eauto.
Qed.

(** ** The builder on two targets that share a product *)

Lemma insertion_order_elem (l : list expr) (x : expr) :
  x ∈ Fixture.insertion_order l <-> x ∈ l.
Proof.
  unfold Fixture.insertion_order.
  by rewrite elem_of_reverse, elem_of_remove_dups, elem_of_reverse.
Qed.

Lemma insertion_order_NoDup (l : list expr) : NoDup (Fixture.insertion_order l).
Proof.
  unfold Fixture.insertion_order. rewrite reverse_Permutation.
  apply NoDup_remove_dups.
Qed.

(** Targets in which the shared product is not marked: the mapper records
    no common sub-expression and the product is written out in both lines. *)
Lemma get_kernel_plain_targets :
  exists b args,
    CompiledVectorExpressionBase_init Fixture.insertion_order Fixture.plain_targets Fixture.is_vector
      Fixture.float64_getter = Ok b /\
    get_kernel b ["float64"; "float64"; "float64"] ["float64"]
    = Ok {| kernel :=
              (args,
               "_result0[i] = v0[i]*v1[i] + s0*v2[i];" +:+ newline +:+
               "_result1[i] = v0[i]*v1[i] + -1*v2[i];");
            result_dtype := "float64" |}.
Proof. eexists. eexists. split; reflexivity. Qed.

(** C2, on the code.  Two targets share a product that is marked as a common
    sub-expression.  The code mapper records it once, as [_cse0], and both
    target codes refer to it; but emitting its binding calls
    [get_c_declarator], which the module does not define, and [get_kernel]
    raises [NameError] instead of returning a kernel. *)
Theorem get_kernel_marked_targets_raises :
  exists b code_mapper,
    CompiledVectorExpressionBase_init Fixture.insertion_order Fixture.marked_targets Fixture.is_vector
      Fixture.float64_getter = Ok b /\
    code_all (exprs b) new_CCodeMapper
    = Ok (["_cse0 + s0*v2[i]"; "_cse0 + -1*v2[i]"], code_mapper) /\
    cses code_mapper = ["v0[i]*v1[i]"] /\
    get_kernel b ["float64"; "float64"; "float64"] ["float64"]
    = Raise (NameError "get_c_declarator").
Proof. eexists. eexists. split; [reflexivity |]. split; [reflexivity |]. split; reflexivity. Qed.

(** * More about [optimize_plan] *)

Section OptimizePlanMore.

Context {plan : Type} `{ExecutionPlan plan}.
Variable OccupancyRecord : Z -> Z -> Z -> string + Q.
Context {World : Type}.

Local Abbreviation occ := (occupancy_of OccupancyRecord).
Local Abbreviation rec_of := (recorded (plan := plan)).

Implicit Types (p : plan) (plans : list plan)
  (target_func : plan -> World -> bench_result * World).

(** The flags of line 74, one by one. *)
Lemma no_plan_iff (opt_name : string) (debug_flags : gset string) :
  no_plan opt_name debug_flags = true
  <-> "cuda_no_plan" ∈ debug_flags \/ ("cuda_no_plan_" +:+ opt_name) ∈ debug_flags.
Proof.
  unfold no_plan. rewrite bool_decide_eq_true. split.
  - intros Hne. apply set_choose_L in Hne as (x & Hx).
    apply elem_of_intersection in Hx as [Hx Hflag].
    apply elem_of_union in Hx as [->%elem_of_singleton | ->%elem_of_singleton];
      eauto.
  - intros [Hflag | Hflag] Hempty.
    + assert ("cuda_no_plan" ∈ (∅ : gset string)) as Hin; [| set_solver].
      rewrite <- Hempty. set_solver.
    + assert (("cuda_no_plan_" +:+ opt_name) ∈ (∅ : gset string)) as Hin;
        [| set_solver].
      rewrite <- Hempty. set_solver.
Qed.

(** Lines 74-77 as a run. *)
Lemma optimize_plan_short_circuit_run opt_name plan_generator target_func
    (maximize : bool) (debug_flags : gset string) (occupancy_slack : Q)
    (log_filename : option string) (w : World) :
  no_plan opt_name debug_flags = true ->
  valid_plans OccupancyRecord plan_generator <> [] ->
  exists k p,
    optimize_plan OccupancyRecord opt_name plan_generator target_func maximize
      debug_flags occupancy_slack log_filename w
    = {| result := Ok (p, 0%Q); final := w; trace := [] |} /\
    first_max (map (fun q => (q, occ q))
                 (valid_plans OccupancyRecord plan_generator)) k p (occ p).
Proof.
  intros Hflag Hne. unfold optimize_plan. rewrite Hflag.
  pose proof (valid_plans_valid OccupancyRecord plan_generator) as Hvalid.
  destruct (valid_plans OccupancyRecord plan_generator) as [| q plans] eqn:Heq;
    [done |].
  rewrite (mapM_plan_occupancy OccupancyRecord _ Hvalid).
  destruct (argmax2_spec (map (fun q => (q, occ q)) (q :: plans)))
    as (k & p & v & Harg & Hmax); [done |].
  exists k, p. unfold mbind, except_bind. rewrite Harg. split; [done |].
  assert (v = occ p) as ->; [| done].
  destruct Hmax as (Hk & _). rewrite list_lookup_fmap in Hk.
  destruct ((q :: plans) !! k) as [p' |]; simpl in Hk; [| done].
  by injection Hk as <- <-.
Qed.

(** What a search that returns has returned, with or without a log. *)
Lemma optimize_plan_search_returns opt_name plan_generator target_func
    (maximize : bool) (debug_flags : gset string) (occupancy_slack : Q)
    (log_filename : option string) (w : World) p (c : Q) :
  no_plan opt_name debug_flags = false ->
  let r := optimize_plan OccupancyRecord opt_name plan_generator target_func
             maximize debug_flags occupancy_slack log_filename w in
  result r = Ok (p, c) ->
  exists k res (m : Q),
    (p, res) ∈ trace r /\ bench_value res = Some c /\
    p ∈ valid_plans OccupancyRecord plan_generator /\
    is_max_occupancy OccupancyRecord m
      (valid_plans OccupancyRecord plan_generator) /\
    within_slack OccupancyRecord (desired_occupancy occupancy_slack m) p /\
    if maximize then first_max (rec_of (trace r)) k p c
    else first_min (rec_of (trace r)) k p c.
Proof.
  intros Hflag r Hres.
  destruct (decide (valid_plans OccupancyRecord plan_generator = [])) as [Hnil | Hplans].
  { subst r. by rewrite optimize_plan_nil in Hres. }
  destruct (optimize_plan_search OccupancyRecord opt_name plan_generator
              target_func maximize debug_flags occupancy_slack log_filename w
              Hflag Hplans)
    as (m & ran & rest & Hm & Hfilter & Htrace & _ & Hreturned & _).
  fold r in Htrace, Hreturned.
  destruct (Hreturned _ Hres) as [-> Hsel]. rewrite app_nil_r in Hfilter.
  destruct (select_numbered_Ok maximize _ p c Hsel) as [k Hext].
  assert ((p, c) ∈ rec_of (trace r)) as Hpc.
  { apply list_elem_of_lookup. exists k. by destruct maximize, Hext. }
  apply elem_of_recorded in Hpc as (res & Hin & Hv).
  exists k, res, m.
  assert (p ∈ filter (fun p => within_slack OccupancyRecord
                                 (desired_occupancy occupancy_slack m) p)
                (valid_plans OccupancyRecord plan_generator)) as Hp.
  { rewrite Hfilter. apply (list_elem_of_fmap_2 fst) in Hin.
    by rewrite Htrace, benchmark_all_plans in Hin. }
  apply list_elem_of_filter in Hp as [Hwithin Hp]. done.
Qed.

(** The benchmark invocations, whatever the flags and the log: they are made
    on a part of the valid plans, in the order of generation. *)
Lemma optimize_plan_trace opt_name plan_generator target_func
    (maximize : bool) (debug_flags : gset string) (occupancy_slack : Q)
    (log_filename : option string) (w : World) :
  let r := optimize_plan OccupancyRecord opt_name plan_generator target_func
             maximize debug_flags occupancy_slack log_filename w in
  exists ran,
    ran `sublist_of` valid_plans OccupancyRecord plan_generator /\
    trace r = (benchmark_all target_func ran w).1 /\
    final r = (benchmark_all target_func ran w).2.
Proof.
  intros r.
  destruct (decide (valid_plans OccupancyRecord plan_generator = [])) as [Hnil | Hplans].
  { exists []. subst r. rewrite optimize_plan_nil by done.
    split; [apply sublist_nil_l | done]. }
  destruct (no_plan opt_name debug_flags) eqn:Hflag.
  - exists [].
    destruct (optimize_plan_no_plan_trace OccupancyRecord opt_name
                plan_generator target_func maximize debug_flags
                occupancy_slack log_filename w Hflag) as [Htrace Hfinal].
    split; [apply sublist_nil_l | done].
  - destruct (optimize_plan_search OccupancyRecord opt_name plan_generator
                target_func maximize debug_flags occupancy_slack log_filename w
                Hflag Hplans)
      as (m & ran & rest & _ & Hfilter & Htrace & Hfinal & _).
    exists ran. split; [| done].
    etrans; [| apply (sublist_filter
                       (fun p => within_slack OccupancyRecord
                                   (desired_occupancy occupancy_slack m) p))].
    rewrite Hfilter. by apply sublist_inserts_r.
Qed.

(** X1.  With either no-plan flag set and at least one valid plan,
    [optimize_plan] returns at once the first valid plan of maximal
    occupancy with cost 0: the benchmark is not invoked and its state is
    left as it was. *)
Theorem optimize_plan_no_plan_short_circuit opt_name plan_generator target_func
    (maximize : bool) (debug_flags : gset string) (occupancy_slack : Q)
    (log_filename : option string) (w : World) :
  "cuda_no_plan" ∈ debug_flags \/ ("cuda_no_plan_" +:+ opt_name) ∈ debug_flags ->
  valid_plans OccupancyRecord plan_generator <> [] ->
  exists k p,
    optimize_plan OccupancyRecord opt_name plan_generator target_func maximize
      debug_flags occupancy_slack log_filename w
    = {| result := Ok (p, 0%Q); final := w; trace := [] |} /\
    first_max (map (fun q => (q, occ q))
                 (valid_plans OccupancyRecord plan_generator)) k p (occ p).
Proof.
  intros Hflag%no_plan_iff Hne. by apply optimize_plan_short_circuit_run.
Qed.

(** X2.  Whatever the flags and the log, the plans on which the benchmark
    is invoked are, in this order, among the plans that the generator
    produced, each generated plan being invoked on at most once, and each
    of them has [invalid_reason()] [None]; and the invocations are made one
    after the other, each in the state that the one before it left. *)
Theorem benchmark_never_sees_invalid_plan opt_name plan_generator target_func
    (maximize : bool) (debug_flags : gset string) (occupancy_slack : Q)
    (log_filename : option string) (w : World) :
  let r := optimize_plan OccupancyRecord opt_name plan_generator target_func
             maximize debug_flags occupancy_slack log_filename w in
  (trace r).*1 `sublist_of` plan_generator tt /\
  (forall p, p ∈ (trace r).*1 -> invalid_reason OccupancyRecord p = None) /\
  (trace r, final r) = benchmark_all target_func (trace r).*1 w.
Proof.
  intros r.
  destruct (optimize_plan_trace opt_name plan_generator target_func maximize
              debug_flags occupancy_slack log_filename w)
    as (ran & Hsub & Htrace & Hfinal).
  fold r in Htrace, Hfinal.
  assert ((trace r).*1 = ran) as ->
    by (rewrite Htrace; apply benchmark_all_plans).
  split_and!.
  - etrans; [exact Hsub |]. apply sublist_filter.
  - intros p Hp. apply (elem_of_sublist _ _ _ Hp) in Hsub as Hp'.
    clear Hp. rename Hp' into Hp.
    by apply list_elem_of_filter in Hp as [Hvalid _].
  - rewrite Htrace, Hfinal. by destruct (benchmark_all target_func ran w).
Qed.

(** X3.  Outside the no-plan short-circuit and without a log, with a slack
    of at most 1 and a maximal occupancy that is a non-negative float, every
    valid plan of maximal occupancy is benchmarked; so the benchmark is
    invoked at least once, the first time in the state at the start. *)
Theorem best_occupancy_is_benchmarked opt_name plan_generator target_func
    (maximize : bool) (debug_flags : gset string) (occupancy_slack : Q)
    (log_filename : option string) (w : World) (max_occup : Q) :
  no_plan opt_name debug_flags = false ->
  "cuda_plan_log" ∉ debug_flags \/ log_filename = None ->
  (occupancy_slack <= 1)%Q -> (0 <= max_occup)%Q ->
  (float max_occup == max_occup)%Q ->
  is_max_occupancy OccupancyRecord max_occup
    (valid_plans OccupancyRecord plan_generator) ->
  let r := optimize_plan OccupancyRecord opt_name plan_generator target_func
             maximize debug_flags occupancy_slack log_filename w in
  (forall p, p ∈ valid_plans OccupancyRecord plan_generator ->
     (occ p == max_occup)%Q -> exists res, (p, res) ∈ trace r) /\
  exists p res w',
    p ∈ valid_plans OccupancyRecord plan_generator /\
    target_func p w = (res, w') /\ head (trace r) = Some (p, res).
Proof.
  intros Hflag Hlog%log_file_off Hslack Hpos Hfloat Hmax r.
  assert (valid_plans OccupancyRecord plan_generator <> []) as Hne.
  { destruct Hmax as [(p & Hp & _) _]. intros Hnil. rewrite Hnil in Hp.
    by apply elem_of_nil in Hp. }
  destruct (optimize_plan_search OccupancyRecord opt_name plan_generator
              target_func maximize debug_flags occupancy_slack log_filename w
              Hflag Hne)
    as (m & ran & rest & Hm & Hfilter & Htrace & _ & _ & Hoff).
  destruct (Hoff Hlog) as [-> _]. rewrite app_nil_r in Hfilter.
  fold r in Htrace.
  pose proof (is_max_occupancy_unique OccupancyRecord _ _ _ Hm Hmax) as Heq.
  assert (threshold (desired_occupancy occupancy_slack m) <= max_occup)%Q
    as Hlimit.
  { unfold threshold, desired_occupancy.
    apply Qle_trans with (float max_occup);
      [| rewrite Hfloat; apply Qle_refl].
    apply float_le.
    assert (float (occupancy_slack * m) <= max_occup)%Q as Hdesired.
    { apply Qle_trans with (float max_occup);
      [| rewrite Hfloat; apply Qle_refl].
      apply float_le. rewrite Heq.
      assert (occupancy_slack * max_occup <= 1 * max_occup)%Q
        by (by apply Qmult_le_compat_r).
      lra. }
    assert (0 < float 1e-10)%Q as Heps by reflexivity.
    revert Heps. generalize (float 1e-10). intros eps Heps. lra. }
  assert (forall p, p ∈ valid_plans OccupancyRecord plan_generator ->
            (occ p == max_occup)%Q -> p ∈ ran) as Hbest.
  { intros p Hp Hocc. rewrite <- Hfilter. apply list_elem_of_filter.
    split; [| done]. apply within_slack_iff. by rewrite Hocc. }
  split.
  - intros p Hp Hocc. specialize (Hbest p Hp Hocc).
    rewrite <- (benchmark_all_plans target_func ran w), <- Htrace in Hbest.
    apply list_elem_of_fmap in Hbest as ([q res] & -> & Hin). eauto.
  - destruct Hmax as [(q & Hq & Hocc) _]. specialize (Hbest q Hq Hocc).
    destruct ran as [| p ran]; [by apply elem_of_nil in Hbest |].
    destruct (target_func p w) as [res w'] eqn:Hcall.
    rewrite (benchmark_all_cons _ _ _ _ _ _ Hcall) in Htrace.
    exists p, res, w'. split_and!; [| done | by rewrite Htrace].
    assert (p ∈ filter (fun p => within_slack OccupancyRecord
                                   (desired_occupancy occupancy_slack m) p)
                  (valid_plans OccupancyRecord plan_generator)) as Hp
      by (rewrite Hfilter; apply list_elem_of_here).
    by apply list_elem_of_filter in Hp as [_ Hp].
Qed.

(** X4.  Outside the no-plan short-circuit and without a log, over plans of
    non-negative occupancy, lowering the slack never takes a plan out of
    the benchmark: the plans benchmarked by a search with the larger slack
    are, in the same order, among those benchmarked by a search with the
    smaller one, whatever the benchmarks, their states and the directions of
    the two searches. *)
Theorem lower_slack_benchmarks_more opt_name plan_generator
    target_func1 target_func2 (maximize1 maximize2 : bool)
    (debug_flags : gset string) (slack1 slack2 : Q)
    (log_filename : option string) (w1 w2 : World) :
  no_plan opt_name debug_flags = false ->
  "cuda_plan_log" ∉ debug_flags \/ log_filename = None ->
  (slack1 <= slack2)%Q ->
  (forall p, p ∈ valid_plans OccupancyRecord plan_generator -> (0 <= occ p)%Q) ->
  let r1 := optimize_plan OccupancyRecord opt_name plan_generator target_func1
              maximize1 debug_flags slack1 log_filename w1 in
  let r2 := optimize_plan OccupancyRecord opt_name plan_generator target_func2
              maximize2 debug_flags slack2 log_filename w2 in
  (trace r2).*1 `sublist_of` (trace r1).*1 /\
  (trace r1, final r1) = benchmark_all target_func1 (trace r1).*1 w1 /\
  (trace r2, final r2) = benchmark_all target_func2 (trace r2).*1 w2.
Proof.
  intros Hflag Hlog%log_file_off Hslack Hpos r1 r2.
  destruct (decide (valid_plans OccupancyRecord plan_generator = [])) as [Hnil | Hne].
  { subst r1 r2. rewrite !optimize_plan_nil by done. done. }
  destruct (optimize_plan_search OccupancyRecord opt_name plan_generator
              target_func1 maximize1 debug_flags slack1 log_filename w1 Hflag Hne)
    as (m1 & ran1 & rest1 & Hm1 & Hfilter1 & Htrace1 & Hfinal1 & _ & Hoff1).
  destruct (optimize_plan_search OccupancyRecord opt_name plan_generator
              target_func2 maximize2 debug_flags slack2 log_filename w2 Hflag Hne)
    as (m2 & ran2 & rest2 & Hm2 & Hfilter2 & Htrace2 & Hfinal2 & _ & Hoff2).
  destruct (Hoff1 Hlog) as [-> _]. destruct (Hoff2 Hlog) as [-> _].
  rewrite app_nil_r in Hfilter1, Hfilter2.
  fold r1 in Htrace1, Hfinal1. fold r2 in Htrace2, Hfinal2.
  assert ((trace r1).*1 = ran1) as Hplans1
    by (rewrite Htrace1; apply benchmark_all_plans).
  assert ((trace r2).*1 = ran2) as Hplans2
    by (rewrite Htrace2; apply benchmark_all_plans).
  rewrite Hplans1, Hplans2. split_and!.
  - assert (threshold (desired_occupancy slack1 m1)
            <= threshold (desired_occupancy slack2 m2))%Q as Hlimit.
    { pose proof (is_max_occupancy_unique OccupancyRecord _ _ _ Hm1 Hm2) as Heq.
      assert (0 <= m1)%Q as Hm by (destruct Hm1 as [(q & Hq & <-) _]; by apply Hpos).
      unfold threshold, desired_occupancy. apply float_le.
      assert (float (slack1 * m1) <= float (slack2 * m2))%Q; [| lra].
      apply float_le. rewrite <- Heq. by apply Qmult_le_compat_r. }
    assert (ran2 = filter (fun p => within_slack OccupancyRecord
                                      (desired_occupancy slack2 m2) p) ran1)
      as ->; [| apply sublist_filter].
    rewrite <- Hfilter1, <- Hfilter2, list_filter_filter.
    apply list_filter_iff. intros p. rewrite !within_slack_iff.
    split; [| by intros [? _]]. intros Hp. split; [done | lra].
  - rewrite Htrace1, Hfinal1. by destruct (benchmark_all target_func1 ran1 w1).
  - rewrite Htrace2, Hfinal2. by destruct (benchmark_all target_func2 ran2 w2).
Qed.


End OptimizePlanMore.

(** * More about the plans *)

(** ** [max_registers] *)

Section MaxRegistersFacts.

Context {plan : Type} `{ExecutionPlan plan}.
Variable OccupancyRecord : Z -> Z -> Z -> string + Q.

Local Abbreviation refused p regs :=
  (exists msg, OccupancyRecord (threads p) (shared_mem_use p) regs = inl msg).
Local Abbreviation accepted p regs :=
  (exists o, OccupancyRecord (threads p) (shared_mem_use p) regs = inr o).

Lemma max_registers_loop_returns (p : plan) (bound : Z) : forall (n : nat) (regs : Z),
  (bound - regs = Z.of_nat n)%Z -> refused p (bound + 1)%Z ->
  exists r,
    (forall fuel, (n < fuel)%nat ->
       max_registers_loop OccupancyRecord fuel p regs = Some r) /\
    (regs <= r <= bound)%Z /\ refused p (r + 1)%Z /\
    (forall r', (regs < r' <= r)%Z -> accepted p r').
Proof.
  induction n as [| n IH]; intros regs Hn Hbound.
  - assert (regs = bound) as -> by lia. exists bound.
    split_and!; [| lia | lia | done | intros; lia].
    intros [| fuel] Hfuel; [lia |]. simpl. by destruct Hbound as [msg ->].
  - destruct (OccupancyRecord (threads p) (shared_mem_use p) (regs + 1)%Z)
      as [msg | o] eqn:Hnext.
    + exists regs. split_and!; [| lia | lia | eauto | intros; lia].
      intros [| fuel] Hfuel; [lia |]. simpl. by rewrite Hnext.
    + destruct (IH (regs + 1)%Z) as (r & Hloop & Hr & Hrefused & Haccepted);
        [lia | done |].
      exists r. split_and!; [| lia | lia | done |].
      * intros [| fuel] Hfuel; [lia |]. simpl. rewrite Hnext.
        apply Hloop. lia.
      * intros r' Hr'. destruct (decide (r' = regs + 1)%Z) as [-> | Hne]; [eauto |].
        apply Haccepted. lia.
Qed.

Lemma max_registers_loop_runs_on (p : plan) : forall (fuel : nat) (regs : Z),
  (forall r, (regs < r)%Z -> accepted p r) ->
  max_registers_loop OccupancyRecord fuel p regs = None.
Proof.
  induction fuel as [| fuel IH]; intros regs Hall; [done |]. simpl.
  destruct (Hall (regs + 1)%Z) as [o ->]; [lia |].
  apply IH. intros r Hr. apply Hall. lia.
Qed.

(** X6.  If some register count above the plan's own is refused by the
    occupancy calculation, [max_registers] returns, given enough turns, the
    largest count [r] from the plan's own upwards such that every count up
    to [r] is accepted and [r + 1] is refused (the plan's own count itself is
    not tried).  If no larger count is ever refused, the loop never
    returns. *)
Theorem max_registers_spec (p : plan) :
  (forall bound, (registers p <= bound)%Z -> refused p (bound + 1)%Z ->
     exists r,
       (forall fuel, (Z.to_nat (bound - registers p) < fuel)%nat ->
          max_registers OccupancyRecord fuel p = Some r) /\
       (registers p <= r <= bound)%Z /\ refused p (r + 1)%Z /\
       (forall r', (registers p < r' <= r)%Z -> accepted p r')) /\
  ((forall r, (registers p < r)%Z -> accepted p r) ->
     forall fuel, max_registers OccupancyRecord fuel p = None).
Proof.
  split.
  - intros bound Hle Hbound.
    apply (max_registers_loop_returns p bound
             (Z.to_nat (bound - registers p)) (registers p)); [lia | done].
  - intros Hall fuel. by apply max_registers_loop_runs_on.
Qed.

End MaxRegistersFacts.

(** ** The microblock that is found *)

Section MicroblockMore.

Variables align dofs : Z.
Hypothesis align_pos : (0 < align)%Z.
Hypothesis dofs_pos : (0 < dofs)%Z.

Local Abbreviation fits k := (overhead_within_5_percent align dofs k).

(** A scan that succeeds has stopped at a multiple that fits; a scan over
    multiples one of which fits succeeds. *)
Lemma microblock_scan_Ok (chunks : list Z) (mb : MicroblockInfo) :
  Forall (fun k => 0 < k)%Z chunks ->
  microblock_scan align dofs chunks = Ok mb ->
  exists k, k ∈ chunks /\ fits k /\
    mb = {| align_size := align; elements := (align * k / dofs)%Z;
            aligned_floats := (align * k)%Z |}.
Proof.
  induction 1 as [| k chunks Hk _ IH]; [done |].
  rewrite (microblock_scan_cons align dofs align_pos dofs_pos k chunks Hk).
  destruct (decide (fits k)) as [Hfit | Hfit].
  - intros [= <-]. exists k. split_and!; [apply list_elem_of_here | done | done].
  - intros (k' & Hin & Hfit' & ->)%IH. exists k'.
    split_and!; [by apply list_elem_of_further | done | done].
Qed.

Lemma microblock_scan_succeeds (chunks : list Z) (k : Z) :
  Forall (fun k => 0 < k)%Z chunks -> k ∈ chunks -> fits k ->
  exists mb, microblock_scan align dofs chunks = Ok mb.
Proof.
  induction 1 as [| k' chunks Hk' _ IH]; [by intros ?%elem_of_nil |].
  rewrite (microblock_scan_cons align dofs align_pos dofs_pos k' chunks Hk').
  intros Hin Hfit. destruct (decide (fits k')) as [Hfit' | Hfit']; [eauto |].
  apply elem_of_cons in Hin as [-> | Hin]; [done | by apply IH].
Qed.

Lemma chunks_positive : Forall (fun k => 0 < k)%Z (seqZ 1 255).
Proof. apply Forall_seqZ. lia. Qed.

Lemma find_microblock_size_Ok (allow_microblocking : bool) (mb : MicroblockInfo) :
  _find_microblock_size align dofs allow_microblocking = Ok mb ->
  align_size mb = align /\
  (1 <= elements mb)%Z /\
  (elements mb * dofs <= aligned_floats mb)%Z /\
  (0 < aligned_floats mb)%Z /\ (align | aligned_floats mb)%Z /\
  (allow_microblocking = true ->
     (100 * (aligned_floats mb - elements mb * dofs) <= 5 * aligned_floats mb)%Z /\
     (aligned_floats mb <= 255 * align)%Z).
Proof.
  unfold _find_microblock_size. destruct allow_microblocking; cbn [negb].
  - intros (k & Hk%elem_of_seqZ & Hfit & ->)%microblock_scan_Ok;
      [| apply chunks_positive]. simpl.
    unfold overhead_within_5_percent, padding in Hfit.
    pose proof (Z.div_mod (align * k) dofs ltac:(lia)) as Hdiv.
    pose proof (Z.mod_pos_bound (align * k) dofs dofs_pos) as Hmod.
    assert (0 < align * k)%Z as Hpos by nia.
    assert (align * k <= 255 * align)%Z as Hlen by nia.
    assert (0 <= align * k / dofs)%Z as Hq by (apply Z.div_pos; lia).
    split_and!; [done | | lia | lia | by exists k; lia | intros _; split; lia].
    destruct (decide (align * k / dofs = 0)%Z) as [Hzero | Hnz]; [| lia].
    rewrite Hzero in Hfit. nia.
  - destruct (int_ceiling_spec align dofs align_pos dofs_pos)
      as (m & -> & Hdiv & Hbound).
    intros [= <-]. simpl. split_and!; [done | lia | lia | lia | done | done].
Qed.

(** X7.  Every microblock that [_find_microblock_size] returns, with or
    without microblocking, holds at least one element, has room for its
    elements and is a positive whole number of alignment units; with
    microblocking the room left over is at most 5% and the block is at most
    255 units long. *)
Theorem microblock_invariants (allow_microblocking : bool) (mb : MicroblockInfo) :
  _find_microblock_size align dofs allow_microblocking = Ok mb ->
  align_size mb = align /\
  (1 <= elements mb)%Z /\
  (elements mb * dofs <= aligned_floats mb)%Z /\
  (0 < aligned_floats mb)%Z /\ (align | aligned_floats mb)%Z /\
  (allow_microblocking = true ->
     (100 * (aligned_floats mb - elements mb * dofs) <= 5 * aligned_floats mb)%Z /\
     (aligned_floats mb <= 255 * align)%Z).
Proof. apply find_microblock_size_Ok. Qed.

(** X8.  With microblocking the search succeeds whenever twenty elements
    fit in 255 alignment units, and it fails with the [AssertionError]
    whenever not even one element does. *)
Theorem microblock_search_outcome :
  ((20 * dofs <= 255 * align)%Z ->
     exists mb, _find_microblock_size align dofs true = Ok mb) /\
  ((255 * align < dofs)%Z ->
     _find_microblock_size align dofs true
     = Raise (AssertionError "a valid microblock size was not found")).
Proof.
  unfold _find_microblock_size. cbn [negb]. split.
  - intros Hroom. apply (microblock_scan_succeeds (seqZ 1 255) 255%Z);
      [apply chunks_positive | apply elem_of_seqZ; lia |].
    unfold overhead_within_5_percent, padding.
    pose proof (Z.div_mod (align * 255) dofs ltac:(lia)) as Hdiv.
    pose proof (Z.mod_pos_bound (align * 255) dofs dofs_pos) as Hmod.
    lia.
  - intros Hbig. apply (microblock_scan_none align dofs align_pos dofs_pos 255 1);
      [lia |].
    intros j Hj. unfold overhead_within_5_percent, padding.
    rewrite Z.div_small by nia. nia.
Qed.

End MicroblockMore.

(** X9.  Degenerate sizes do not reach the [assert]: with microblocking, a
    DOF count of 0 stops the first turn of the loop at the floor division,
    and an alignment size of 0 stops it at the true division, both with a
    [ZeroDivisionError]. *)
Theorem microblock_zero_sizes (align dofs : Z) :
  _find_microblock_size align 0 true
  = Raise (ZeroDivisionError "integer division or modulo by zero") /\
  (dofs <> 0%Z ->
   _find_microblock_size 0 dofs true
   = Raise (ZeroDivisionError "division by zero")).
Proof.
  unfold _find_microblock_size. cbn [negb]. rewrite seqZ_cons by lia.
  split; [done |].
  intros Hdofs. simpl. destruct (Z.eqb_spec dofs 0) as [| _]; done.
Qed.

(** ** Blocks after decomposition *)

(** X10.  For a descriptor whose construction succeeded, once the block
    counts are posted (with a non-negative number of microblocks per block)
    the DOFs of a block have room for all its elements and are a whole
    number of alignment units, and the total is the three counts
    multiplied. *)
Theorem decomposed_blocks (align_words : Z -> Z)
    (node_count float_size max_face_dofs : Z) (allow_microblocking : bool)
    (g : PlanGivenData) (blocks microblocks : Z) :
  (0 < align_words float_size)%Z -> (0 < node_count)%Z ->
  PlanGivenData_init align_words node_count allow_microblocking float_size
    max_face_dofs = Ok g ->
  (0 <= microblocks)%Z ->
  let d := post_decomposition g blocks microblocks in
  (elements_per_block d * dofs_per_el g <= dofs_per_block d)%Z /\
  (align_words float_size | dofs_per_block d)%Z /\
  total_dofs d = (blocks * microblocks * aligned_floats (microblock g))%Z /\
  ((1 <= microblocks)%Z -> (1 <= elements_per_block d)%Z).
Proof.
  intros Halign Hdofs Hinit Hmb d. unfold PlanGivenData_init in Hinit.
  destruct (_find_microblock_size (align_words float_size) node_count
              allow_microblocking) as [mb |] eqn:Hfind; [| done].
  simpl in Hinit. injection Hinit as <-.
  destruct (find_microblock_size_Ok _ _ Halign Hdofs _ _ Hfind)
    as (_ & Hone & Hroom & _ & [q Hq] & _).
  subst d. unfold total_dofs, elements_per_block, dofs_per_block. simpl.
  split_and!; [nia | | lia | nia].
  exists (q * microblocks)%Z. rewrite Hq. lia.
Qed.

(** X11.  The preimage shape for a segmented plan is a whole number [n] of
    macroblocks' worth of preimage DOFs, [n] being the least number of
    macroblocks that take all the microblocks of all the blocks; a plan
    whose macroblock has no preimage DOFs gives a [ZeroDivisionError]. *)
Theorem matmul_preimage_shape_macroblocks (d : Decomposed)
    (plan : SegmentedMatrixLocalOpExecutionPlan)
    (aligned_preimage_dofs_per_microblock : Z) :
  let macroblock :=
    preimage_dofs_per_macroblock plan aligned_preimage_dofs_per_microblock in
  ((0 < aligned_preimage_dofs_per_microblock)%Z ->
   (0 < Parallelism_total (parallelism plan))%Z ->
   exists n,
     matmul_preimage_shape d aligned_preimage_dofs_per_microblock macroblock
     = Ok (n * macroblock)%Z /\
     ((n - 1) * Parallelism_total (parallelism plan)
      < block_count d * microblocks_per_block d
      <= n * Parallelism_total (parallelism plan))%Z) /\
  (macroblock = 0%Z ->
   matmul_preimage_shape d aligned_preimage_dofs_per_microblock macroblock
   = Raise (ZeroDivisionError "division by zero")).
Proof.
  intros macroblock. unfold matmul_preimage_shape, int_ceiling. split.
  - intros Hpre Htotal. subst macroblock. unfold preimage_dofs_per_macroblock.
    set (total := Parallelism_total (parallelism plan)) in *.
    set (apd := aligned_preimage_dofs_per_microblock) in *.
    set (mbs := (block_count d * microblocks_per_block d)%Z).
    assert (0 < total * apd)%Z as Hmacro by nia.
    destruct (Z.eqb_spec (total * apd) 0) as [| _]; [lia |].
    exists (- (- (mbs * apd) / (total * apd)))%Z. split; [done |].
    pose proof (Z.div_mod (- (mbs * apd)) (total * apd) ltac:(lia)) as Hdiv.
    pose proof (Z.mod_pos_bound (- (mbs * apd)) (total * apd) Hmacro) as Hmod.
    set (q := (- (mbs * apd) / (total * apd))%Z) in *.
    set (r := (- (mbs * apd) mod (total * apd))%Z) in *.
    split; nia.
  - intros ->. done.
Qed.

(** ** Segments *)

Lemma Qceiling_quotient (n d : Z) :
  (0 < d)%Z -> Qceiling (inject_Z n / inject_Z d) = (- (- n / d))%Z.
Proof.
  intros Hd. destruct d as [| p | p]; try lia.
  unfold Qceiling, Qfloor, Qdiv, Qmult, Qinv, Qopp, inject_Z. simpl.
  by rewrite Z.mul_1_r.
Qed.

Lemma int_ceiling_quotient_spec (n d : Z) :
  (0 < d)%Z ->
  exists c, int_ceiling_quotient n d = Ok c /\ ((c - 1) * d < n <= c * d)%Z.
Proof.
  intros Hd. unfold int_ceiling_quotient.
  destruct (Z.eqb_spec d 0) as [| _]; [lia |].
  rewrite Qceiling_quotient by done. eexists. split; [done |].
  pose proof (Z.div_mod (- n) d ltac:(lia)) as Hdiv.
  pose proof (Z.mod_pos_bound (- n) d Hd) as Hmod.
  split; nia.
Qed.

(** X12.  For a positive segment size, [segments_per_microblock] is the
    least number of segments that cover the aligned floats of a microblock;
    a segment size of 0 gives a [ZeroDivisionError]. *)
Theorem segments_cover_microblock (plan : SegmentedMatrixLocalOpExecutionPlan) :
  ((0 < segment_size plan)%Z ->
   exists n,
     segments_per_microblock plan = Ok n /\
     ((n - 1) * segment_size plan
      < aligned_floats (microblock (seg_given plan))
      <= n * segment_size plan)%Z) /\
  (segment_size plan = 0%Z ->
   segments_per_microblock plan = Raise (ZeroDivisionError "division by zero")).
Proof.
  unfold segments_per_microblock. split.
  - intros Hseg. by apply int_ceiling_quotient_spec.
  - intros ->. done.
Qed.

(** X13.  For positive sizes, no run of [segment_size] consecutive DOFs,
    wherever it starts, falls into more elements than
    [max_elements_touched_by_segment] says. *)
Theorem max_elements_touched_is_a_bound
    (plan : SegmentedMatrixLocalOpExecutionPlan) :
  (0 < segment_size plan)%Z -> (0 < dofs_per_el (seg_given plan))%Z ->
  exists n,
    max_elements_touched_by_segment plan = Ok n /\
    forall offset, (0 <= offset)%Z ->
      (elements_touched (dofs_per_el (seg_given plan)) (segment_size plan) offset
       <= n)%Z.
Proof.
  intros Hseg Hdofs. unfold max_elements_touched_by_segment, elements_touched.
  set (s := segment_size plan) in *. set (d := dofs_per_el (seg_given plan)) in *.
  destruct (Z.ltb_spec s d) as [Hlt | Hge].
  - exists 2%Z. split; [done |]. intros o Ho.
    pose proof (Z.div_mod o d ltac:(lia)) as Ho1.
    pose proof (Z.mod_pos_bound o d Hdofs) as Ho2.
    assert ((o + s - 1) / d < o / d + 2)%Z; [| lia].
    apply Z.div_lt_upper_bound; [done |]. nia.
  - destruct (int_ceiling_quotient_spec s d Hdofs) as (c & -> & Hc).
    exists (c + 1)%Z. split; [done |]. intros o Ho.
    pose proof (Z.div_mod o d ltac:(lia)) as Ho1.
    pose proof (Z.mod_pos_bound o d Hdofs) as Ho2.
    assert ((o + s - 1) / d < o / d + c + 1)%Z; [| lia].
    apply Z.div_lt_upper_bound; [done |]. nia.
Qed.

(** ** The plan generators *)

Lemma py_range_Ok (start stop step : Z) :
  step <> 0%Z -> exists l, py_range start stop step = Ok l.
Proof.
  intros Hstep. unfold py_range.
  destruct (Z.eqb_spec step 0) as [| _]; [done |].
  destruct (0 <? step)%Z; eauto.
Qed.

(** The shared-field plans that both generators end with. *)
Lemma elem_of_diff_shared_field (p : diff_plan) (apd pd aid id : Z) :
  p ∈ (pe ← py_range2 1 (32 + 1);
       inl ← py_range2 1 (MAX_INLINE + 1);
       [DiffSFieldPlan {| parallel := pe; inline := inl; serial := 1 |}
          apd pd aid id])
  <-> exists pe inl, (1 <= pe <= 32)%Z /\ (1 <= inl <= 6)%Z /\
        p = DiffSFieldPlan {| parallel := pe; inline := inl; serial := 1 |}
              apd pd aid id.
Proof.
  unfold py_range2, MAX_INLINE. split.
  - intros (pe & (inl & ->%list_elem_of_singleton & Hinl%elem_of_seqZ)%list_elem_of_bind
             & Hpe%elem_of_seqZ)%list_elem_of_bind.
    exists pe, inl. split_and!; [lia | lia | lia | lia | done].
  - intros (pe & inl & Hpe & Hinl & ->).
    apply list_elem_of_bind. exists pe. split; [| apply elem_of_seqZ; lia].
    apply list_elem_of_bind. exists inl. split; [| apply elem_of_seqZ; lia].
    apply list_elem_of_here.
Qed.

Lemma NoDup_diff_shared_field (apd pd aid id : Z) :
  NoDup (pe ← py_range2 1 (32 + 1);
         inl ← py_range2 1 (MAX_INLINE + 1);
         [DiffSFieldPlan {| parallel := pe; inline := inl; serial := 1 |}
            apd pd aid id]).
Proof.
  apply NoDup_bind; [| | apply NoDup_seqZ].
  - intros pe1 pe2 p _ _
      (inl1 & ->%list_elem_of_singleton & _)%list_elem_of_bind
      (inl2 & [= -> _]%list_elem_of_singleton & _)%list_elem_of_bind.
    done.
  - intros pe _. apply NoDup_bind; [| | apply NoDup_seqZ].
    + intros inl1 inl2 p _ _ ->%list_elem_of_singleton
        [= ->]%list_elem_of_singleton. done.
    + intros inl _. apply NoDup_singleton.
Qed.

Lemma diff_generate_plans_Ok (debug : gset string) (given : PlanGivenData)
    (apd pd aid id : Z) :
  align_size (microblock given) <> 0%Z ->
  diff_generate_plans debug given apd pd aid id
  = Ok (pe ← py_range2 1 (32 + 1);
        inl ← py_range2 1 (MAX_INLINE + 1);
        [DiffSFieldPlan {| parallel := pe; inline := inl; serial := 1 |}
           apd pd aid id]).
Proof.
  intros Halign. unfold diff_generate_plans.
  destruct (py_range_Ok (align_size (microblock given))
              (elements (microblock given) * dofs_per_el given + 1)
              (align_size (microblock given)) Halign) as [sizes ->].
  cbn [mbind except_bind]. unfold py_eq.
  rewrite (bool_decide_eq_false_2 (PyInt _ = _)) by done.
  by rewrite andb_false_r.
Qed.

Lemma diff_generate_plans_zero (debug : gset string) (given : PlanGivenData)
    (apd pd aid id : Z) :
  align_size (microblock given) = 0%Z ->
  diff_generate_plans debug given apd pd aid id
  = Raise (ValueError "range() step argument must not be zero").
Proof. intros Hzero. unfold diff_generate_plans, py_range. by rewrite Hzero. Qed.

(** X14.  Whatever the debug flags and the sizes, the generator of
    [make_diff_plan] yields no segmented-matrix plan: its guard compares the
    number [image_dofs_per_el] with the method object [given.dofs_per_el],
    which is never equal to a number.  For a non-zero alignment size it
    yields exactly the 192 shared-field plans with [parallel] from 1 to 32,
    [inline] from 1 to 6 and [serial] 1, each once; with alignment size 0 the
    [range] of segment sizes raises [ValueError]. *)
Theorem diff_generate_plans_spec (debug : gset string) (given : PlanGivenData)
    (apd pd aid id : Z) :
  (align_size (microblock given) <> 0%Z ->
   exists plans,
     diff_generate_plans debug given apd pd aid id = Ok plans /\
     length plans = 192%nat /\ NoDup plans /\
     forall p, p ∈ plans <->
       exists pe inl, (1 <= pe <= 32)%Z /\ (1 <= inl <= 6)%Z /\
         p = DiffSFieldPlan {| parallel := pe; inline := inl; serial := 1 |}
               apd pd aid id) /\
  (align_size (microblock given) = 0%Z ->
   diff_generate_plans debug given apd pd aid id
   = Raise (ValueError "range() step argument must not be zero")).
Proof.
  split.
  - intros Halign. eexists. split; [by apply diff_generate_plans_Ok |].
    split_and!; [reflexivity | apply NoDup_diff_shared_field |].
    intros p. apply elem_of_diff_shared_field.
  - apply diff_generate_plans_zero.
Qed.

Lemma elem_of_el_local_shared_field (p : el_local_plan) (name : string)
    (apd pd aid id epm mc : Z) :
  p ∈ (pe ← py_range2 1 (32 + 1);
       inl ← py_range2 1 MAX_INLINE;
       [ElSFieldPlan {| parallel := pe; inline := inl; serial := 1 |}
          name apd pd aid id epm mc])
  <-> exists pe inl, (1 <= pe <= 32)%Z /\ (1 <= inl <= 5)%Z /\
        p = ElSFieldPlan {| parallel := pe; inline := inl; serial := 1 |}
              name apd pd aid id epm mc.
Proof.
  unfold py_range2, MAX_INLINE. split.
  - intros (pe & (inl & ->%list_elem_of_singleton & Hinl%elem_of_seqZ)%list_elem_of_bind
             & Hpe%elem_of_seqZ)%list_elem_of_bind.
    exists pe, inl. split_and!; [lia | lia | lia | lia | done].
  - intros (pe & inl & Hpe & Hinl & ->).
    apply list_elem_of_bind. exists pe. split; [| apply elem_of_seqZ; lia].
    apply list_elem_of_bind. exists inl. split; [| apply elem_of_seqZ; lia].
    apply list_elem_of_here.
Qed.

Lemma el_local_generate_plans_Ok (debug : gset string) (given : PlanGivenData)
    (apd pd aid id epm mc : Z) (op_name : string) :
  el_local_generate_plans debug given apd pd aid id epm mc op_name
  = Ok (pe ← py_range2 1 (32 + 1);
        inl ← py_range2 1 MAX_INLINE;
        [ElSFieldPlan {| parallel := pe; inline := inl; serial := 1 |}
           ("cuda_" +:+ op_name) apd pd aid id epm mc]).
Proof.
  unfold el_local_generate_plans, py_eq.
  rewrite (bool_decide_eq_false_2 (PyInt _ = _)) by done.
  by rewrite andb_false_r.
Qed.

(** X15.  The generator of [make_element_local_plan] never raises and, for
    the same reason as that of [make_diff_plan], yields no segmented-matrix
    plan: it yields exactly 160 shared-field plans, with [parallel] from 1 to
    32, [inline] from 1 to 5 only ([range(1, MAX_INLINE)]) and [serial] 1,
    named [cuda_<op_name>]. *)
Theorem el_local_generate_plans_spec (debug : gset string)
    (given : PlanGivenData) (apd pd aid id epm mc : Z) (op_name : string) :
  exists plans,
    el_local_generate_plans debug given apd pd aid id epm mc op_name = Ok plans /\
    length plans = 160%nat /\
    forall p, p ∈ plans <->
      exists pe inl, (1 <= pe <= 32)%Z /\ (1 <= inl <= 5)%Z /\
        p = ElSFieldPlan {| parallel := pe; inline := inl; serial := 1 |}
              ("cuda_" +:+ op_name) apd pd aid id epm mc.
Proof.
  eexists. split; [apply el_local_generate_plans_Ok |].
  split; [reflexivity |]. intros p. apply elem_of_el_local_shared_field.
Qed.

Section MakePlansFacts.

Variable OccupancyRecord : Z -> Z -> Z -> string + Q.
Context {World : Type}.

(** X16.  With the log and the no-plan flags off, a plan that
    [make_diff_plan] returns is a valid shared-field plan with [parallel] in
    1..32, [inline] in 1..6 and [serial] 1, and its cost is the least of the
    benchmark values recorded, the first such in generation order. *)
Theorem make_diff_plan_returns `{ExecutionPlan diff_plan}
    (debug : gset string) (given : PlanGivenData) (order : Z)
    (apd pd aid id : Z)
    (target_func : diff_plan -> World -> bench_result * World) (w : World)
    (p : diff_plan) (c : Q) :
  "cuda_plan_log" ∉ debug ->
  "cuda_no_plan" ∉ debug -> "cuda_no_plan_diff" ∉ debug ->
  let r := make_diff_plan OccupancyRecord debug given order apd pd aid id
             target_func w in
  result r = Ok (p, c) ->
  (exists pe inl, (1 <= pe <= 32)%Z /\ (1 <= inl <= 6)%Z /\
     p = DiffSFieldPlan {| parallel := pe; inline := inl; serial := 1 |}
           apd pd aid id) /\
  invalid_reason OccupancyRecord p = None /\
  exists k, first_min (recorded (trace r)) k p c.
Proof.
  intros _ Hflag1 Hflag2 r Hres. subst r. unfold make_diff_plan in *.
  destruct (decide (align_size (microblock given) = 0%Z)) as [Hzero | Halign].
  { by rewrite (diff_generate_plans_zero debug given apd pd aid id Hzero) in Hres. }
  rewrite (diff_generate_plans_Ok debug given apd pd aid id Halign) in *.
  assert (no_plan "diff" debug = false) as Hflag.
  { apply not_true_is_false. intros [? | ?]%no_plan_iff; done. }
  destruct (optimize_plan_search_returns OccupancyRecord "diff" _ target_func
              false debug 0.5 _ w p c Hflag Hres)
    as (k & res & m & _ & _ & Hp & _ & _ & Hmin).
  apply list_elem_of_filter in Hp as [Hvalid Hp].
  split_and!; [by apply elem_of_diff_shared_field | done | eauto].
Qed.

(** X17.  With the log and the no-plan flags off, a plan that
    [make_element_local_plan] returns is a valid shared-field plan with
    [parallel] in 1..32, [inline] in 1..5 and [serial] 1, and its cost is the
    least of the benchmark values recorded, the first such in generation
    order. *)
Theorem make_element_local_plan_returns `{ExecutionPlan el_local_plan}
    (debug : gset string) (given : PlanGivenData) (order : Z)
    (apd pd aid id epm mc : Z) (op_name : string)
    (target_func : el_local_plan -> World -> bench_result * World) (w : World)
    (p : el_local_plan) (c : Q) :
  "cuda_plan_log" ∉ debug ->
  "cuda_no_plan" ∉ debug -> ("cuda_no_plan_" +:+ op_name) ∉ debug ->
  let r := make_element_local_plan OccupancyRecord debug given order apd pd
             aid id epm mc op_name target_func w in
  result r = Ok (p, c) ->
  (exists pe inl, (1 <= pe <= 32)%Z /\ (1 <= inl <= 5)%Z /\
     p = ElSFieldPlan {| parallel := pe; inline := inl; serial := 1 |}
           ("cuda_" +:+ op_name) apd pd aid id epm mc) /\
  invalid_reason OccupancyRecord p = None /\
  exists k, first_min (recorded (trace r)) k p c.
Proof.
  intros _ Hflag1 Hflag2 r Hres. subst r. unfold make_element_local_plan in *.
  rewrite (el_local_generate_plans_Ok debug given apd pd aid id epm mc op_name) in *.
  assert (no_plan op_name debug = false) as Hflag.
  { apply not_true_is_false. intros [? | ?]%no_plan_iff; done. }
  destruct (optimize_plan_search_returns OccupancyRecord op_name _ target_func
              false debug 0.5 _ w p c Hflag Hres)
    as (k & res & m & _ & _ & Hp & _ & _ & Hmin).
  apply list_elem_of_filter in Hp as [Hvalid Hp].
  split_and!; [by apply elem_of_el_local_shared_field | done | eauto].
Qed.

End MakePlansFacts.

(** * The additional facts on the fixtures *)

Lemma optimize_plan_no_plan_short_circuit_witness :
  exists k p,
    optimize_plan Fixture.toy_occupancy "diff" Fixture.all_plans
      (Fixture.timed Fixture.three_costs) false {[ "cuda_no_plan" ]} 0.5
      (Some "diff-3") 0%nat
    = {| result := Ok (p, 0%Q); final := 0%nat; trace := [] |} /\
    first_max (map (fun q => (q, occupancy_of Fixture.toy_occupancy q))
                 (valid_plans Fixture.toy_occupancy Fixture.all_plans)) k p
      (occupancy_of Fixture.toy_occupancy p).
Proof.
  apply (optimize_plan_no_plan_short_circuit Fixture.toy_occupancy "diff"
           Fixture.all_plans (Fixture.timed Fixture.three_costs) false
           {[ "cuda_no_plan" ]} 0.5 (Some "diff-3") 0%nat).
  - left. by apply elem_of_singleton.
  - vm_compute. discriminate.
Defined.

(** With the log on, the run ends after the first plan, and what was
    invoked was invoked as the trace says. *)
Lemma benchmark_never_sees_invalid_plan_witness :
  (trace (optimize_plan Fixture.toy_occupancy "diff" Fixture.all_plans
            (Fixture.timed Fixture.three_costs) false {[ "cuda_plan_log" ]}
            0.5 (Some "diff-3") 0%nat),
   final (optimize_plan Fixture.toy_occupancy "diff" Fixture.all_plans
            (Fixture.timed Fixture.three_costs) false {[ "cuda_plan_log" ]}
            0.5 (Some "diff-3") 0%nat))
  = benchmark_all (Fixture.timed Fixture.three_costs) [Fixture.full] 0%nat.
Proof.
  destruct (benchmark_never_sees_invalid_plan Fixture.toy_occupancy "diff"
              Fixture.all_plans (Fixture.timed Fixture.three_costs) false
              {[ "cuda_plan_log" ]} 0.5 (Some "diff-3") 0%nat)
    as (_ & _ & Hcalls).
  rewrite Hcalls. reflexivity.
Defined.

Lemma best_occupancy_is_benchmarked_witness :
  exists res, (Fixture.full, res)
    ∈ trace (optimize_plan Fixture.toy_occupancy "diff" Fixture.all_plans
               (Fixture.timed Fixture.three_costs) false ∅ 0.5 None 0%nat).
Proof.
  destruct (best_occupancy_is_benchmarked Fixture.toy_occupancy "diff"
              Fixture.all_plans (Fixture.timed Fixture.three_costs) false ∅ 0.5
              None 0%nat 1) as [Hbest _];
    [reflexivity | by right | vm_compute; discriminate
    | vm_compute; discriminate | reflexivity | exact toy_max_occupancy |].
  apply Hbest; [vm_compute; apply list_elem_of_here | reflexivity].
Defined.

Lemma lower_slack_benchmarks_more_witness :
  (trace (optimize_plan Fixture.toy_occupancy "diff" Fixture.all_plans
            (Fixture.timed Fixture.three_costs) false ∅ 0.5 None 0%nat)).*1
  `sublist_of`
  (trace (optimize_plan Fixture.toy_occupancy "diff" Fixture.all_plans
            (Fixture.timed Fixture.declines) true ∅ 0.1 None 0%nat)).*1.
Proof.
  apply (lower_slack_benchmarks_more Fixture.toy_occupancy "diff"
           Fixture.all_plans (Fixture.timed Fixture.declines)
           (Fixture.timed Fixture.three_costs) true false ∅ 0.1 0.5 None
           0%nat 0%nat).
  - reflexivity.
  - by right.
  - vm_compute. discriminate.
  - intros p Hp. vm_compute in Hp.
    repeat (apply elem_of_cons in Hp as [-> | Hp]);
      [vm_compute; discriminate .. | by apply elem_of_nil in Hp].
Defined.


Lemma max_registers_spec_witness :
  exists r,
    (forall fuel, (8 < fuel)%nat ->
       max_registers PlanFixture.register_file fuel Fixture.full = Some r) /\
    (8 <= r <= 16)%Z /\
    (exists msg, PlanFixture.register_file 10 0 (r + 1) = inl msg) /\
    (forall r', (8 < r' <= r)%Z ->
       exists o, PlanFixture.register_file 10 0 r' = inr o).
Proof.
  destruct (max_registers_spec PlanFixture.register_file Fixture.full)
    as [Hreturns _].
  apply (Hreturns 16%Z); [simpl; lia | by eexists].
Defined.

Lemma microblock_invariants_witness :
  let mb := {| align_size := 16; elements := 4; aligned_floats := 80 |} in
  align_size mb = 16%Z /\
  (1 <= elements mb)%Z /\
  (elements mb * 20 <= aligned_floats mb)%Z /\
  (0 < aligned_floats mb)%Z /\ (16 | aligned_floats mb)%Z /\
  (true = true ->
     (100 * (aligned_floats mb - elements mb * 20) <= 5 * aligned_floats mb)%Z /\
     (aligned_floats mb <= 255 * 16)%Z).
Proof.
  apply (microblock_invariants 16 20 ltac:(reflexivity) ltac:(reflexivity) true).
  reflexivity.
Defined.

Lemma microblock_search_outcome_witness :
  exists mb, _find_microblock_size 16 20 true = Ok mb.
Proof.
  destruct (microblock_search_outcome 16 20 ltac:(reflexivity) ltac:(reflexivity))
    as [Hfound _].
  apply Hfound. lia.
Defined.

Lemma microblock_zero_sizes_witness :
  _find_microblock_size 0 20 true
  = Raise (ZeroDivisionError "division by zero").
Proof.
  destruct (microblock_zero_sizes 0 20) as [_ Hzero]. apply Hzero. lia.
Defined.

Lemma decomposed_blocks_witness :
  let d := post_decomposition PlanFixture.descriptor 3 5 in
  (elements_per_block d * 20 <= dofs_per_block d)%Z /\
  (16 | dofs_per_block d)%Z /\
  total_dofs d = (3 * 5 * 80)%Z /\
  ((1 <= 5)%Z -> (1 <= elements_per_block d)%Z).
Proof.
  apply (decomposed_blocks (fun float_size => 64 / float_size)%Z 20 4 6 true
           PlanFixture.descriptor 3 5); [reflexivity | reflexivity | | lia].
  reflexivity.
Defined.

Lemma matmul_preimage_shape_macroblocks_witness :
  exists n,
    matmul_preimage_shape (post_decomposition PlanFixture.descriptor 3 5) 80
      (preimage_dofs_per_macroblock PlanFixture.segmented 80)
    = Ok (n * preimage_dofs_per_macroblock PlanFixture.segmented 80)%Z /\
    ((n - 1) * 4 < 3 * 5 <= n * 4)%Z.
Proof.
  destruct (matmul_preimage_shape_macroblocks
              (post_decomposition PlanFixture.descriptor 3 5)
              PlanFixture.segmented 80) as [Hshape _].
  apply Hshape; reflexivity.
Defined.

Lemma segments_cover_microblock_witness :
  exists n,
    segments_per_microblock PlanFixture.segmented = Ok n /\
    ((n - 1) * 32 < 80 <= n * 32)%Z.
Proof.
  destruct (segments_cover_microblock PlanFixture.segmented) as [Hcover _].
  apply Hcover. reflexivity.
Defined.

Lemma max_elements_touched_is_a_bound_witness :
  exists n,
    max_elements_touched_by_segment PlanFixture.segmented = Ok n /\
    forall offset, (0 <= offset)%Z -> (elements_touched 20 32 offset <= n)%Z.
Proof.
  apply (max_elements_touched_is_a_bound PlanFixture.segmented); reflexivity.
Defined.

Lemma diff_generate_plans_spec_witness :
  exists plans,
    diff_generate_plans ∅ PlanFixture.descriptor 80 20 80 20 = Ok plans /\
    length plans = 192%nat /\ NoDup plans /\
    forall p, p ∈ plans <->
      exists pe inl, (1 <= pe <= 32)%Z /\ (1 <= inl <= 6)%Z /\
        p = DiffSFieldPlan {| parallel := pe; inline := inl; serial := 1 |}
              80 20 80 20.
Proof.
  destruct (diff_generate_plans_spec ∅ PlanFixture.descriptor 80 20 80 20)
    as [Hplans _].
  apply Hplans. simpl. lia.
Defined.

Lemma make_diff_plan_returns_witness :
  let p := DiffSFieldPlan {| parallel := 5; inline := 1; serial := 1 |}
             80 20 80 20 in
  (exists pe inl, (1 <= pe <= 32)%Z /\ (1 <= inl <= 6)%Z /\
     p = DiffSFieldPlan {| parallel := pe; inline := inl; serial := 1 |}
           80 20 80 20) /\
  invalid_reason (H := PlanFixture.diff_execution_plan) Fixture.toy_occupancy p
  = None /\
  exists k,
    first_min
      (recorded
         (trace (make_diff_plan (H := PlanFixture.diff_execution_plan)
                   Fixture.toy_occupancy ∅ PlanFixture.descriptor 3 80 20 80 20
                   PlanFixture.diff_cost 0%nat))) k p 1.
Proof.
  apply (make_diff_plan_returns (H := PlanFixture.diff_execution_plan)
           Fixture.toy_occupancy ∅ PlanFixture.descriptor 3 80 20 80 20
           PlanFixture.diff_cost 0%nat).
  - apply not_elem_of_empty.
  - apply not_elem_of_empty.
  - apply not_elem_of_empty.
  - vm_compute. reflexivity.
Defined.

Lemma make_element_local_plan_returns_witness :
  let p := ElSFieldPlan {| parallel := 5; inline := 1; serial := 1 |}
             "cuda_lift" 80 20 80 20 4 7 in
  (exists pe inl, (1 <= pe <= 32)%Z /\ (1 <= inl <= 5)%Z /\
     p = ElSFieldPlan {| parallel := pe; inline := inl; serial := 1 |}
           "cuda_lift" 80 20 80 20 4 7) /\
  invalid_reason (H := PlanFixture.el_local_execution_plan)
    Fixture.toy_occupancy p = None /\
  exists k,
    first_min
      (recorded
         (trace (make_element_local_plan
                   (H := PlanFixture.el_local_execution_plan)
                   Fixture.toy_occupancy ∅ PlanFixture.descriptor 3 80 20 80
                   20 4 7 "lift" PlanFixture.el_local_cost 0%nat))) k p 1.
Proof.
  apply (make_element_local_plan_returns
           (H := PlanFixture.el_local_execution_plan)
           Fixture.toy_occupancy ∅ PlanFixture.descriptor 3 80 20 80 20 4 7
           "lift" PlanFixture.el_local_cost 0%nat).
  - apply not_elem_of_empty.
  - apply not_elem_of_empty.
  - apply not_elem_of_empty.
  - vm_compute. reflexivity.
Defined.

(** * More about the compiled vector expressions *)

(** ** Generated names *)

Lemma fmt_d_inj (i j : nat) : fmt_d i = fmt_d j -> i = j.
Proof.
  unfold fmt_d. intros Heq. apply Unsigned.to_uint_inj.
  pose proof (NilEmpty.usu (Nat.to_uint i)) as Hi.
  pose proof (NilEmpty.usu (Nat.to_uint j)) as Hj.
  rewrite Heq in Hi. congruence.
Qed.

Lemma NoDup_numbered_names (prefix : string) (n : nat) :
  NoDup (map (fun i => prefix +:+ fmt_d i) (seq 0 n)).
Proof.
  apply (NoDup_fmap_2_strong (fun i => prefix +:+ fmt_d i)); [| apply NoDup_seq].
  intros i j _ _ Heq. apply fmt_d_inj. by apply (inj (String.append prefix)).
Qed.

Lemma elem_of_numbered_names (prefix x : string) (n : nat) :
  x ∈ map (fun i => prefix +:+ fmt_d i) (seq 0 n) ->
  exists i, x = prefix +:+ fmt_d i.
Proof.
  intros (i & -> & _)%(list_elem_of_fmap (fun i => prefix +:+ fmt_d i)). eauto.
Qed.

Lemma elem_of_take_names (x : string) (n : nat) (names : list string) :
  x ∈ take n names -> x ∈ names.
Proof.
  intros (i & Hi & _)%elem_of_take. by apply list_elem_of_lookup_2 in Hi.
Qed.

Lemma vector_arg_names (names : list string) : forall dtypes : list dtype,
  map arg_name (map (fun '(d, name) => VectorArg d name) (zip dtypes names))
  = take (length dtypes) names.
Proof.
  induction names as [| name names IH]; intros [| d dtypes]; simpl; try done.
  by rewrite IH.
Qed.

Lemma scalar_arg_names (names : list string) : forall dtypes : list dtype,
  map arg_name (map (fun '(d, name) => ScalarArg d name) (zip dtypes names))
  = take (length dtypes) names.
Proof.
  induction names as [| name names IH]; intros [| d dtypes]; simpl; try done.
  by rewrite IH.
Qed.

Lemma zip_numbered_names {A : Type} (arg : dtype -> string -> A)
    (prefix : string) (indices : list nat) : forall dtypes : list dtype,
  map (fun '(d, name) => arg d name)
    (zip dtypes (map (fun i => prefix +:+ fmt_d i) indices))
  = map (fun '(d, i) => arg d (prefix +:+ fmt_d i)) (zip dtypes indices).
Proof.
  induction indices as [| i indices IH]; intros [| d dtypes]; simpl; try done.
  by rewrite IH.
Qed.

(** The names that [get_kernel] declares, for any numbers of results,
    dependencies and dtypes. *)
Lemma generated_names_distinct (n nv ns kv ks : nat) :
  let names :=
    map (fun i => "_result" +:+ fmt_d i) (seq 0 n)
    ++ take kv (map (fun i => "v" +:+ fmt_d i) (seq 0 nv))
    ++ take ks (map (fun i => "s" +:+ fmt_d i) (seq 0 ns)) in
  NoDup names /\ "i" ∉ names.
Proof.
  simpl. split.
  - apply NoDup_app. split_and!; [apply NoDup_numbered_names | |].
    + intros x [i ->]%elem_of_numbered_names
        [[j Hj]%elem_of_take_names%elem_of_numbered_names
        | [j Hj]%elem_of_take_names%elem_of_numbered_names]%elem_of_app;
        discriminate Hj.
    + apply NoDup_app. split_and!.
      * eapply sublist_NoDup; [apply NoDup_numbered_names | apply sublist_take].
      * intros x [i ->]%elem_of_take_names%elem_of_numbered_names
          [j Hj]%elem_of_take_names%elem_of_numbered_names.
        discriminate Hj.
      * eapply sublist_NoDup; [apply NoDup_numbered_names | apply sublist_take].
  - intros [[i Hi]%elem_of_numbered_names
           | [[i Hi]%elem_of_take_names%elem_of_numbered_names
             | [i Hi]%elem_of_take_names%elem_of_numbered_names]%elem_of_app]%elem_of_app;
      discriminate Hi.
Qed.

(** ** The substitution mapper and the builder, on supported nodes *)

Lemma mapM_Ok_length {A B : Type} (f : A -> except B) (es : list A) :
  forall rs, mapM f es = Ok rs -> length rs = length es.
Proof.
  induction es as [| e es IH]; intros rs; simpl.
  - by intros [= <-].
  - destruct (f e) as [r |]; simpl; [| done].
    destruct (mapM f es) as [rs' |]; simpl; [| done].
    intros [= <-]. simpl. by rewrite (IH rs').
Qed.

Lemma mapM_Ok_total {A B : Type} (f : A -> except B) (es : list A) :
  Forall (fun e => exists r, f e = Ok r) es -> exists rs, mapM f es = Ok rs.
Proof.
  induction 1 as [| e es [r Hr] _ [rs Hrs]]; simpl; [by eexists |].
  rewrite Hr. simpl. rewrite Hrs. simpl. by eexists.
Qed.

(** On nodes of supported classes the mapper does not raise, whatever the
    substitution. *)
Lemma mapper_total (sigma : expr -> option expr) (e : expr) :
  (forall s, s ∈ subexprs e -> ~ is_foreign s) ->
  exists r, DefaultingSubstitutionMapper sigma e = Ok r.
Proof.
  induction e as [name | value | cs IH | cs IH | a b IHa IHb | a b IHa IHb
                 | a i IHa IHi | a name IHa | f ps IHf IHps | c IHc | cls]
    using expr_children_ind; intros Hsupp; simpl in *.
  - destruct (sigma (Var name)); eauto.
  - eauto.
  - destruct (mapM_Ok_total (DefaultingSubstitutionMapper sigma) cs) as [rs ->];
      [| simpl; eauto].
    apply Forall_forall. intros c Hc. rewrite Forall_forall in IH.
    apply IH; [done |]. intros s Hs. apply Hsupp.
    apply elem_of_cons; right; apply elem_of_flat_map_subexprs; eauto.
  - destruct (mapM_Ok_total (DefaultingSubstitutionMapper sigma) cs) as [rs ->];
      [| simpl; eauto].
    apply Forall_forall. intros c Hc. rewrite Forall_forall in IH.
    apply IH; [done |]. intros s Hs. apply Hsupp.
    apply elem_of_cons; right; apply elem_of_flat_map_subexprs; eauto.
  - destruct IHa as [a' ->]; [intros s Hs; apply Hsupp; set_solver |].
    destruct IHb as [b' ->]; [intros s Hs; apply Hsupp; set_solver |].
    simpl. eauto.
  - destruct IHa as [a' ->]; [intros s Hs; apply Hsupp; set_solver |].
    destruct IHb as [b' ->]; [intros s Hs; apply Hsupp; set_solver |].
    simpl. eauto.
  - destruct (sigma (Subscript a i)); [eauto |].
    destruct IHa as [a' ->]; [intros s Hs; apply Hsupp; set_solver |].
    destruct IHi as [i' ->]; [intros s Hs; apply Hsupp; set_solver |].
    simpl. eauto.
  - destruct (sigma (Lookup a name)); [eauto |].
    destruct IHa as [a' ->]; [intros s Hs; apply Hsupp; set_solver |].
    simpl. eauto.
  - destruct IHf as [f' ->]; [intros s Hs; apply Hsupp; set_solver |]. simpl.
    destruct (mapM_Ok_total (DefaultingSubstitutionMapper sigma) ps) as [rs ->];
      [| simpl; eauto].
    apply Forall_forall. intros c Hc. rewrite Forall_forall in IHps.
    apply IHps; [done |]. intros s Hs. apply Hsupp.
    apply elem_of_cons; right; apply elem_of_app; right;
      apply elem_of_flat_map_subexprs; eauto.
  - destruct IHc as [c' ->]; [intros s Hs; apply Hsupp; set_solver |].
    simpl. eauto.
  - exfalso. apply (Hsupp (Foreign cls)); [set_solver | done].
Qed.

Section BuilderMore.

Variable set_iter : list expr -> list expr.

(** On supported nodes construction succeeds. *)
Lemma init_supported (vec_exprs : list expr) (is_vector_func : expr -> bool)
    (getter : list (expr * dtype) -> list (expr * dtype) -> except dtype) :
  vec_exprs <> [] ->
  (forall e s, e ∈ vec_exprs -> s ∈ subexprs e -> ~ is_foreign s) ->
  exists b,
    CompiledVectorExpressionBase_init set_iter vec_exprs is_vector_func getter
    = Ok b /\
    length (exprs b) = length vec_exprs /\
    length (vector_names b) = length (vector_exprs b) /\
    length (scalar_names b) = length (scalar_exprs b).
Proof.
  intros Hne Hsupp. unfold CompiledVectorExpressionBase_init.
  destruct (dependencies set_iter vec_exprs) as [deps |] eqn:Hdeps;
    [| by destruct vec_exprs].
  simpl.
  match goal with
  | |- context [mapM ?f vec_exprs] =>
      destruct (mapM_Ok_total f vec_exprs) as [es Hes]
  end.
  { apply Forall_forall. intros e He. apply mapper_total.
    intros s Hs. by apply (Hsupp e). }
  rewrite Hes. simpl. eexists. split; [done |]. simpl.
  split_and!; [by apply mapM_Ok_length in Hes | |];
    by rewrite length_map, length_seq.
Qed.

(** X18.  Constructing a builder on an empty list of target expressions
    raises the [TypeError] of [reduce] on an empty sequence.  On a non-empty
    list of targets made of nodes of supported classes only, construction
    succeeds, whatever the classifier: there is one rewritten expression
    per target, and one generated name per vector and per scalar
    dependency. *)
Theorem builder_construction_outcome (vec_exprs : list expr)
    (is_vector_func : expr -> bool)
    (getter : list (expr * dtype) -> list (expr * dtype) -> except dtype) :
  (vec_exprs = [] ->
   CompiledVectorExpressionBase_init set_iter vec_exprs is_vector_func getter
   = Raise (TypeError "reduce() of empty sequence with no initial value")) /\
  (vec_exprs <> [] ->
   (forall e s, e ∈ vec_exprs -> s ∈ subexprs e -> ~ is_foreign s) ->
   exists b,
     CompiledVectorExpressionBase_init set_iter vec_exprs is_vector_func getter
     = Ok b /\
     length (exprs b) = length vec_exprs /\
     length (vector_names b) = length (vector_exprs b) /\
     length (scalar_names b) = length (scalar_exprs b)).
Proof.
  split.
  - intros ->. reflexivity.
  - apply init_supported.
Qed.

End BuilderMore.

(** ** The rewrite step against the words of the spec *)

Lemma index_of_Some (e : expr) (l : list expr) (k : nat) :
  index_of e l = Some k -> l !! k = Some e.
Proof.
  unfold index_of. destruct (list_find _ l) as [[k' x] |] eqn:Hfind; [| done].
  simpl. intros [= <-]. by apply list_find_Some in Hfind as (Hk & -> & _).
Qed.

Lemma index_of_None (e : expr) (l : list expr) :
  index_of e l = None <-> e ∉ l.
Proof.
  unfold index_of. rewrite fmap_None, list_find_None, Forall_forall.
  split; [intros Hall He; by apply (Hall e) | intros He x Hx ->; done].
Qed.

Lemma index_of_lookup (e : expr) (l : list expr) (k : nat) :
  NoDup l -> l !! k = Some e -> index_of e l = Some k.
Proof.
  intros Hnodup Hk. unfold index_of.
  assert (list_find (fun x => x = e) l = Some (k, e)) as ->; [| done].
  apply list_find_Some. split_and!; [done .. |].
  intros j y Hj Hlt ->. pose proof (NoDup_lookup l j k e Hnodup Hj Hk). lia.
Qed.

(** The substitution that [__init__] sets up is the one the spec words. *)
Lemma builder_subst_func_spec (vs ss : list expr) (x : expr) :
  NoDup (vs ++ ss) ->
  builder_subst_func vs ss x = spec_reference vs ss x.
Proof.
  intros Hnodup. unfold spec_reference.
  destruct (index_of x vs) as [k |] eqn:Hv.
  { apply index_of_Some in Hv. by apply builder_subst_vector. }
  destruct (index_of x ss) as [k |] eqn:Hs.
  { apply index_of_Some in Hs. by apply builder_subst_scalar. }
  apply builder_subst_other; by apply index_of_None.
Qed.

Lemma spec_reference_None (vs ss : list expr) (x : expr) :
  spec_reference vs ss x = None <-> (x ∉ vs) /\ (x ∉ ss).
Proof.
  unfold spec_reference. rewrite <- !index_of_None.
  destruct (index_of x vs), (index_of x ss); naive_solver.
Qed.

Lemma spec_reference_vector (vs ss : list expr) (k : nat) (dep : expr) :
  NoDup (vs ++ ss) -> vs !! k = Some dep ->
  spec_reference vs ss dep = Some (Subscript (Var ("v" +:+ fmt_d k)) (Var "i")).
Proof.
  intros [Hvs _]%NoDup_app Hk. unfold spec_reference.
  by rewrite (index_of_lookup dep vs k).
Qed.

Lemma spec_reference_scalar (vs ss : list expr) (k : nat) (dep : expr) :
  NoDup (vs ++ ss) -> ss !! k = Some dep ->
  spec_reference vs ss dep = Some (Var ("s" +:+ fmt_d k)).
Proof.
  intros (_ & Hdisj & Hss)%NoDup_app Hk. unfold spec_reference.
  assert (index_of dep vs = None) as ->.
  { apply index_of_None. intros Hin. apply (Hdisj dep Hin).
    by apply list_elem_of_lookup_2 in Hk. }
  by rewrite (index_of_lookup dep ss k).
Qed.

Lemma unmapped_unsupported_nil (deps : list expr) (e : expr) :
  unmapped_unsupported deps e = []
  <-> forall s, s ∈ uncovered deps e -> is_foreign s -> s ∈ deps.
Proof.
  unfold unmapped_unsupported. split.
  - intros Hnil s Hs Hforeign. destruct (decide (s ∈ deps)) as [| Hout]; [done |].
    assert (s ∈ filter (fun s => is_foreign s /\ s ∉ deps) (uncovered deps e))
      as Hin by (by apply list_elem_of_filter).
    rewrite Hnil in Hin. by apply elem_of_nil in Hin.
  - intros Hall.
    destruct (filter _ (uncovered deps e)) as [| s rest] eqn:Hfilter; [done |].
    assert (s ∈ filter (fun s => is_foreign s /\ s ∉ deps) (uncovered deps e))
      as [[Hforeign Hout] Hs]%list_elem_of_filter
      by (rewrite Hfilter; apply list_elem_of_here).
    destruct Hout. by apply Hall.
Qed.

Lemma elem_of_flat_map_uncovered (deps : list expr) (s : expr) (es : list expr) :
  s ∈ flat_map (uncovered deps) es <-> exists e, e ∈ es /\ s ∈ uncovered deps e.
Proof.
  rewrite list_elem_of_In, in_flat_map. by setoid_rewrite list_elem_of_In.
Qed.


Lemma mapM_Ok_map {A B : Type} (f : A -> except B) (g : A -> B) (es : list A) :
  Forall (fun e => f e = Ok (g e)) es -> mapM f es = Ok (map g es).
Proof.
  induction 1 as [| e es He _ IH]; [done |]. simpl. by rewrite He, IH.
Qed.

Lemma mapM_Raise {A B : Type} (f : A -> except B) (err : exn) (es : list A) :
  Forall (fun e => (exists r, f e = Ok r) \/ f e = Raise err) es ->
  Exists (fun e => f e = Raise err) es ->
  mapM f es = Raise err.
Proof.
  induction 1 as [| e es He _ IH]; intros Hex.
  - by apply Exists_nil in Hex.
  - simpl. destruct He as [[r Hr] | Hr]; [| by rewrite Hr].
    rewrite Hr. simpl. apply Exists_cons in Hex as [Hex | Hex]; [congruence |].
    by rewrite IH.
Qed.

Local Abbreviation refused :=
  (ValueError "DefaultingSubstitutionMapper cannot handle expressions of this type").

(** The mapper returns, or raises the one error it has. *)
Lemma mapper_outcome (sigma : expr -> option expr) (e : expr) :
  (exists r, DefaultingSubstitutionMapper sigma e = Ok r)
  \/ DefaultingSubstitutionMapper sigma e = Raise refused.
Proof.
  assert (forall cs,
            Forall (fun c =>
                      (exists r, DefaultingSubstitutionMapper sigma c = Ok r)
                      \/ DefaultingSubstitutionMapper sigma c = Raise refused) cs ->
            (exists rs, mapM (DefaultingSubstitutionMapper sigma) cs = Ok rs)
            \/ mapM (DefaultingSubstitutionMapper sigma) cs = Raise refused)
    as Hall.
  { induction 1 as [| c cs [[r Hr] | Hr] _ [[rs Hrs] | Hrs]]; simpl;
      rewrite ?Hr; simpl; rewrite ?Hrs; simpl; eauto. }
  induction e as [name | value | cs IH | cs IH | a b IHa IHb | a b IHa IHb
                 | a i IHa IHi | a name IHa | f ps IHf IHps | c IHc | cls]
    using expr_children_ind; simpl.
  - destruct (sigma (Var name)); eauto.
  - eauto.
  - destruct (Hall cs IH) as [[rs ->] | ->]; simpl; eauto.
  - destruct (Hall cs IH) as [[rs ->] | ->]; simpl; eauto.
  - destruct IHa as [[a' ->] | ->]; simpl; [| eauto].
    destruct IHb as [[b' ->] | ->]; simpl; eauto.
  - destruct IHa as [[a' ->] | ->]; simpl; [| eauto].
    destruct IHb as [[b' ->] | ->]; simpl; eauto.
  - destruct (sigma (Subscript a i)); [eauto |].
    destruct IHa as [[a' ->] | ->]; simpl; [| eauto].
    destruct IHi as [[i' ->] | ->]; simpl; eauto.
  - destruct (sigma (Lookup a name)); [eauto |].
    destruct IHa as [[a' ->] | ->]; simpl; eauto.
  - destruct IHf as [[f' ->] | ->]; simpl; [| eauto].
    destruct (Hall ps IHps) as [[rs ->] | ->]; simpl; eauto.
  - destruct IHc as [[c' ->] | ->]; simpl; eauto.
  - unfold handle_unsupported_expression.
    destruct (sigma (Foreign cls)); eauto.
Qed.

Section RewriteStep.

Variable sigma : expr -> option expr.
Variables deps vector scalar : list expr.
Hypothesis sigma_spec : forall x, sigma x = spec_reference vector scalar x.
Hypothesis deps_split : forall x, x ∈ deps <-> x ∈ vector \/ x ∈ scalar.
Hypothesis deps_kind : forall x, x ∈ deps -> dependency_kind x.

Lemma sigma_None (x : expr) : x ∉ deps -> sigma x = None.
Proof.
  intros Hout. rewrite sigma_spec. apply spec_reference_None.
  split; intros Hin; apply Hout, deps_split; eauto.
Qed.

Lemma sigma_Some (x : expr) : x ∈ deps -> is_Some (sigma x).
Proof.
  intros Hin. rewrite sigma_spec.
  destruct (spec_reference vector scalar x) eqn:Hnone; [done |].
  apply spec_reference_None in Hnone as [Hv Hs].
  apply deps_split in Hin as [? | ?]; done.
Qed.

Lemma not_dependency (x : expr) : ~ dependency_kind x -> x ∉ deps.
Proof. intros Hkind Hin. by apply Hkind, deps_kind. Qed.

Ltac not_a_dependency :=
  apply not_dependency; intros Hkind; exact Hkind.

(** With every unsupported node it comes across in the map, the mapper gives
    the expression of the spec. *)
Lemma mapper_substitutes (e : expr) :
  (forall s, s ∈ uncovered deps e -> is_foreign s -> s ∈ deps) ->
  DefaultingSubstitutionMapper sigma e = Ok (spec_substituted vector scalar e).
Proof.
  induction e as [name | value | cs IH | cs IH | a b IHa IHb | a b IHa IHb
                 | a i IHa IHi | a name IHa | f ps IHf IHps | c IHc | cls]
    using expr_children_ind; intros Hsupp; simpl in *.
  - rewrite sigma_spec. by destruct (spec_reference vector scalar (Var name)).
  - rewrite <- sigma_spec, sigma_None; [done | not_a_dependency].
  - rewrite <- sigma_spec, sigma_None by not_a_dependency.
    rewrite decide_False in Hsupp by not_a_dependency.
    rewrite (mapM_Ok_map _ (spec_substituted vector scalar)); [done |].
    apply Forall_forall. intros c Hc. rewrite Forall_forall in IH.
    apply IH; [done |]. intros s Hs. apply Hsupp.
    apply elem_of_cons; right; apply elem_of_flat_map_uncovered; eauto.
  - rewrite <- sigma_spec, sigma_None by not_a_dependency.
    rewrite decide_False in Hsupp by not_a_dependency.
    rewrite (mapM_Ok_map _ (spec_substituted vector scalar)); [done |].
    apply Forall_forall. intros c Hc. rewrite Forall_forall in IH.
    apply IH; [done |]. intros s Hs. apply Hsupp.
    apply elem_of_cons; right; apply elem_of_flat_map_uncovered; eauto.
  - rewrite <- sigma_spec, sigma_None by not_a_dependency.
    rewrite decide_False in Hsupp by not_a_dependency.
    rewrite IHa, IHb; [done | |]; intros s Hs; apply Hsupp; set_solver.
  - rewrite <- sigma_spec, sigma_None by not_a_dependency.
    rewrite decide_False in Hsupp by not_a_dependency.
    rewrite IHa, IHb; [done | |]; intros s Hs; apply Hsupp; set_solver.
  - rewrite <- sigma_spec.
    destruct (decide (Subscript a i ∈ deps)) as [Hin | Hout].
    { by destruct (sigma_Some _ Hin) as [r ->]. }
    rewrite sigma_None by done.
    rewrite IHa, IHi; [done | |]; intros s Hs; apply Hsupp; set_solver.
  - rewrite <- sigma_spec.
    destruct (decide (Lookup a name ∈ deps)) as [Hin | Hout].
    { by destruct (sigma_Some _ Hin) as [r ->]. }
    rewrite sigma_None by done.
    rewrite IHa; [done |]; intros s Hs; apply Hsupp; set_solver.
  - rewrite <- sigma_spec, sigma_None by not_a_dependency.
    rewrite decide_False in Hsupp by not_a_dependency.
    rewrite IHf by (intros s Hs; apply Hsupp; set_solver). simpl.
    rewrite (mapM_Ok_map _ (spec_substituted vector scalar)); [done |].
    apply Forall_forall. intros c Hc. rewrite Forall_forall in IHps.
    apply IHps; [done |]. intros s Hs. apply Hsupp.
    apply elem_of_cons; right; apply elem_of_app; right;
      apply elem_of_flat_map_uncovered; eauto.
  - rewrite <- sigma_spec, sigma_None by not_a_dependency.
    rewrite decide_False in Hsupp by not_a_dependency.
    rewrite IHc; [done |]; intros s Hs; apply Hsupp; set_solver.
  - unfold handle_unsupported_expression. rewrite <- sigma_spec.
    assert (Foreign cls ∈ deps) as Hin by (apply Hsupp; [set_solver | done]).
    by destruct (sigma_Some _ Hin) as [r ->].
Qed.

(** An unsupported node that it comes across and that is not in the map
    makes the mapper raise. *)
Lemma mapper_refuses (e s : expr) :
  s ∈ uncovered deps e -> is_foreign s -> s ∉ deps ->
  DefaultingSubstitutionMapper sigma e = Raise refused.
Proof.
  intros Hs Hforeign Hout. revert Hs.
  assert (forall cs,
            Forall (fun c => s ∈ uncovered deps c ->
                      DefaultingSubstitutionMapper sigma c = Raise refused) cs ->
            s ∈ flat_map (uncovered deps) cs ->
            mapM (DefaultingSubstitutionMapper sigma) cs = Raise refused)
    as Hall.
  { intros cs IH (c & Hc & Hs)%elem_of_flat_map_uncovered.
    apply mapM_Raise.
    - apply Forall_forall. intros c' _. apply mapper_outcome.
    - apply Exists_exists. exists c. split; [done |].
      rewrite Forall_forall in IH. by apply IH. }
  induction e as [name | value | cs IH | cs IH | a b IHa IHb | a b IHa IHb
                 | a i IHa IHi | a name IHa | f ps IHf IHps | c IHc | cls]
    using expr_children_ind; simpl;
    intros [-> | Hs]%elem_of_cons; try done.
  - by destruct (decide (Var name ∈ deps)); apply elem_of_nil in Hs.
  - by destruct (decide (Constant value ∈ deps)); apply elem_of_nil in Hs.
  - rewrite decide_False in Hs by not_a_dependency.
    by rewrite Hall.
  - rewrite decide_False in Hs by not_a_dependency.
    by rewrite Hall.
  - rewrite decide_False in Hs by not_a_dependency.
    apply elem_of_app in Hs as [Hs | Hs]; [by rewrite IHa |].
    destruct (mapper_outcome sigma a) as [[a' ->] | ->]; [| done].
    simpl. by rewrite IHb.
  - rewrite decide_False in Hs by not_a_dependency.
    apply elem_of_app in Hs as [Hs | Hs]; [by rewrite IHa |].
    destruct (mapper_outcome sigma a) as [[a' ->] | ->]; [| done].
    simpl. by rewrite IHb.
  - destruct (decide (Subscript a i ∈ deps)) as [Hin | Hnot];
      [by apply elem_of_nil in Hs |].
    rewrite sigma_None by done.
    apply elem_of_app in Hs as [Hs | Hs]; [by rewrite IHa |].
    destruct (mapper_outcome sigma a) as [[a' ->] | ->]; [| done].
    simpl. by rewrite IHi.
  - destruct (decide (Lookup a name ∈ deps)) as [Hin | Hnot];
      [by apply elem_of_nil in Hs |].
    rewrite sigma_None by done. by rewrite IHa.
  - rewrite decide_False in Hs by not_a_dependency.
    apply elem_of_app in Hs as [Hs | Hs]; [by rewrite IHf |].
    destruct (mapper_outcome sigma f) as [[f' ->] | ->]; [| done].
    simpl. by rewrite Hall.
  - rewrite decide_False in Hs by not_a_dependency.
    by rewrite IHc.
  - unfold handle_unsupported_expression. by rewrite sigma_None.
  - by destruct (decide (Foreign cls ∈ deps)); apply elem_of_nil in Hs.
Qed.

End RewriteStep.

(** ** Builder construction, for any lawful iteration order *)

Section BuilderClaims.

Variable set_iter : list expr -> list expr.
Hypothesis set_iter_lawful : lawful_iteration set_iter.

(** What [__init__] comes to on a non-empty list of targets. *)
Lemma init_outcome (vec_exprs : list expr) (is_vector_func : expr -> bool)
    (getter : list (expr * dtype) -> list (expr * dtype) -> except dtype) :
  vec_exprs <> [] ->
  exists deps,
    dependencies set_iter vec_exprs = Ok deps /\ NoDup deps /\
    (forall dep, dep ∈ deps
       <-> exists ve, ve ∈ vec_exprs /\ dep ∈ dep_mapper set_iter ve) /\
    let vector := filter (fun dep => is_vector_func dep) deps in
    let scalar := filter (fun dep => ¬ is_vector_func dep) deps in
    ((forall ve, ve ∈ vec_exprs -> unmapped_unsupported deps ve = []) ->
     CompiledVectorExpressionBase_init set_iter vec_exprs is_vector_func getter
     = Ok {| vec_exprs := vec_exprs;
             is_vector_func := is_vector_func;
             result_dtype_getter := getter;
             vector_exprs := vector;
             scalar_exprs := scalar;
             vector_names :=
               map (fun i => "v" +:+ fmt_d i) (seq 0 (length vector));
             scalar_names :=
               map (fun i => "s" +:+ fmt_d i) (seq 0 (length scalar));
             exprs := map (spec_substituted vector scalar) vec_exprs |}) /\
    (forall ve s, ve ∈ vec_exprs -> s ∈ unmapped_unsupported deps ve ->
     CompiledVectorExpressionBase_init set_iter vec_exprs is_vector_func getter
     = Raise refused).
Proof.
  intros Hne. destruct set_iter_lawful as [Helem Hnodup].
  destruct (dependencies_spec set_iter Helem Hnodup vec_exprs Hne)
    as (deps & Hdeps & Hnd & Hfrom).
  exists deps. split_and!; [done .. |]. intros vector scalar.
  assert (forall x, builder_subst_func vector scalar x
                    = spec_reference vector scalar x) as Hsigma.
  { intros x. apply builder_subst_func_spec. by apply partition_NoDup. }
  assert (forall x, x ∈ deps <-> x ∈ vector \/ x ∈ scalar) as Hsplit.
  { intros x. unfold vector, scalar. rewrite !list_elem_of_filter.
    destruct (is_vector_func x); simpl; naive_solver. }
  assert (forall x, x ∈ deps -> dependency_kind x) as Hkind.
  { intros x (ve & _ & Hx)%Hfrom.
    by apply (dep_mapper_kind set_iter Helem Hnodup ve). }
  unfold CompiledVectorExpressionBase_init. rewrite Hdeps. simpl.
  fold vector scalar. fold (builder_subst_func vector scalar). split.
  - intros Hsupp.
    rewrite (mapM_Ok_map _ (spec_substituted vector scalar)); [done |].
    apply Forall_forall. intros ve Hve.
    apply (mapper_substitutes _ deps); [done .. |].
    by apply unmapped_unsupported_nil, Hsupp.
  - intros ve s Hve [[Hforeign Hout] Hs]%list_elem_of_filter.
    rewrite (mapM_Raise _ refused); [done | |].
    + apply Forall_forall. intros ve' _. apply mapper_outcome.
    + apply Exists_exists. exists ve. split; [done |].
      by apply (mapper_refuses _ deps vector scalar Hsigma Hsplit Hkind ve s).
Qed.

(** The dependencies collected do not depend on the order of iteration. *)
Lemma init_deps (vec_exprs : list expr) (is_vector_func : expr -> bool)
    (getter : list (expr * dtype) -> list (expr * dtype) -> except dtype)
    (b : CompiledVectorExpressionBase) (deps : list expr) :
  dependencies set_iter vec_exprs = Ok deps ->
  CompiledVectorExpressionBase_init set_iter vec_exprs is_vector_func getter
  = Ok b ->
  vector_exprs b = filter (fun dep => is_vector_func dep) deps /\
  scalar_exprs b = filter (fun dep => ¬ is_vector_func dep) deps.
Proof.
  intros Hdeps (deps' & Hdeps' & Hv & Hs & _)%init_Ok.
  rewrite Hdeps in Hdeps'. by injection Hdeps' as <-.
Qed.

(** ** The claims about builder construction *)

(** C7.  For a non-empty list of targets and any classifier, the
    dependencies are collected, and in the builder that construction returns
    every collected dependency is in exactly one of the two lists: in the
    vector list if and only if the classifier holds for it, in the scalar
    list if and only if it does not; none is left out, none is in both or
    twice, and the lists hold nothing else.  Construction does return a
    builder when no target has an unsupported node outside the substitution
    map; when one has, the rewrite step that follows the partition raises
    and no builder is returned. *)
Theorem dependencies_partitioned (vec_exprs : list expr)
    (is_vector_func : expr -> bool)
    (getter : list (expr * dtype) -> list (expr * dtype) -> except dtype) :
  vec_exprs <> [] ->
  exists deps,
    dependencies set_iter vec_exprs = Ok deps /\
    (forall dep, dep ∈ deps
       <-> exists ve, ve ∈ vec_exprs /\ dep ∈ dep_mapper set_iter ve) /\
    ((forall ve, ve ∈ vec_exprs -> unmapped_unsupported deps ve = []) ->
     exists b,
       CompiledVectorExpressionBase_init set_iter vec_exprs is_vector_func getter
       = Ok b) /\
    (forall b,
       CompiledVectorExpressionBase_init set_iter vec_exprs is_vector_func getter
       = Ok b ->
       (forall dep, dep ∈ deps ->
          (dep ∈ vector_exprs b <-> is_vector_func dep = true) /\
          (dep ∈ scalar_exprs b <-> is_vector_func dep = false) /\
          (dep ∈ vector_exprs b \/ dep ∈ scalar_exprs b) /\
          ~ (dep ∈ vector_exprs b /\ dep ∈ scalar_exprs b)) /\
       (forall dep, dep ∈ vector_exprs b \/ dep ∈ scalar_exprs b -> dep ∈ deps) /\
       NoDup (vector_exprs b ++ scalar_exprs b)) /\
    (forall ve s, ve ∈ vec_exprs -> s ∈ unmapped_unsupported deps ve ->
       CompiledVectorExpressionBase_init set_iter vec_exprs is_vector_func getter
       = Raise (ValueError
           "DefaultingSubstitutionMapper cannot handle expressions of this type")).
Proof.
  intros Hne.
  destruct (init_outcome vec_exprs is_vector_func getter Hne)
    as (deps & Hdeps & Hnodup & Hfrom & Hok & Hraise).
  exists deps. split_and!; [done | done | | | done].
  - intros Hsupp. rewrite (Hok Hsupp). eauto.
  - intros b Hb.
    destruct (init_deps _ _ _ b deps Hdeps Hb) as [-> ->]. split_and!.
    + intros dep Hdep. rewrite !list_elem_of_filter.
      destruct (is_vector_func dep); simpl; intuition congruence.
    + intros dep [[_ Hdep]%list_elem_of_filter | [_ Hdep]%list_elem_of_filter];
        done.
    + by apply partition_NoDup.
Qed.

(** C9, amended.  On a non-empty list of targets none of which has an
    unsupported node outside the substitution map, construction returns a
    builder whose rewritten targets are the targets in which each vector
    dependency, the [k]-th, is replaced by [v_k[i]], with the one index
    [i], each scalar dependency by [s_k], and every other node is kept.
    When a target has a node of an unsupported class that is not in the
    substitution map and does not lie below a dependency, the node is not
    passed through: construction raises the base mapper's [ValueError]. *)
Theorem rewrite_step (vec_exprs : list expr) (is_vector_func : expr -> bool)
    (getter : list (expr * dtype) -> list (expr * dtype) -> except dtype) :
  vec_exprs <> [] ->
  exists deps,
    dependencies set_iter vec_exprs = Ok deps /\
    ((forall ve, ve ∈ vec_exprs -> unmapped_unsupported deps ve = []) ->
     exists b,
       CompiledVectorExpressionBase_init set_iter vec_exprs is_vector_func getter
       = Ok b /\
       exprs b
       = map (spec_substituted (vector_exprs b) (scalar_exprs b)) vec_exprs /\
       (forall k dep, vector_exprs b !! k = Some dep ->
          vector_names b !! k = Some ("v" +:+ fmt_d k) /\
          spec_substituted (vector_exprs b) (scalar_exprs b) dep
          = Subscript (Var ("v" +:+ fmt_d k)) (Var "i")) /\
       (forall k dep, scalar_exprs b !! k = Some dep ->
          scalar_names b !! k = Some ("s" +:+ fmt_d k) /\
          spec_substituted (vector_exprs b) (scalar_exprs b) dep
          = Var ("s" +:+ fmt_d k)) /\
       (forall e, e ∉ deps ->
          spec_reference (vector_exprs b) (scalar_exprs b) e = None)) /\
    (forall ve s, ve ∈ vec_exprs -> s ∈ uncovered deps ve ->
       is_foreign s -> s ∉ deps ->
       CompiledVectorExpressionBase_init set_iter vec_exprs is_vector_func getter
       = Raise (ValueError
           "DefaultingSubstitutionMapper cannot handle expressions of this type")).
Proof.
  intros Hne.
  destruct (init_outcome vec_exprs is_vector_func getter Hne)
    as (deps & Hdeps & Hnodup & Hfrom & Hok & Hraise).
  exists deps. split_and!; [done | |].
  - intros Hsupp. eexists. split; [by apply Hok |]. simpl.
    assert (NoDup (filter (fun dep => is_vector_func dep) deps
                   ++ filter (fun dep => ¬ is_vector_func dep) deps))
      as Hkeys by (by apply partition_NoDup).
    split_and!.
    + done.
    + intros k dep Hk. split.
      * rewrite list_lookup_fmap, lookup_seq_lt by (by eapply lookup_lt_Some).
        done.
      * destruct dep; simpl;
          by rewrite (spec_reference_vector _ _ k) by done.
    + intros k dep Hk. split.
      * rewrite list_lookup_fmap, lookup_seq_lt by (by eapply lookup_lt_Some).
        done.
      * destruct dep; simpl;
          by rewrite (spec_reference_scalar _ _ k) by done.
    + intros e He. apply spec_reference_None.
      split; intros [_ Hin]%list_elem_of_filter; done.
  - intros ve s Hve Hs Hforeign Hout. apply (Hraise ve s Hve).
    by apply list_elem_of_filter.
Qed.

End BuilderClaims.



(** ** The builder on the fixtures *)

Lemma insertion_order_lawful : lawful_iteration Fixture.insertion_order.
Proof. split; [apply insertion_order_elem | apply insertion_order_NoDup]. Qed.


Lemma plain_targets_supported (ve : expr) :
  ve ∈ Fixture.plain_targets ->
  unmapped_unsupported [Fixture.a; Fixture.b; Fixture.dt; Fixture.c] ve = [].
Proof.
  intros Hve. repeat (apply elem_of_cons in Hve as [-> | Hve]);
    [reflexivity .. | by apply elem_of_nil in Hve].
Qed.

Lemma plain_targets_lists (b : CompiledVectorExpressionBase) :
  CompiledVectorExpressionBase_init Fixture.insertion_order
    Fixture.plain_targets Fixture.is_vector Fixture.float64_getter = Ok b ->
  vector_exprs b = [Fixture.a; Fixture.b; Fixture.c] /\
  scalar_exprs b = [Fixture.dt].
Proof.
  intros Hb.
  assert ((fun b => (vector_exprs b, scalar_exprs b))
            <$> CompiledVectorExpressionBase_init Fixture.insertion_order
                  Fixture.plain_targets Fixture.is_vector Fixture.float64_getter
          = Ok ([Fixture.a; Fixture.b; Fixture.c], [Fixture.dt])) as Hlists
    by reflexivity.
  rewrite Hb in Hlists. simpl in Hlists. by injection Hlists as -> ->.
Qed.

Lemma dependencies_partitioned_witness :
  exists b,
    CompiledVectorExpressionBase_init Fixture.insertion_order
      Fixture.plain_targets Fixture.is_vector Fixture.float64_getter = Ok b /\
    vector_exprs b = [Fixture.a; Fixture.b; Fixture.c] /\
    scalar_exprs b = [Fixture.dt] /\
    (forall dep, dep ∈ [Fixture.a; Fixture.b; Fixture.dt; Fixture.c] ->
       (dep ∈ vector_exprs b <-> Fixture.is_vector dep = true) /\
       (dep ∈ scalar_exprs b <-> Fixture.is_vector dep = false) /\
       (dep ∈ vector_exprs b \/ dep ∈ scalar_exprs b) /\
       ~ (dep ∈ vector_exprs b /\ dep ∈ scalar_exprs b)) /\
    NoDup (vector_exprs b ++ scalar_exprs b).
Proof.
  destruct (dependencies_partitioned Fixture.insertion_order
              insertion_order_lawful Fixture.plain_targets Fixture.is_vector
              Fixture.float64_getter)
    as (deps & Hdeps & _ & Hbuilt & Hpart & _); [done |].
  assert (deps = [Fixture.a; Fixture.b; Fixture.dt; Fixture.c]) as ->.
  { vm_compute in Hdeps. by injection Hdeps as <-. }
  destruct (Hbuilt plain_targets_supported) as [b Hb].
  destruct (Hpart b Hb) as (Hclass & _ & Hnodup).
  destruct (plain_targets_lists b Hb) as [Hv Hs].
  exists b. split_and!; done.
Defined.

Lemma rewrite_step_witness :
  exists b,
    CompiledVectorExpressionBase_init Fixture.insertion_order
      Fixture.plain_targets Fixture.is_vector Fixture.float64_getter = Ok b /\
    exprs b
    = [Sum [Product [Subscript (Var "v0") (Var "i");
                     Subscript (Var "v1") (Var "i")];
            Product [Var "s0"; Subscript (Var "v2") (Var "i")]];
       Sum [Product [Subscript (Var "v0") (Var "i");
                     Subscript (Var "v1") (Var "i")];
            Product [Constant (-1); Subscript (Var "v2") (Var "i")]]].
Proof.
  destruct (rewrite_step Fixture.insertion_order insertion_order_lawful
              Fixture.plain_targets Fixture.is_vector Fixture.float64_getter)
    as (deps & Hdeps & Hbuilt & _); [done |].
  assert (deps = [Fixture.a; Fixture.b; Fixture.dt; Fixture.c]) as ->.
  { vm_compute in Hdeps. by injection Hdeps as <-. }
  destruct (Hbuilt plain_targets_supported) as (b & Hb & Hexprs & _).
  destruct (plain_targets_lists b Hb) as [Hv Hs].
  exists b. split; [done |]. rewrite Hexprs, Hv, Hs. reflexivity.
Defined.

(** C9 as stated fails.  The target [flux(a)] has one dependency, [a]; the
    function it calls is a node of an unsupported class that is not in the
    substitution map, and it is neither passed through nor left alone:
    construction raises. *)
Lemma unmapped_unsupported_node_is_refused :
  dependencies Fixture.insertion_order [Fixture.flux_of_a] = Ok [Fixture.a] /\
  Foreign "flux" ∈ subexprs Fixture.flux_of_a /\
  builder_subst_func [Fixture.a] [] (Foreign "flux") = None /\
  CompiledVectorExpressionBase_init Fixture.insertion_order
    [Fixture.flux_of_a] Fixture.is_vector Fixture.float64_getter
  = Raise (ValueError
      "DefaultingSubstitutionMapper cannot handle expressions of this type").
Proof.
  split_and!; [reflexivity | | reflexivity | reflexivity].
  apply list_elem_of_further, list_elem_of_here.
Qed.



(** ** The kernel that is generated *)

(** What a call of [get_kernel] that returns has gone through. *)
Lemma get_kernel_Ok (self : CompiledVectorExpressionBase)
    (vector_dtypes scalar_dtypes : list dtype) (k : KernelRecord) :
  get_kernel self vector_dtypes scalar_dtypes = Ok k ->
  exists expr_codes code_mapper,
    result_dtype_getter self (zip (vector_exprs self) vector_dtypes)
      (zip (scalar_exprs self) scalar_dtypes) = Ok (result_dtype k) /\
    code_all (exprs self) new_CCodeMapper = Ok (expr_codes, code_mapper) /\
    cses code_mapper = [] /\
    kernel k
    = (map (fun i => VectorArg (result_dtype k) ("_result" +:+ fmt_d i))
         (seq 0 (length (exprs self)))
       ++ map (fun '(d, name) => VectorArg d name)
            (zip vector_dtypes (vector_names self))
       ++ map (fun '(d, name) => ScalarArg d name)
            (zip scalar_dtypes (scalar_names self)),
       str_join newline
         (map (fun '(i, ec) =>
                 "_result" +:+ fmt_d i +:+ "[i] = " +:+ ec +:+ ";")
            (enumerate expr_codes))).
Proof.
  unfold get_kernel.
  destruct (result_dtype_getter self _ _) as [d |]; [| done]. simpl.
  destruct (code_all (exprs self) new_CCodeMapper) as [[codes cm] |]; [| done].
  simpl. destruct (cses cm) as [| cse rest] eqn:Hcses; [| done]. simpl.
  intros [= <-]. simpl. eauto 10.
Qed.

Section KernelArguments.

Variable set_iter : list expr -> list expr.

(** X19.  In a kernel that [get_kernel] returns for a builder, no two
    arguments have the same name, and none is named [i], the index that the
    generated statements use. *)
Theorem kernel_argument_names_distinct (vec_exprs : list expr)
    (is_vector_func : expr -> bool)
    (getter : list (expr * dtype) -> list (expr * dtype) -> except dtype)
    (b : CompiledVectorExpressionBase)
    (vector_dtypes scalar_dtypes : list dtype) (k : KernelRecord) :
  CompiledVectorExpressionBase_init set_iter vec_exprs is_vector_func getter
  = Ok b ->
  get_kernel b vector_dtypes scalar_dtypes = Ok k ->
  NoDup (map arg_name (kernel k).1) /\ "i" ∉ map arg_name (kernel k).1.
Proof.
  intros (deps & _ & _ & _ & Hvn & Hsn & _)%init_Ok
         (codes & cm & _ & _ & _ & ->)%get_kernel_Ok.
  cbn [fst]. rewrite !map_app, vector_arg_names, scalar_arg_names, map_map.
  rewrite Hvn, Hsn. cbn [arg_name]. apply generated_names_distinct.
Qed.

(** X20.  The arguments of a kernel that [get_kernel] returns for a builder
    are, in this order: one result vector [_result<j>] of the result dtype
    per target expression; the vector [v<j>] with the [j]-th given vector
    dtype, for as many [j] as there are both vector dependencies and vector
    dtypes; and likewise the scalars [s<j>].  Dtypes without a dependency
    and dependencies without a dtype are dropped without an error. *)
Theorem kernel_arguments (vec_exprs : list expr)
    (is_vector_func : expr -> bool)
    (getter : list (expr * dtype) -> list (expr * dtype) -> except dtype)
    (b : CompiledVectorExpressionBase)
    (vector_dtypes scalar_dtypes : list dtype) (k : KernelRecord) :
  CompiledVectorExpressionBase_init set_iter vec_exprs is_vector_func getter
  = Ok b ->
  get_kernel b vector_dtypes scalar_dtypes = Ok k ->
  (kernel k).1
  = map (fun j => VectorArg (result_dtype k) ("_result" +:+ fmt_d j))
      (seq 0 (length vec_exprs))
    ++ map (fun '(d, j) => VectorArg d ("v" +:+ fmt_d j))
         (zip vector_dtypes (seq 0 (length (vector_exprs b))))
    ++ map (fun '(d, j) => ScalarArg d ("s" +:+ fmt_d j))
         (zip scalar_dtypes (seq 0 (length (scalar_exprs b)))) /\
  length (kernel k).1
  = (length vec_exprs
     + length vector_dtypes `min` length (vector_exprs b)
     + length scalar_dtypes `min` length (scalar_exprs b))%nat.
Proof.
  intros (deps & _ & _ & _ & Hvn & Hsn & Hexprs%mapM_Ok_length)%init_Ok
         (codes & cm & _ & _ & _ & ->)%get_kernel_Ok.
  cbn [fst]. rewrite Hvn, Hsn, Hexprs, !zip_numbered_names. split; [done |].
  rewrite !length_app, !length_map, !length_zip, !length_seq. lia.
Qed.

End KernelArguments.

(** ** Common sub-expressions in the code mapper *)

(** The loop inside [code_rec] is [code_children]. *)
Ltac fold_code_children :=
  match goal with
  | |- context [?F _ _ _] =>
      is_fix F;
      let H := fresh in
      assert (forall es prec cm, F es prec cm = code_children es prec cm) as H
        by (let es := fresh "es" in
            let e := fresh "e" in
            let IH := fresh "IH" in
            let prec := fresh "prec" in
            let cm := fresh "cm" in
            intros es; induction es as [| e es IH]; intros prec cm; [done |];
            simpl; destruct (code_rec e prec cm) as [[? ?] |]; [| done];
            simpl; by rewrite IH);
      rewrite H; clear H
  end.

Lemma code_rec_Sum (cs : list expr) (enclosing_prec : nat) (cm : CCodeMapper) :
  code_rec (Sum cs) enclosing_prec cm
  = '(ss, cm) ← code_children cs PREC_SUM cm;
    Ok (parenthesize_if_needed (str_join " + " ss) enclosing_prec PREC_SUM, cm).
Proof. simpl. by fold_code_children. Qed.

Lemma code_rec_Product (cs : list expr) (enclosing_prec : nat) (cm : CCodeMapper) :
  code_rec (Product cs) enclosing_prec cm
  = '(ss, cm) ← code_children cs PREC_PRODUCT cm;
    Ok (parenthesize_if_needed (str_join "*" ss) enclosing_prec PREC_PRODUCT, cm).
Proof. simpl. by fold_code_children. Qed.

Lemma code_rec_Call (f : expr) (ps : list expr) (enclosing_prec : nat)
    (cm : CCodeMapper) :
  code_rec (Call f ps) enclosing_prec cm
  = '(sf, cm) ← code_rec f PREC_CALL cm;
    '(ss, cm) ← code_children ps PREC_NONE cm;
    Ok (sf +:+ "(" +:+ str_join ", " ss +:+ ")", cm).
Proof.
  simpl. destruct (code_rec f PREC_CALL cm) as [[sf cm1] |]; [| done].
  simpl. by fold_code_children.
Qed.

Lemma code_all_children (es : list expr) : forall cm,
  code_all es cm = code_children es PREC_NONE cm.
Proof.
  induction es as [| e es IH]; intros cm; [done |]. simpl.
  destruct (code_rec e PREC_NONE cm) as [[s cm1] |]; [| done].
  simpl. by rewrite IH.
Qed.

Section CodeMapperFacts.

(** A binding is on record. *)
Local Abbreviation bound cm := (cses cm <> []).
(** An index is only ever given to a binding that is on record. *)
Local Abbreviation indexed cm := (cse_to_index cm <> [] -> cses cm <> []).
(** Some node is a marked common sub-expression. *)
Local Abbreviation marked e := (exists c, CommonSubexpression c ∈ subexprs e).
Local Abbreviation some_marked es := (exists e, e ∈ es /\ marked e).

(** What stringifying [e] does to the record of bindings. *)
Local Abbreviation records e cm cm' :=
  (indexed cm' /\ (bound cm -> bound cm') /\ (marked e -> bound cm') /\
   (~ marked e -> cm' = cm)).

Lemma marked_children (cs : list expr) :
  (exists c, CommonSubexpression c ∈ flat_map subexprs cs) <-> some_marked cs.
Proof.
  split.
  - intros (c & (e & He & Hc)%elem_of_flat_map_subexprs). eauto.
  - intros (e & He & c & Hc). exists c. apply elem_of_flat_map_subexprs. eauto.
Qed.

Lemma code_children_total (es : list expr) :
  Forall (fun e => forall p cm, exists s cm', code_rec e p cm = Ok (s, cm')) es ->
  forall prec cm, exists ss cm', code_children es prec cm = Ok (ss, cm').
Proof.
  induction 1 as [| e es He _ IH]; intros prec cm; simpl; [eauto |].
  destruct (He prec cm) as (s & cm1 & ->). simpl.
  destruct (IH prec cm1) as (ss & cm2 & ->). simpl. eauto.
Qed.

(** On nodes of supported classes the code mapper does not raise. *)
Lemma code_rec_total (e : expr) :
  (forall s, s ∈ subexprs e -> ~ is_foreign s) ->
  forall p cm, exists s cm', code_rec e p cm = Ok (s, cm').
Proof.
  induction e as [name | value | cs IH | cs IH | a b IHa IHb | a b IHa IHb
                 | a i IHa IHi | a name IHa | f ps IHf IHps | c IHc | cls]
    using expr_children_ind; intros Hsupp p cm.
  - simpl. eauto.
  - simpl. eauto.
  - rewrite code_rec_Sum.
    destruct (code_children_total cs) with (prec := PREC_SUM) (cm := cm)
      as (ss & cm1 & ->); [| simpl; eauto].
    apply Forall_forall. intros c Hc. rewrite Forall_forall in IH.
    apply IH; [done |]. intros s Hs. apply Hsupp.
    apply elem_of_cons; right; apply elem_of_flat_map_subexprs; eauto.
  - rewrite code_rec_Product.
    destruct (code_children_total cs) with (prec := PREC_PRODUCT) (cm := cm)
      as (ss & cm1 & ->); [| simpl; eauto].
    apply Forall_forall. intros c Hc. rewrite Forall_forall in IH.
    apply IH; [done |]. intros s Hs. apply Hsupp.
    apply elem_of_cons; right; apply elem_of_flat_map_subexprs; eauto.
  - simpl in *.
    destruct (IHa ltac:(intros s Hs; apply Hsupp; set_solver) PREC_PRODUCT cm)
      as (sa & cm1 & ->). simpl.
    destruct (IHb ltac:(intros s Hs; apply Hsupp; set_solver) PREC_POWER cm1)
      as (sb & cm2 & ->). simpl. eauto.
  - simpl in *.
    destruct (IHa ltac:(intros s Hs; apply Hsupp; set_solver) PREC_NONE cm)
      as (sa & cm1 & ->). simpl.
    destruct (IHb ltac:(intros s Hs; apply Hsupp; set_solver) PREC_NONE cm1)
      as (sb & cm2 & ->). simpl. eauto.
  - simpl in *.
    destruct (IHa ltac:(intros s Hs; apply Hsupp; set_solver) PREC_CALL cm)
      as (sa & cm1 & ->). simpl.
    destruct (IHi ltac:(intros s Hs; apply Hsupp; set_solver) PREC_NONE cm1)
      as (sb & cm2 & ->). simpl. eauto.
  - simpl in *.
    destruct (IHa ltac:(intros s Hs; apply Hsupp; set_solver) PREC_CALL cm)
      as (sa & cm1 & ->). simpl. eauto.
  - rewrite code_rec_Call. simpl in Hsupp.
    destruct (IHf ltac:(intros s Hs; apply Hsupp; set_solver) PREC_CALL cm)
      as (sf & cm1 & ->). simpl.
    destruct (code_children_total ps) with (prec := PREC_NONE) (cm := cm1)
      as (ss & cm2 & ->); [| simpl; eauto].
    apply Forall_forall. intros c Hc. rewrite Forall_forall in IHps.
    apply IHps; [done |]. intros s Hs. apply Hsupp.
    apply elem_of_cons; right; apply elem_of_app; right;
      apply elem_of_flat_map_subexprs; eauto.
  - simpl in *.
    destruct (dict_get (cse_to_index cm) (CommonSubexpression c)); [eauto |].
    destruct (IHc ltac:(intros s Hs; apply Hsupp; set_solver) PREC_NONE cm)
      as (sc & cm1 & ->). simpl. eauto.
  - exfalso. apply (Hsupp (Foreign cls)); [set_solver | done].
Qed.

Lemma code_children_records (es : list expr) :
  Forall (fun e => forall p cm s cm',
            code_rec e p cm = Ok (s, cm') -> indexed cm -> records e cm cm') es ->
  forall prec cm ss cm',
    code_children es prec cm = Ok (ss, cm') -> indexed cm ->
    indexed cm' /\ (bound cm -> bound cm') /\ (some_marked es -> bound cm') /\
    (~ some_marked es -> cm' = cm).
Proof.
  induction 1 as [| e es He _ IH]; intros prec cm ss cm' Hcode Hidx; simpl in Hcode.
  - injection Hcode as <- <-. split_and!; [done | done | | done].
    by intros (e & ?%elem_of_nil & _).
  - destruct (code_rec e prec cm) as [[s cm1] |] eqn:Hfirst; [| done].
    simpl in Hcode.
    destruct (code_children es prec cm1) as [[ss' cm2] |] eqn:Hrest; [| done].
    simpl in Hcode. injection Hcode as <- <-.
    destruct (He _ _ _ _ Hfirst Hidx) as (Hidx1 & Hb1 & Hm1 & Hu1).
    destruct (IH _ _ _ _ Hrest Hidx1) as (Hidx2 & Hb2 & Hm2 & Hu2).
    split_and!; [done | by auto | |].
    + intros (e' & [-> | He']%elem_of_cons & Hmarked); [by auto |].
      apply Hm2. eauto.
    + intros Hnone. rewrite Hu2, Hu1; [done | |].
      * intros Hmarked. apply Hnone. exists e. split; [apply list_elem_of_here | done].
      * intros (e' & He' & Hmarked). apply Hnone. exists e'.
        split; [by apply list_elem_of_further | done].
Qed.

Lemma code_rec_records (e : expr) : forall p cm s cm',
  code_rec e p cm = Ok (s, cm') -> indexed cm -> records e cm cm'.
Proof.
  induction e as [name | value | cs IH | cs IH | a b IHa IHb | a b IHa IHb
                 | a i IHa IHi | a name IHa | f ps IHf IHps | c IHc | cls]
    using expr_children_ind; intros p cm s cm' Hcode Hidx.
  - simpl in Hcode. injection Hcode as <- <-.
    split_and!; [done | done | intros [c Hc]; set_solver | done].
  - simpl in Hcode. injection Hcode as <- <-.
    split_and!; [done | done | intros [c Hc]; set_solver | done].
  - rewrite code_rec_Sum in Hcode.
    destruct (code_children cs PREC_SUM cm) as [[ss cm1] |] eqn:Hcs; [| done].
    simpl in Hcode. injection Hcode as <- <-.
    destruct (code_children_records cs IH _ _ _ _ Hcs Hidx) as (H1 & H2 & H3 & H4).
    split_and!; [done | done | |].
    + intros [c Hc]. apply H3, marked_children. exists c. set_solver.
    + intros Hnone. apply H4. intros [c Hc]%marked_children. apply Hnone.
      exists c. set_solver.
  - rewrite code_rec_Product in Hcode.
    destruct (code_children cs PREC_PRODUCT cm) as [[ss cm1] |] eqn:Hcs; [| done].
    simpl in Hcode. injection Hcode as <- <-.
    destruct (code_children_records cs IH _ _ _ _ Hcs Hidx) as (H1 & H2 & H3 & H4).
    split_and!; [done | done | |].
    + intros [c Hc]. apply H3, marked_children. exists c. set_solver.
    + intros Hnone. apply H4. intros [c Hc]%marked_children. apply Hnone.
      exists c. set_solver.
  - simpl in Hcode.
    destruct (code_rec a PREC_PRODUCT cm) as [[sa cm1] |] eqn:Ha; [| done].
    simpl in Hcode.
    destruct (code_rec b PREC_POWER cm1) as [[sb cm2] |] eqn:Hb; [| done].
    simpl in Hcode. injection Hcode as <- <-.
    destruct (IHa _ _ _ _ Ha Hidx) as (Hidx1 & Hb1 & Hm1 & Hu1).
    destruct (IHb _ _ _ _ Hb Hidx1) as (Hidx2 & Hb2 & Hm2 & Hu2).
    split_and!; [done | by auto | |].
    + intros [c Hc]. simpl in Hc.
      apply elem_of_cons in Hc as [Hc | [Hc | Hc]%elem_of_app]; [done | |]; eauto.
    + intros Hnone. rewrite Hu2, Hu1; [done | |]; intros [c Hc]; apply Hnone;
        exists c; set_solver.
  - simpl in Hcode.
    destruct (code_rec a PREC_NONE cm) as [[sa cm1] |] eqn:Ha; [| done].
    simpl in Hcode.
    destruct (code_rec b PREC_NONE cm1) as [[sb cm2] |] eqn:Hb; [| done].
    simpl in Hcode. injection Hcode as <- <-.
    destruct (IHa _ _ _ _ Ha Hidx) as (Hidx1 & Hb1 & Hm1 & Hu1).
    destruct (IHb _ _ _ _ Hb Hidx1) as (Hidx2 & Hb2 & Hm2 & Hu2).
    split_and!; [done | by auto | |].
    + intros [c Hc]. simpl in Hc.
      apply elem_of_cons in Hc as [Hc | [Hc | Hc]%elem_of_app]; [done | |]; eauto.
    + intros Hnone. rewrite Hu2, Hu1; [done | |]; intros [c Hc]; apply Hnone;
        exists c; set_solver.
  - simpl in Hcode.
    destruct (code_rec a PREC_CALL cm) as [[sa cm1] |] eqn:Ha; [| done].
    simpl in Hcode.
    destruct (code_rec i PREC_NONE cm1) as [[sb cm2] |] eqn:Hb; [| done].
    simpl in Hcode. injection Hcode as <- <-.
    destruct (IHa _ _ _ _ Ha Hidx) as (Hidx1 & Hb1 & Hm1 & Hu1).
    destruct (IHi _ _ _ _ Hb Hidx1) as (Hidx2 & Hb2 & Hm2 & Hu2).
    split_and!; [done | by auto | |].
    + intros [c Hc]. simpl in Hc.
      apply elem_of_cons in Hc as [Hc | [Hc | Hc]%elem_of_app]; [done | |]; eauto.
    + intros Hnone. rewrite Hu2, Hu1; [done | |]; intros [c Hc]; apply Hnone;
        exists c; set_solver.
  - simpl in Hcode.
    destruct (code_rec a PREC_CALL cm) as [[sa cm1] |] eqn:Ha; [| done].
    simpl in Hcode. injection Hcode as <- <-.
    destruct (IHa _ _ _ _ Ha Hidx) as (Hidx1 & Hb1 & Hm1 & Hu1).
    split_and!; [done | done | |].
    + intros [c Hc]. simpl in Hc.
      apply elem_of_cons in Hc as [Hc | Hc]; [done |]; eauto.
    + intros Hnone. apply Hu1. intros [c Hc]. apply Hnone. exists c. set_solver.
  - rewrite code_rec_Call in Hcode.
    destruct (code_rec f PREC_CALL cm) as [[sf cm1] |] eqn:Hf; [| done].
    simpl in Hcode.
    destruct (code_children ps PREC_NONE cm1) as [[ss cm2] |] eqn:Hps; [| done].
    simpl in Hcode. injection Hcode as <- <-.
    destruct (IHf _ _ _ _ Hf Hidx) as (Hidx1 & Hb1 & Hm1 & Hu1).
    destruct (code_children_records ps IHps _ _ _ _ Hps Hidx1)
      as (Hidx2 & Hb2 & Hm2 & Hu2).
    split_and!; [done | by auto | |].
    + intros [c Hc]. simpl in Hc.
      apply elem_of_cons in Hc as [Hc | [Hc | Hc]%elem_of_app]; [done | eauto |].
      apply Hm2, marked_children. eauto.
    + intros Hnone. rewrite Hu2, Hu1; [done | |].
      * intros [c Hc]. apply Hnone. exists c. set_solver.
      * intros [c Hc]%marked_children. apply Hnone. exists c. set_solver.
  - simpl in Hcode.
    assert (marked (CommonSubexpression c)) as Hself
      by (exists c; apply list_elem_of_here).
    destruct (dict_get (cse_to_index cm) (CommonSubexpression c)) as [k |] eqn:Hknown.
    + injection Hcode as <- <-.
      assert (bound cm) as Hbound.
      { apply Hidx. intros Hnil. by rewrite Hnil in Hknown. }
      split_and!; done.
    + destruct (code_rec c PREC_NONE cm) as [[sc cm1] |] eqn:Hc; [| done].
      simpl in Hcode. injection Hcode as <- <-. simpl.
      assert (cses cm1 ++ [sc] <> []) as Hbound by (by destruct (cses cm1)).
      split_and!; done.
  - done.
Qed.

Lemma indexed_new : indexed new_CCodeMapper.
Proof. done. Qed.

(** The targets' codes and what is on record after them. *)
Lemma code_all_records (es : list expr) (codes : list string) (cm : CCodeMapper) :
  code_all es new_CCodeMapper = Ok (codes, cm) ->
  (some_marked es -> bound cm) /\ (~ some_marked es -> cm = new_CCodeMapper).
Proof.
  rewrite code_all_children. intros Hcode.
  assert (Forall (fun e => forall p cm s cm',
                    code_rec e p cm = Ok (s, cm') -> indexed cm ->
                    records e cm cm') es) as Hall.
  { apply Forall_forall. intros e _. apply code_rec_records. }
  destruct (code_children_records es Hall _ _ _ _ Hcode indexed_new)
    as (_ & _ & Hm & Hu).
  done.
Qed.

Lemma code_all_total (es : list expr) (cm : CCodeMapper) :
  (forall e s, e ∈ es -> s ∈ subexprs e -> ~ is_foreign s) ->
  exists codes cm', code_all es cm = Ok (codes, cm').
Proof.
  intros Hsupp. rewrite code_all_children. apply code_children_total.
  apply Forall_forall. intros e He. apply code_rec_total. intros s. by apply Hsupp.
Qed.

(** Without a marked node each target is stringified by itself. *)
Lemma code_all_unmarked (es : list expr) (codes : list string) (cm : CCodeMapper) :
  code_all es new_CCodeMapper = Ok (codes, cm) -> ~ some_marked es ->
  Forall2 (fun e code => code_rec e PREC_NONE new_CCodeMapper
                         = Ok (code, new_CCodeMapper)) es codes.
Proof.
  revert codes cm. induction es as [| e es IH]; intros codes cm Hcode Hnone;
    simpl in Hcode.
  - injection Hcode as <- <-. constructor.
  - destruct (code_rec e PREC_NONE new_CCodeMapper) as [[s cm1] |] eqn:He; [| done].
    simpl in Hcode.
    destruct (code_rec_records e _ _ _ _ He indexed_new) as (_ & _ & _ & Hu).
    assert (cm1 = new_CCodeMapper) as ->.
    { apply Hu. intros Hmarked. apply Hnone. exists e.
      split; [apply list_elem_of_here | done]. }
    destruct (code_all es new_CCodeMapper) as [[ss cm2] |] eqn:Hes; [| done].
    simpl in Hcode. injection Hcode as <- <-. constructor; [done |].
    apply (IH ss cm2); [done |].
    intros (e' & He' & Hmarked). apply Hnone. exists e'.
    split; [by apply list_elem_of_further | done].
Qed.

(** X21.  A builder one of whose rewritten targets contains a marked common
    sub-expression never gets a kernel: [get_kernel] does not return.  When
    the result dtype is found and all nodes are of supported classes, what
    it raises is the [NameError] for [get_c_declarator], whatever dtypes it
    is given. *)
Theorem get_kernel_never_binds_cse (self : CompiledVectorExpressionBase)
    (vector_dtypes scalar_dtypes : list dtype) :
  (exists e c, e ∈ exprs self /\ CommonSubexpression c ∈ subexprs e) ->
  (forall k, get_kernel self vector_dtypes scalar_dtypes <> Ok k) /\
  (forall d,
     result_dtype_getter self (zip (vector_exprs self) vector_dtypes)
       (zip (scalar_exprs self) scalar_dtypes) = Ok d ->
     (forall e s, e ∈ exprs self -> s ∈ subexprs e -> ~ is_foreign s) ->
     get_kernel self vector_dtypes scalar_dtypes
     = Raise (NameError "get_c_declarator")).
Proof.
  intros (e & c & He & Hc).
  assert (some_marked (exprs self)) as Hmarked by eauto.
  split.
  - intros k (codes & cm & _ & Hcodes & Hcses & _)%get_kernel_Ok.
    apply code_all_records in Hcodes as [Hbound _]. by apply Hbound.
  - intros d Hd Hsupp.
    destruct (code_all_total (exprs self) new_CCodeMapper Hsupp)
      as (codes & cm & Hcodes).
    apply (get_kernel_with_cse self _ _ d codes cm Hd Hcodes).
    apply code_all_records in Hcodes as [Hbound _]. by apply Hbound.
Qed.

(** X22.  When no rewritten target contains a marked common sub-expression,
    all nodes are of supported classes and the result dtype is found,
    [get_kernel] returns a kernel of that dtype whose body has one line per
    target, in order: [_result<j>[i] = <code>;] where [<code>] is what the
    code mapper gives for the [j]-th target by itself. *)
Theorem get_kernel_without_marks (self : CompiledVectorExpressionBase)
    (vector_dtypes scalar_dtypes : list dtype) (d : dtype) :
  result_dtype_getter self (zip (vector_exprs self) vector_dtypes)
    (zip (scalar_exprs self) scalar_dtypes) = Ok d ->
  (forall e s, e ∈ exprs self -> s ∈ subexprs e -> ~ is_foreign s) ->
  (forall e c, e ∈ exprs self -> CommonSubexpression c ∉ subexprs e) ->
  exists k codes,
    get_kernel self vector_dtypes scalar_dtypes = Ok k /\
    result_dtype k = d /\
    Forall2 (fun e code => code_rec e PREC_NONE new_CCodeMapper
                           = Ok (code, new_CCodeMapper)) (exprs self) codes /\
    (kernel k).2
    = str_join newline
        (map (fun '(j, code) =>
                "_result" +:+ fmt_d j +:+ "[i] = " +:+ code +:+ ";")
           (enumerate codes)).
Proof.
  intros Hd Hsupp Hplain.
  assert (~ some_marked (exprs self)) as Hnone.
  { intros (e & He & c & Hc). by apply (Hplain e c). }
  destruct (code_all_total (exprs self) new_CCodeMapper Hsupp)
    as (codes & cm & Hcodes).
  pose proof (code_all_unmarked _ _ _ Hcodes Hnone) as Heach.
  pose proof Hcodes as [_ Hnew]%code_all_records.
  destruct (get_kernel_without_cse self vector_dtypes scalar_dtypes d codes cm
              Hd Hcodes) as [args Hk]; [by rewrite Hnew |].
  eexists. exists codes. split; [exact Hk |]. done.
Qed.

End CodeMapperFacts.

(** A node that is neither of an unsupported class nor a marked common
    sub-expression, by its constructor. *)
Ltac plain_node :=
  split; [intros Hforeign; exact Hforeign | intros c Hc; discriminate Hc].

(** The cases of a membership in a list that is written out. *)
Ltac list_cases H :=
  repeat (apply elem_of_cons in H as [H | H];
          [try discriminate H; try subst |]);
  try (by apply elem_of_nil in H).

(** ** From the targets to the kernel *)

Lemma dict_get_elem {V : Type} (d : list (expr * V)) (k : expr) (v : V) :
  dict_get d k = Some v -> (k, v) ∈ d.
Proof.
  induction d as [| [k' v'] d IH] using rev_ind; [done |].
  rewrite dict_get_snoc. destruct (decide (k' = k)) as [-> | _].
  - intros [= ->]. apply elem_of_app. right. apply list_elem_of_here.
  - intros Hd. apply elem_of_app. left. by apply IH.
Qed.

Section PlainTargets.

Variable set_iter : list expr -> list expr.

(** A node of a supported class that is not a marked common
    sub-expression, and an expression of such nodes. *)
Local Abbreviation plain s :=
  (~ is_foreign s /\ forall c, s <> CommonSubexpression c).
Local Abbreviation all_plain e := (forall s, s ∈ subexprs e -> plain s).

(** What the builder substitutes is a subscripted name or a name. *)
Lemma builder_subst_image (vs ss : list expr) (x y : expr) :
  builder_subst_func vs ss x = Some y -> all_plain y.
Proof.
  unfold builder_subst_func, subst_func, make_subst_map.
  intros [Hin | Hin]%dict_get_elem%elem_of_app;
    apply elem_of_zip_r in Hin;
    apply (list_elem_of_fmap (B := expr)) in Hin as (name & -> & _);
    intros s Hs; simpl in Hs; list_cases Hs; plain_node.
Qed.

Lemma mapM_plain (f : expr -> except expr) (cs : list expr) :
  Forall (fun c => forall r, all_plain c -> f c = Ok r -> all_plain r) cs ->
  forall rs, (forall c, c ∈ cs -> all_plain c) -> mapM f cs = Ok rs ->
  forall r, r ∈ rs -> all_plain r.
Proof.
  induction 1 as [| c cs Hc _ IH]; intros rs Hcs Hrs r Hr; simpl in Hrs.
  - injection Hrs as <-. by apply elem_of_nil in Hr.
  - destruct (f c) as [c' |] eqn:Hfc; [| done]. simpl in Hrs.
    destruct (mapM f cs) as [cs' |] eqn:Hmap; [| done]. simpl in Hrs.
    injection Hrs as <-. apply elem_of_cons in Hr as [-> | Hr].
    + apply (Hc c'); [apply Hcs, list_elem_of_here | done].
    + apply (IH cs'); [| done | done].
      intros c0 Hc0. apply Hcs. by apply list_elem_of_further.
Qed.

(** Rewriting plain targets with plain images gives plain targets. *)
Lemma mapper_plain (sigma : expr -> option expr) :
  (forall x y, sigma x = Some y -> all_plain y) ->
  forall e r, all_plain e -> DefaultingSubstitutionMapper sigma e = Ok r ->
    all_plain r.
Proof.
  intros Hsigma e.
  induction e as [name | value | cs IH | cs IH | a b IHa IHb | a b IHa IHb
                 | a i IHa IHi | a name IHa | f ps IHf IHps | c IHc | cls]
    using expr_children_ind; intros r Hplain Hr; simpl in Hr.
  - destruct (sigma (Var name)) as [y |] eqn:Hy; injection Hr as <-; eauto.
  - by injection Hr as <-.
  - destruct (mapM _ cs) as [rs |] eqn:Hmap; [| done]. simpl in Hr.
    injection Hr as <-. simpl.
    intros s [-> | (r' & Hr' & Hs)%elem_of_flat_map_subexprs]%elem_of_cons;
      [plain_node |].
    apply (mapM_plain _ cs IH rs) with (r := r'); [| done | done | done].
    intros c Hc s' Hs'. apply Hplain. simpl.
    apply elem_of_cons; right; apply elem_of_flat_map_subexprs; eauto.
  - destruct (mapM _ cs) as [rs |] eqn:Hmap; [| done]. simpl in Hr.
    injection Hr as <-. simpl.
    intros s [-> | (r' & Hr' & Hs)%elem_of_flat_map_subexprs]%elem_of_cons;
      [plain_node |].
    apply (mapM_plain _ cs IH rs) with (r := r'); [| done | done | done].
    intros c Hc s' Hs'. apply Hplain. simpl.
    apply elem_of_cons; right; apply elem_of_flat_map_subexprs; eauto.
  - destruct (DefaultingSubstitutionMapper sigma a) as [a' |] eqn:Ha; [| done].
    simpl in Hr.
    destruct (DefaultingSubstitutionMapper sigma b) as [b' |] eqn:Hb; [| done].
    simpl in Hr. injection Hr as <-. simpl.
    intros s [-> | [Hs | Hs]%elem_of_app]%elem_of_cons; [plain_node | |].
    + apply (IHa a'); [| done | done]. intros s' Hs'. apply Hplain. set_solver.
    + apply (IHb b'); [| done | done]. intros s' Hs'. apply Hplain. set_solver.
  - destruct (DefaultingSubstitutionMapper sigma a) as [a' |] eqn:Ha; [| done].
    simpl in Hr.
    destruct (DefaultingSubstitutionMapper sigma b) as [b' |] eqn:Hb; [| done].
    simpl in Hr. injection Hr as <-. simpl.
    intros s [-> | [Hs | Hs]%elem_of_app]%elem_of_cons; [plain_node | |].
    + apply (IHa a'); [| done | done]. intros s' Hs'. apply Hplain. set_solver.
    + apply (IHb b'); [| done | done]. intros s' Hs'. apply Hplain. set_solver.
  - destruct (sigma (Subscript a i)) as [y |] eqn:Hy;
      [injection Hr as <-; eauto |].
    destruct (DefaultingSubstitutionMapper sigma a) as [a' |] eqn:Ha; [| done].
    simpl in Hr.
    destruct (DefaultingSubstitutionMapper sigma i) as [i' |] eqn:Hi; [| done].
    simpl in Hr. injection Hr as <-. simpl.
    intros s [-> | [Hs | Hs]%elem_of_app]%elem_of_cons; [plain_node | |].
    + apply (IHa a'); [| done | done]. intros s' Hs'. apply Hplain. set_solver.
    + apply (IHi i'); [| done | done]. intros s' Hs'. apply Hplain. set_solver.
  - destruct (sigma (Lookup a name)) as [y |] eqn:Hy;
      [injection Hr as <-; eauto |].
    destruct (DefaultingSubstitutionMapper sigma a) as [a' |] eqn:Ha; [| done].
    simpl in Hr. injection Hr as <-. simpl.
    intros s [-> | Hs]%elem_of_cons; [plain_node |].
    apply (IHa a'); [| done | done]. intros s' Hs'. apply Hplain. set_solver.
  - destruct (DefaultingSubstitutionMapper sigma f) as [f' |] eqn:Hf; [| done].
    simpl in Hr.
    destruct (mapM _ ps) as [rs |] eqn:Hmap; [| done]. simpl in Hr.
    injection Hr as <-. simpl.
    intros s [-> | [Hs | (r' & Hr' & Hs)%elem_of_flat_map_subexprs]%elem_of_app]%elem_of_cons;
      [plain_node | |].
    + apply (IHf f'); [| done | done]. intros s' Hs'. apply Hplain. set_solver.
    + apply (mapM_plain _ ps IHps rs) with (r := r'); [| done | done | done].
      intros c Hc s' Hs'. apply Hplain. simpl.
      apply elem_of_cons; right; apply elem_of_app; right;
        apply elem_of_flat_map_subexprs; eauto.
  - exfalso.
    destruct (Hplain (CommonSubexpression c)) as [_ Hno];
      [apply list_elem_of_here |].
    by apply (Hno c).
  - exfalso.
    destruct (Hplain (Foreign cls)) as [Hno _]; [apply list_elem_of_here |].
    by apply Hno.
Qed.

(** X23.  For a non-empty list of targets made of nodes of supported classes
    with no marked common sub-expression, and a dtype getter that does not
    raise, construction succeeds and [get_kernel] returns a kernel, for any
    dtypes given: its body has exactly one line per target. *)
Theorem plain_targets_get_a_kernel (vec_exprs : list expr)
    (is_vector_func : expr -> bool)
    (getter : list (expr * dtype) -> list (expr * dtype) -> except dtype)
    (vector_dtypes scalar_dtypes : list dtype) :
  vec_exprs <> [] ->
  (forall e s, e ∈ vec_exprs -> s ∈ subexprs e ->
     ~ is_foreign s /\ forall c, s <> CommonSubexpression c) ->
  (forall vs ss, exists d, getter vs ss = Ok d) ->
  exists b k codes,
    CompiledVectorExpressionBase_init set_iter vec_exprs is_vector_func getter
    = Ok b /\
    get_kernel b vector_dtypes scalar_dtypes = Ok k /\
    length codes = length vec_exprs /\
    (kernel k).2
    = str_join newline
        (map (fun '(j, code) =>
                "_result" +:+ fmt_d j +:+ "[i] = " +:+ code +:+ ";")
           (enumerate codes)).
Proof.
  intros Hne Hplain Hgetter.
  destruct (init_supported set_iter vec_exprs is_vector_func getter Hne)
    as (b & Hinit & Hlen & _).
  { intros e s He Hs. by apply (Hplain e s). }
  pose proof Hinit as (deps & _ & _ & _ & _ & _ & Hexprs)%init_Ok.
  assert (getter = result_dtype_getter b) as Hsame.
  { unfold CompiledVectorExpressionBase_init in Hinit.
    destruct (dependencies set_iter vec_exprs); [| done]. simpl in Hinit.
    destruct (mapM _ vec_exprs); [| done]. simpl in Hinit.
    by injection Hinit as <-. }
  assert (forall r, r ∈ exprs b -> all_plain r) as Hall.
  { apply (mapM_plain _ vec_exprs) with (3 := Hexprs).
    - apply Forall_forall. intros e _ r. apply mapper_plain.
      apply builder_subst_image.
    - intros e He s Hs. by apply (Hplain e s). }
  destruct (Hgetter (zip (vector_exprs b) vector_dtypes)
              (zip (scalar_exprs b) scalar_dtypes)) as [d Hd].
  rewrite Hsame in Hd.
  destruct (code_all_total (exprs b) new_CCodeMapper) as (codes & cm & Hcodes).
  { intros e s He Hs. by apply (Hall e He s). }
  assert (~ exists e, e ∈ exprs b /\ exists c, CommonSubexpression c ∈ subexprs e)
    as Hnone.
  { intros (e & He & c & Hc). destruct (Hall e He _ Hc) as [_ Hno].
    by apply (Hno c). }
  pose proof Hcodes as [_ Hnew]%code_all_records.
  pose proof (code_all_unmarked _ _ _ Hcodes Hnone) as Heach%Forall2_length.
  destruct (get_kernel_without_cse b vector_dtypes scalar_dtypes d codes cm
              Hd Hcodes) as [args Hk]; [by rewrite Hnew |].
  exists b. eexists. exists codes.
  split_and!; [done | exact Hk | congruence | done].
Qed.

End PlainTargets.

(** ** The builder and its kernel on the two targets *)

Lemma builder_construction_outcome_witness :
  exists b,
    CompiledVectorExpressionBase_init Fixture.insertion_order
      Fixture.plain_targets Fixture.is_vector Fixture.float64_getter = Ok b /\
    length (exprs b) = 2%nat /\
    length (vector_names b) = length (vector_exprs b) /\
    length (scalar_names b) = length (scalar_exprs b).
Proof.
  destruct (builder_construction_outcome Fixture.insertion_order
              Fixture.plain_targets Fixture.is_vector Fixture.float64_getter)
    as [_ Hbuilt].
  apply Hbuilt; [discriminate |].
  intros e s He Hs. list_cases He; simpl in Hs; list_cases Hs;
    intros Hforeign; exact Hforeign.
Defined.

Lemma kernel_argument_names_distinct_witness :
  exists b k,
    CompiledVectorExpressionBase_init Fixture.insertion_order
      Fixture.plain_targets Fixture.is_vector Fixture.float64_getter = Ok b /\
    get_kernel b ["float64"; "float64"; "float64"] ["float64"] = Ok k /\
    NoDup (map arg_name (kernel k).1) /\ "i" ∉ map arg_name (kernel k).1.
Proof.
  destruct (CompiledVectorExpressionBase_init Fixture.insertion_order
              Fixture.plain_targets Fixture.is_vector Fixture.float64_getter)
    as [b |] eqn:Hinit; [| by vm_compute in Hinit].
  destruct (get_kernel b ["float64"; "float64"; "float64"] ["float64"])
    as [k |] eqn:Hk.
  - exists b, k. split_and!; [done | done | |];
      by apply (kernel_argument_names_distinct Fixture.insertion_order
                  Fixture.plain_targets Fixture.is_vector Fixture.float64_getter
                  b ["float64"; "float64"; "float64"] ["float64"] k).
  - vm_compute in Hinit. injection Hinit as <-. by vm_compute in Hk.
Defined.

(** Three vector dependencies and only two vector dtypes: [v2] is left out
    of the arguments. *)
Lemma kernel_arguments_witness :
  exists b k,
    CompiledVectorExpressionBase_init Fixture.insertion_order
      Fixture.plain_targets Fixture.is_vector Fixture.float64_getter = Ok b /\
    get_kernel b ["float64"; "float32"] ["float64"] = Ok k /\
    (kernel k).1
    = [VectorArg "float64" "_result0"; VectorArg "float64" "_result1";
       VectorArg "float64" "v0"; VectorArg "float32" "v1";
       ScalarArg "float64" "s0"].
Proof.
  destruct (CompiledVectorExpressionBase_init Fixture.insertion_order
              Fixture.plain_targets Fixture.is_vector Fixture.float64_getter)
    as [b |] eqn:Hinit; [| by vm_compute in Hinit].
  destruct (get_kernel b ["float64"; "float32"] ["float64"]) as [k |] eqn:Hk.
  - exists b, k. split_and!; [done | done |].
    destruct (kernel_arguments Fixture.insertion_order Fixture.plain_targets
                Fixture.is_vector Fixture.float64_getter b
                ["float64"; "float32"] ["float64"] k Hinit Hk) as [-> _].
    vm_compute in Hinit. injection Hinit as <-.
    vm_compute in Hk. injection Hk as <-. reflexivity.
  - vm_compute in Hinit. injection Hinit as <-. by vm_compute in Hk.
Defined.

Lemma get_kernel_never_binds_cse_witness :
  exists b,
    CompiledVectorExpressionBase_init Fixture.insertion_order
      Fixture.marked_targets Fixture.is_vector Fixture.float64_getter = Ok b /\
    get_kernel b ["float64"; "float64"; "float64"] ["float64"]
    = Raise (NameError "get_c_declarator").
Proof.
  destruct (CompiledVectorExpressionBase_init Fixture.insertion_order
              Fixture.marked_targets Fixture.is_vector Fixture.float64_getter)
    as [b |] eqn:Hinit; [| by vm_compute in Hinit].
  exists b. split; [done |].
  vm_compute in Hinit. injection Hinit as <-.
  match goal with
  | |- get_kernel ?b ?vd ?sd = _ =>
      destruct (get_kernel_never_binds_cse b vd sd) as [_ Hraises]
  end.
  - eexists _, _.
    split; [apply list_elem_of_here | apply list_elem_of_further, list_elem_of_here].
  - apply (Hraises "float64"); [reflexivity |].
    intros e s He Hs. cbn [exprs] in He. list_cases He; simpl in Hs;
      list_cases Hs; intros Hforeign; exact Hforeign.
Defined.

Lemma get_kernel_without_marks_witness :
  exists b k codes,
    CompiledVectorExpressionBase_init Fixture.insertion_order
      Fixture.plain_targets Fixture.is_vector Fixture.float64_getter = Ok b /\
    get_kernel b ["float64"; "float64"; "float64"] ["float64"] = Ok k /\
    result_dtype k = "float64" /\
    Forall2 (fun e code => code_rec e PREC_NONE new_CCodeMapper
                           = Ok (code, new_CCodeMapper)) (exprs b) codes /\
    (kernel k).2
    = str_join newline
        (map (fun '(j, code) =>
                "_result" +:+ fmt_d j +:+ "[i] = " +:+ code +:+ ";")
           (enumerate codes)).
Proof.
  destruct (CompiledVectorExpressionBase_init Fixture.insertion_order
              Fixture.plain_targets Fixture.is_vector Fixture.float64_getter)
    as [b |] eqn:Hinit; [| by vm_compute in Hinit].
  exists b.
  destruct (get_kernel_without_marks b ["float64"; "float64"; "float64"]
              ["float64"] "float64") as (k & codes & Hk);
    [| | | by exists k, codes].
  - vm_compute in Hinit. injection Hinit as <-. reflexivity.
  - vm_compute in Hinit. injection Hinit as <-.
    intros e s He Hs. cbn [exprs] in He. list_cases He; simpl in Hs;
      list_cases Hs; intros Hforeign; exact Hforeign.
  - vm_compute in Hinit. injection Hinit as <-.
    intros e c He Hc. cbn [exprs] in He. list_cases He; simpl in Hc;
      list_cases Hc.
Defined.

Lemma plain_targets_get_a_kernel_witness :
  exists b k codes,
    CompiledVectorExpressionBase_init Fixture.insertion_order
      Fixture.plain_targets Fixture.is_vector Fixture.float64_getter = Ok b /\
    get_kernel b ["float64"; "float64"; "float64"] ["float64"] = Ok k /\
    length codes = 2%nat /\
    (kernel k).2
    = str_join newline
        (map (fun '(j, code) =>
                "_result" +:+ fmt_d j +:+ "[i] = " +:+ code +:+ ";")
           (enumerate codes)).
Proof.
  apply (plain_targets_get_a_kernel Fixture.insertion_order
           Fixture.plain_targets Fixture.is_vector Fixture.float64_getter).
  - discriminate.
  - intros e s He Hs. list_cases He; simpl in Hs; list_cases Hs; plain_node.
  - intros vs ss. by eexists.
Defined.
